(** * secure_mail.backends: the encrypting and signing mail backends

    A shallow embedding of [src/secure_mail/backends.py] (with the two
    exception classes of [src/secure_mail/utils.py]) and the properties of
    the message-splitting pipeline stated over it.

    Python objects that are mutated after they have been handed out
    (the message copies built by [copy_message]) live in a store and are
    named by references; the two output lists hold references, so that an
    object appended twice is visibly the same object.  The GnuPG engine, the
    failure handlers, the [Address] table, the file system and the wrapped
    transport are collaborators outside this module: they are the fields of
    an environment record over which every statement is quantified. *)

From Stdlib Require Import String Ascii List Arith Lia Sorted.
From stdpp Require Import base tactics option list sorting strings.

Open Scope string_scope.
Open Scope list_scope.

(** ** Data model *)

(** An alternative body: [(content, mimetype)]. *)
Definition Alternative : Type := string * string.

(** What is handed to the engine: text ([str]: a body, an alternative,
    the content of an attachment given as text) or bytes (the content of
    a file opened in mode ["rb"], or of an attachment given as bytes); the
    bytes are written as a string, one character for each byte. *)
Inductive Plain : Type :=
| Text (s : string)
| Bytes (b : string).

(** An attachment is a bare file name or a
    [(filename, content, mimetype)] triple; both the file name and the
    media type of a triple may be [None]. *)
Inductive Attachment : Type :=
| AttachmentPath (path : string)
| AttachmentTriple (filename : option string) (content : Plain)
                   (mimetype : option string).

(** The media-type marker of content that is already encrypted. *)
Definition gpg_encrypted : string := "application/gpg-encrypted".

(** References into the store. *)
Abbreviation loc := nat.

(** The attributes of an [EmailMultiAlternatives] object that the module
    reads or writes.  An object without the [alternatives] attribute reads
    as the empty list, and one without [do_not_encrypt_this_message] as
    [false] (the two [getattr] defaults). *)
Record Message : Type := mkMessage {
  to : list string;
  cc : list string;
  bcc : list string;
  reply_to : list string;
  from_email : string;
  subject : string;
  body : string;
  alternatives : list Alternative;
  attachments : list Attachment;
  extra_headers : list (string * string);
  connection : option nat;
  do_not_encrypt_this_message : bool
}.

Definition set_to (v : list string) (m : Message) : Message :=
  mkMessage v (cc m) (bcc m) (reply_to m) (from_email m) (subject m) (body m)
            (alternatives m) (attachments m) (extra_headers m) (connection m)
            (do_not_encrypt_this_message m).

Definition set_body (v : string) (m : Message) : Message :=
  mkMessage (to m) (cc m) (bcc m) (reply_to m) (from_email m) (subject m) v
            (alternatives m) (attachments m) (extra_headers m) (connection m)
            (do_not_encrypt_this_message m).

Definition set_alternatives (v : list Alternative) (m : Message) : Message :=
  mkMessage (to m) (cc m) (bcc m) (reply_to m) (from_email m) (subject m)
            (body m) v (attachments m) (extra_headers m) (connection m)
            (do_not_encrypt_this_message m).

Definition set_attachments (v : list Attachment) (m : Message) : Message :=
  mkMessage (to m) (cc m) (bcc m) (reply_to m) (from_email m) (subject m)
            (body m) (alternatives m) v (extra_headers m) (connection m)
            (do_not_encrypt_this_message m).

(** ** Exceptions, results and the execution state *)

(** [EncryptionFailedError] and [SigningFailedError] are the classes of
    utils.py; [NameError], [UnboundLocalError] and [IOError] are the
    builtins the module can run into.  [BadReference] is not a Python
    exception: it is what dereferencing a reference outside the store
    gives in the embedding. *)
Inductive Exn : Type :=
| EncryptionFailedError (addr status : string)
| SigningFailedError (status : string)
| NameError (name : string)
| UnboundLocalError (name : string)
| IOError (path : string)
| OtherError (what : string)
| BadReference (l : loc).

Definition is_EncryptionFailedError (e : Exn) : bool :=
  match e with EncryptionFailedError _ _ => true | _ => false end.

Inductive Handler : Type :=
| MessageEncryption | AlternativeEncryption | AttachmentEncryption.

(** What the collaborators see: every call of the engine and of a failure
    handler, in program order. *)
Inductive Event : Type :=
| GpgEncrypt (text : Plain) (addr : string)
| GpgSign (text : string)
| HandlerCalled (h : Handler) (e : Exn).

Record State : Type := mkState {
  heap : list Message;
  trace : list Event
}.

Inductive Result (A : Type) : Type :=
| Ok (a : A)
| Raise (e : Exn).
Arguments Ok {A} a.
Arguments Raise {A} e.

Definition M (A : Type) : Type := State -> Result A * State.

Definition ret {A} (a : A) : M A := fun s => (Ok a, s).

Definition bind {A B} (c : M A) (k : A -> M B) : M B := fun s =>
  match c s with
  | (Ok a, s') => k a s'
  | (Raise e, s') => (Raise e, s')
  end.

Definition raise {A} (e : Exn) : M A := fun s => (Raise e, s).

Notation "'let*' x ':=' c 'in' k" := (bind c (fun x => k))
  (at level 10, x pattern, c at level 100, k at level 200).

(** [try: c  except <class> as e: h e] for the exceptions selected by
    [catches]; an exception raised by [h] itself is not caught again. *)
Definition try_except {A} (catches : Exn -> bool) (c : M A)
    (h : Exn -> M A) : M A := fun s =>
  match c s with
  | (Raise e, s') => if catches e then h e s' else (Raise e, s')
  | r => r
  end.

(** A [for] loop threading its local variables. *)
Fixpoint for_each {A B} (f : B -> A -> M B) (xs : list A) (acc : B) : M B :=
  match xs with
  | [] => ret acc
  | x :: xs' => let* acc' := f acc x in for_each f xs' acc'
  end.

Definition log (ev : Event) : M unit := fun s =>
  (Ok tt, mkState (heap s) (trace s ++ [ev])).

Definition alloc (m : Message) : M loc := fun s =>
  (Ok (length (heap s)), mkState (heap s ++ [m]) (trace s)).

Definition deref (l : loc) : M Message := fun s =>
  match heap s !! l with
  | Some m => (Ok m, s)
  | None => (Raise (BadReference l), s)
  end.

(** [obj.attr = v] *)
Definition setattr (l : loc) (f : Message -> Message) : M unit := fun s =>
  match heap s !! l with
  | Some m => (Ok tt, mkState (<[l := f m]> (heap s)) (trace s))
  | None => (Raise (BadReference l), s)
  end.

(** A read of a name: [NameError] when it is bound neither in the function
    nor in the module. *)
Definition load_name (scope : list string) (name : string) : M unit :=
  if bool_decide (name ∈ scope) then ret tt else raise (NameError name).

(** A read of a local variable that may not have been assigned. *)
Definition local {A} (name : string) (v : option A) : M A :=
  match v with
  | Some a => ret a
  | None => raise (UnboundLocalError name)
  end.

(** ** The collaborators *)

(** The result object of [gpg.encrypt]: its [ok] and [status] attributes
    and its text ([smart_text(result)]). *)
Record Crypt : Type := mkCrypt {
  ok : bool;
  data : string;
  status : string
}.

(** The result object of [gpg.sign]. *)
Record Sign : Type := mkSign {
  sign_status : string;
  sign_data : string
}.

(** What a Python call returns to its caller. *)
Inductive PyVal : Type :=
| PyNone
| PyInt (n : nat).

(** - [gpg_encrypt text addr] is [gpg.encrypt(text, addr, **encrypt_kwargs)]
      and [gpg_sign text] is
      [gpg.sign(text, default_key=SIGNING_KEY_FINGERPRINT, **encrypt_kwargs)];
    - [Address_objects] are the [(address, use_asc)] rows of the [Address]
      table (models.py), in the order a query returns them;
    - [read_file path] is the bytes that [open(path, "rb").read()] gives,
      [None] when it fails;
    - a handler of handlers.py returns normally ([None]) or raises;
    - [USE_GNUPG] is the setting; [super_send_messages] is the
      [send_messages] of the transport next in the method resolution
      order. *)
Record Env : Type := mkEnv {
  gpg_encrypt : Plain -> string -> Crypt;
  gpg_sign : string -> Sign;
  Address_objects : list (string * bool);
  read_file : string -> option string;
  handle_failed_message_encryption : Exn -> option Exn;
  handle_failed_alternative_encryption : Exn -> option Exn;
  handle_failed_attachment_encryption : Exn -> option Exn;
  USE_GNUPG : bool;
  super_send_messages : list loc -> M PyVal
}.

(** ** Python dictionaries with string keys, in insertion order *)

Fixpoint dict_set {V} (d : list (string * V)) (k : string) (v : V)
    : list (string * V) :=
  match d with
  | [] => [(k, v)]
  | (k', v') :: d' =>
      if decide (k' = k) then (k', v) :: d' else (k', v') :: dict_set d' k v
  end.

(** [dict(pairs)]: a later pair with the same key replaces the value and
    keeps the position of the first. *)
Definition dict {V} (pairs : list (string * V)) : list (string * V) :=
  fold_left (fun d kv => dict_set d (fst kv) (snd kv)) pairs [].

Definition dict_keys {V} (d : list (string * V)) : list string := d.*1.

(** [os.path.basename]: what follows the last slash. *)
Fixpoint basename_from (acc p : string) : string :=
  match p with
  | EmptyString => acc
  | String c r =>
      if Ascii.eqb c "/" then basename_from EmptyString r
      else basename_from (acc +:+ String c EmptyString) r
  end.

Definition basename (p : string) : string := basename_from EmptyString p.

(** ** The module's functions *)

Section Backends.

Variable env : Env.

(** Calling a failure handler: it returns normally or raises. *)
Definition call_handler (h : Handler) (e : Exn) : M unit :=
  let* _ := log (HandlerCalled h e) in
  let outcome :=
    match h with
    | MessageEncryption => handle_failed_message_encryption env e
    | AlternativeEncryption => handle_failed_alternative_encryption env e
    | AttachmentEncryption => handle_failed_attachment_encryption env e
    end in
  match outcome with
  | None => ret tt
  | Some e' => raise e'
  end.

(** [copy_message(msg)]: a new object built from the attributes of [msg].
    The constructor of [EmailMultiAlternatives] does not take
    [do_not_encrypt_this_message], so the copy has none.  For the other
    attributes the constructor is taken to store what it is given, [to]
    as a new list, as Django up to 1.10 does.  From Django 1.11 on the
    constructor attaches each element of [attachments] anew: it raises
    TypeError for one that is the name of a file and fills in a missing
    mimetype; and it replaces an empty [from_email] by the default of
    the settings.  Statements on the attachments or the sender of a copy,
    and on a run with attachments returning, hold under this
    assumption. *)
Definition copy_of (m : Message) : Message :=
  mkMessage (to m) (cc m) (bcc m) (reply_to m) (from_email m) (subject m)
            (body m) (alternatives m) (attachments m) (extra_headers m)
            (connection m) false.

Definition copy_message (msg : loc) : M loc :=
  let* m := deref msg in alloc (copy_of m).

(** The comparison of [text] with the empty [str] of line 45, as Python 3
    makes it: a [bytes] object is never equal to a [str], so bytes, even
    the empty bytes, are not equal to it. *)
Definition equals_empty_str (text : Plain) : bool :=
  match text with
  | Text s => bool_decide (s = EmptyString)
  | Bytes _ => false
  end.

(** The test of lines 44-45:
    [not result.ok or (smart_text(result) is the empty str and
    text is not equal to the empty str)]. *)
Definition encryption_failed (r : Crypt) (text : Plain) : bool :=
  negb (ok r) || (bool_decide (data r = EmptyString)
                  && negb (equals_empty_str text)).

(** [smart_text] of the engine's result is its [data], a text. *)
Definition encrypt (text : Plain) (addr : string) : M string :=
  let* _ := log (GpgEncrypt text addr) in
  let encryption_result := gpg_encrypt env text addr in
  if encryption_failed encryption_result text
  then raise (EncryptionFailedError addr (status encryption_result))
  else ret (data encryption_result).

(** The names bound at the top level of backends.py: its imports, the
    engine handle, its functions and its classes. *)
Definition module_names : list string :=
  ["with_statement"; "basename"; "ConsoleBackend"; "LocmemBackend";
   "FileBackend"; "SmtpBackend"; "EmailMultiAlternatives"; "smart_text";
   "six"; "handle_failed_message_encryption";
   "handle_failed_alternative_encryption";
   "handle_failed_attachment_encryption"; "handle_failed_message_signing";
   "USE_GNUPG"; "SIGNING_KEY_FINGERPRINT"; "EncryptionFailedError";
   "SigningFailedError"; "encrypt_kwargs"; "get_gpg"; "Address"; "gpg";
   "copy_message"; "encrypt"; "sign"; "encrypt_attachment";
   "encrypt_messages"; "sign_messages"; "EncryptingEmailBackendMixin";
   "SigningEmailBackendMixin"; "EncryptingConsoleEmailBackend";
   "EncryptingLocmemEmailBackend"; "EncryptingFilebasedEmailBackend";
   "EncryptingSmtpEmailBackend"; "SigningSmtpEmailBackend";
   "SigningEmailConsoleBackend"].

(** The local variables of [sign]. *)
Definition sign_locals : list string := ["text"; "signing_result"].

(** In [sign] the arguments of the call [SigningFailedError(..., addr,
    signing_result.status)] are evaluated before the exception is built and
    raised; the first of them after the format string is the name
    [addr]. *)
Definition sign (text : string) : M string :=
  let* _ := log (GpgSign text) in
  let signing_result := gpg_sign env text in
  if negb (bool_decide (sign_status signing_result = "signature created"))
  then
    let* _ := load_name (sign_locals ++ module_names) "addr" in
    raise (SigningFailedError (sign_status signing_result))
  else ret (sign_data signing_result).

(** The unpacking at the head of [encrypt_attachment]. *)
Definition unpack_attachment (attachment : Attachment)
    : M (option string * Plain * option string) :=
  match attachment with
  | AttachmentPath path =>
      match read_file env path with
      | Some content => ret (Some (basename path), Bytes content, None)
      | None => raise (IOError path)
      end
  | AttachmentTriple filename content mimetype =>
      ret (filename, content, mimetype)
  end.

Definition encrypt_attachment (address : string) (attachment : Attachment)
    (use_asc : bool) : M Attachment :=
  let* (filename, content, mimetype) := unpack_attachment attachment in
  if bool_decide (mimetype = Some gpg_encrypted) then ret attachment
  else
    let* (filename, encrypted_content) :=
      try_except is_EncryptionFailedError
        (let* c := encrypt content address in
         ret (match filename with
              | Some f => if use_asc then Some (f +:+ ".asc") else filename
              | None => None
              end, Some c))
        (fun e =>
           let* _ := call_handler AttachmentEncryption e in
           ret (filename, None)) in
    let* encrypted_content := local "encrypted_content" encrypted_content in
    ret (AttachmentTriple filename (Text encrypted_content)
                          (Some gpg_encrypted)).

(** [Address.objects.filter(address__in=to).values_list('address', 'use_asc')]
    made into a dictionary. *)
Definition key_addrs_of (recipients : list string) : list (string * bool) :=
  dict (filter (fun row => fst row ∈ recipients) (Address_objects env)).

(** The body of the loop over [new_msg.alternatives] (lines 143-155). *)
Definition encrypt_alternative (address : string)
    (alternatives : list Alternative) (item : Alternative)
    : M (list Alternative) :=
  let '(alt, mimetype) := item in
  if bool_decide (mimetype = gpg_encrypted)
  then ret (alternatives ++ [(alt, mimetype)])
  else
    try_except is_EncryptionFailedError
      (let* encrypted_alternative := encrypt (Text alt) address in
       ret (alternatives ++ [(encrypted_alternative, gpg_encrypted)]))
      (fun e =>
         let* _ := call_handler AlternativeEncryption e in
         ret alternatives).

(** The body of the loop over [key_addrs.items()] (lines 130-167). *)
Definition encrypt_for_address (msg new_msg : loc)
    (lists : list loc * list loc) (item : string * bool)
    : M (list loc * list loc) :=
  let '(unencrypted_messages, encrypted_messages) := lists in
  let '(address, use_asc) := item in
  let* m := deref msg in
  if do_not_encrypt_this_message m
  then ret (unencrypted_messages ++ [new_msg], encrypted_messages)
  else
    let* nm := deref new_msg in
    let* _ :=
      try_except is_EncryptionFailedError
        (let* b := encrypt (Text (body nm)) address in
         setattr new_msg (set_body b))
        (fun e => call_handler MessageEncryption e) in
    let* nm := deref new_msg in
    let* alts :=
      for_each (encrypt_alternative address) (alternatives nm) [] in
    let* _ := setattr new_msg (set_alternatives alts) in
    let* nm := deref new_msg in
    let* atts :=
      for_each (fun acc attachment =>
                  let* a := encrypt_attachment address attachment use_asc in
                  ret (acc ++ [a]))
               (attachments nm) [] in
    let* _ := setattr new_msg (set_attachments atts) in
    ret (unencrypted_messages, encrypted_messages ++ [new_msg]).

(** The body of the loop over [email_messages] (lines 107-167). *)
Definition encrypt_message (lists : list loc * list loc) (msg : loc)
    : M (list loc * list loc) :=
  let '(unencrypted_messages, encrypted_messages) := lists in
  let* m := deref msg in
  let key_addrs := key_addrs_of (to m) in
  let* unencrypted_msg := copy_message msg in
  let* _ :=
    setattr unencrypted_msg
      (set_to (filter (fun addr => addr ∉ dict_keys key_addrs) (to m))) in
  let* um := deref unencrypted_msg in
  let unencrypted_messages :=
    match to um with
    | [] => unencrypted_messages
    | _ :: _ => unencrypted_messages ++ [unencrypted_msg]
    end in
  let* new_msg := copy_message msg in
  let* _ := setattr new_msg (set_to (dict_keys key_addrs)) in
  for_each (encrypt_for_address msg new_msg) key_addrs
           (unencrypted_messages, encrypted_messages).

(** The loop of [encrypt_messages]: the two local lists when it ends. *)
Definition encrypt_loop (email_messages : list loc)
    : M (list loc * list loc) :=
  for_each encrypt_message email_messages ([], []).

Definition encrypt_messages (email_messages : list loc) : M (list loc) :=
  let* (unencrypted_messages, encrypted_messages) :=
    encrypt_loop email_messages in
  ret (unencrypted_messages ++ encrypted_messages).

(** [sign_messages] assigns to the [body] of the messages it is given and
    returns the list it was given. *)
Definition sign_messages (email_messages : list loc) : M (list loc) :=
  let* _ :=
    for_each (fun (_ : unit) msg =>
                let* m := deref msg in
                let* b := sign (body m) in
                setattr msg (set_body b))
             email_messages tt in
  ret email_messages.

(** The two [send_messages] methods end with the call of the next
    [send_messages] as an expression statement: they have no [return]. *)
Definition EncryptingEmailBackendMixin_send_messages
    (email_messages : list loc) : M PyVal :=
  let* email_messages :=
    (if USE_GNUPG env then encrypt_messages email_messages
     else ret email_messages) in
  let* _ := super_send_messages env email_messages in
  ret PyNone.

Definition SigningEmailBackendMixin_send_messages
    (email_messages : list loc) : M PyVal :=
  let* email_messages :=
    (if USE_GNUPG env then sign_messages email_messages
     else ret email_messages) in
  let* _ := super_send_messages env email_messages in
  ret PyNone.

End Backends.

(** ** Vocabulary of the statements *)

(** An address is keyed when the [Address] table has a row for it. *)
Definition has_key (env : Env) (addr : string) : Prop :=
  addr ∈ (Address_objects env).*1.

#[global] Instance has_key_dec env addr : Decision (has_key env addr).
Proof. unfold has_key. apply _. Defined.

(** The recipients of the two copies made of a message [m]. *)
Definition keyless_to (env : Env) (m : Message) : list string :=
  filter (fun addr => addr ∉ dict_keys (key_addrs_of env (to m))) (to m).

Definition keyed_to (env : Env) (m : Message) : list string :=
  dict_keys (key_addrs_of env (to m)).

(** The copies as [copy_message] and the assignment to [to] leave them. *)
Definition unencrypted_copy (env : Env) (m : Message) : Message :=
  set_to (keyless_to env m) (copy_of m).

Definition keyed_copy (env : Env) (m : Message) : Message :=
  set_to (keyed_to env m) (copy_of m).

(** Everything of a message but its body, alternatives and attachments. *)
Definition envelope (m : Message) :=
  (to m, cc m, bcc m, reply_to m, from_email m, subject m, extra_headers m,
   connection m, do_not_encrypt_this_message m).

(** The body of the shared copy after the pass for one address: the
    ciphertext when the engine call succeeds, the body as it was when the
    call fails and the handler returns. *)
Definition body_after (env : Env) (b addr : string) : string :=
  if encryption_failed (gpg_encrypt env (Text b) addr) (Text b) then b
  else data (gpg_encrypt env (Text b) addr).

(** The engine calls made on the body, address after address. *)
Fixpoint body_calls (env : Env) (b : string) (addrs : list string)
    : list Event :=
  match addrs with
  | [] => []
  | a :: rest =>
      GpgEncrypt (Text b) a :: body_calls env (body_after env b a) rest
  end.

(** A computation that leaves the store as it is and only adds events. *)
Definition store_preserved {A} (c : M A) : Prop :=
  forall s r s', c s = (r, s') ->
    heap s' = heap s /\ exists evs, trace s' = trace s ++ evs.

(** A computation that always returns, leaves the store as it is, and
    whose value satisfies [P]. *)
Definition returns {A} (c : M A) (P : A -> Prop) : Prop :=
  forall s, exists a s', c s = (Ok a, s') /\ heap s' = heap s /\ P a.

(** An engine that encrypts whatever it is given. *)
Definition engine_reliable (env : Env) : Prop :=
  forall text addr, encryption_failed (gpg_encrypt env text addr) text = false.

(** An attachment whose content can be had: a triple, or the name of a
    file that can be read. *)
Definition readable (env : Env) (a : Attachment) : Prop :=
  match a with
  | AttachmentPath path => is_Some (read_file env path)
  | AttachmentTriple _ _ _ => True
  end.

(** What one message adds to the two local lists, [n] being the reference
    of its first copy: the unencrypted copy when it has a recipient, and
    the second copy once for each keyed address, to the first list when the
    message is flagged and to the second when it is not. *)
Definition message_contribution (env : Env) (m : Message) (n : loc)
    : list loc * list loc :=
  (match keyless_to env m with [] => [] | _ :: _ => [n] end
   ++ (if do_not_encrypt_this_message m
       then replicate (length (keyed_to env m)) (S n) else []),
   if do_not_encrypt_this_message m
   then [] else replicate (length (keyed_to env m)) (S n)).

(** The references of the two copies made of the [i]-th message of a batch
    when the store held [n0] objects before the call: [copy_message] is
    called twice for each message, in this order. *)
Definition unencrypted_ref (n0 i : nat) : loc := n0 + 2 * i.
Definition keyed_ref (n0 i : nat) : loc := n0 + 2 * i + 1.

(** What a run over a batch leaves behind for one of its messages [m]:
    [hp] is the store when the run ends, [cu] and [ce] are what the run
    appended to the two lists, [evs] the events of the run, and [lu], [ln]
    the references of the copies of [m]. *)
Definition derived_copies (env : Env) (m : Message) (lu ln : loc)
    (hp : list Message) (cu ce : list loc) (evs : list Event) : Prop :=
  hp !! lu = Some (unencrypted_copy env m) /\
  count_occ Nat.eq_dec cu lu =
    match keyless_to env m with [] => 0 | _ :: _ => 1 end /\
  count_occ Nat.eq_dec ce lu = 0 /\
  count_occ Nat.eq_dec cu ln =
    (if do_not_encrypt_this_message m
     then length (keyed_to env m) else 0) /\
  count_occ Nat.eq_dec ce ln =
    (if do_not_encrypt_this_message m
     then 0 else length (keyed_to env m)) /\
  exists nm,
    hp !! ln = Some nm /\
    envelope nm = envelope (keyed_copy env m) /\
    (do_not_encrypt_this_message m = true -> nm = keyed_copy env m) /\
    (do_not_encrypt_this_message m = false ->
     body nm = fold_left (body_after env) (keyed_to env m) (body m) /\
     body_calls env (body m) (keyed_to env m) `sublist_of` evs).

(** The claim on fully keyed messages, as the specification words it: no
    unencrypted copy, exactly one encrypted copy in the output, addressed
    to the keyed set. *)
Definition exactly_one_encrypted_copy (env : Env) (batch : list loc)
    (s : State) (i : nat) : Prop :=
  forall l m,
    batch !! i = Some l -> heap s !! l = Some m ->
    (forall a, a ∈ to m -> has_key env a) ->
    exists U E s' nm,
      encrypt_loop env batch s = (Ok (U, E), s') /\
      (unencrypted_ref (length (heap s)) i ∉ U ++ E) /\
      (keyed_ref (length (heap s)) i ∉ U) /\
      count_occ Nat.eq_dec (U ++ E) (keyed_ref (length (heap s)) i) = 1 /\
      heap s' !! keyed_ref (length (heap s)) i = Some nm /\
      to nm = keyed_to env m.

(** The claim on mixed messages, as the specification words it: an
    unencrypted copy to the keyless addresses and an encrypted copy to the
    keyed ones. *)
Definition split_in_two_copies (env : Env) (batch : list loc)
    (s : State) (i : nat) : Prop :=
  forall l m,
    batch !! i = Some l -> heap s !! l = Some m ->
    (exists a, a ∈ to m /\ ~ has_key env a) ->
    (exists a, a ∈ to m /\ has_key env a) ->
    exists U E s' um nm,
      encrypt_loop env batch s = (Ok (U, E), s') /\
      unencrypted_ref (length (heap s)) i ∈ U /\
      keyed_ref (length (heap s)) i ∈ E /\
      heap s' !! unencrypted_ref (length (heap s)) i = Some um /\
      heap s' !! keyed_ref (length (heap s)) i = Some nm /\
      to um = filter (fun a => ~ has_key env a) (to m) /\
      (forall a, a ∈ to nm -> a ∈ to m /\ has_key env a) /\
      (forall a, a ∈ to m <-> a ∈ to um \/ a ∈ to nm) /\
      (forall a, ~ (a ∈ to um /\ a ∈ to nm)).

(** ** A concrete site *)

(** An engine that wraps the plaintext in a visible envelope and refuses
    one address; handlers that return; three keyed addresses. *)
Definition characters (text : Plain) : string :=
  match text with Text s => s | Bytes b => b end.

Definition demo_encrypt (text : Plain) (addr : string) : Crypt :=
  if bool_decide (addr = "bad@x.com")
  then mkCrypt false EmptyString "invalid recipient"
  else mkCrypt true ("<" +:+ addr +:+ ":" +:+ characters text +:+ ">")
               "encryption ok".

Definition demo_sign (text : string) : Sign :=
  if bool_decide (text = "unsignable")
  then mkSign "no default secret key" EmptyString
  else mkSign "signature created" ("signed:" +:+ text).

Definition demo_env (use_gnupg : bool) : Env :=
  mkEnv demo_encrypt demo_sign
        [("b@x.com", true); ("c@x.com", false); ("bad@x.com", false)]
        (fun _ => None)
        (fun _ => None) (fun _ => None) (fun _ => None)
        use_gnupg
        (fun batch => ret (PyInt (length batch))).

(** An engine that reports ok and gives back the characters it was given,
    an empty result for an empty input; a file without content; handlers
    that raise what they are given. *)
Definition demo_env_echo : Env :=
  mkEnv (fun text addr => mkCrypt true (characters text) "encryption ok")
        demo_sign
        [("b@x.com", true)]
        (fun path => if bool_decide (path = "/tmp/empty.txt")
                     then Some EmptyString else None)
        (fun e => Some e) (fun e => Some e) (fun e => Some e)
        true
        (fun batch => ret (PyInt (length batch))).

Definition demo_message (recipients : list string) (flag : bool) : Message :=
  mkMessage recipients [] [] [] "me@x.com" "hi" "hello"
            [("<p>hello</p>", "text/html")]
            [AttachmentTriple (Some "report.pdf") (Bytes "PDF")
                              (Some "application/pdf")]
            [] None flag.

Definition demo_state (ms : list Message) : State := mkState ms [].

(** ** Vocabulary of the further statements *)

(** What the pass for one address makes of an alternative when the pass
    returns: a marked alternative stays, one whose encryption fails (the
    handler having returned) is left out, any other is replaced by its
    ciphertext, marked. *)
Definition alternative_after (env : Env) (address : string)
    (item : Alternative) : list Alternative :=
  if bool_decide (snd item = gpg_encrypted) then [item]
  else if encryption_failed (gpg_encrypt env (Text (fst item)) address)
                            (Text (fst item))
       then []
       else [(data (gpg_encrypt env (Text (fst item)) address),
              gpg_encrypted)].

Definition alternatives_after (env : Env) (address : string)
    (alts : list Alternative) : list Alternative :=
  flat_map (alternative_after env address) alts.

(** The file name of an encrypted attachment under the suffix policy. *)
Definition suffixed (use_asc : bool) (filename : option string)
    : option string :=
  match filename with
  | Some f => if use_asc then Some (f +:+ ".asc") else Some f
  | None => None
  end.

(** What [encrypt_attachment] returns when it returns; [None] where it
    cannot return: a file that cannot be read, or a failed encryption. *)
Definition attachment_after (env : Env) (address : string) (use_asc : bool)
    (a : Attachment) : option Attachment :=
  match a with
  | AttachmentPath path =>
      match read_file env path with
      | Some content =>
          if encryption_failed (gpg_encrypt env (Bytes content) address)
                               (Bytes content)
          then None
          else Some (AttachmentTriple (suffixed use_asc (Some (basename path)))
                       (Text (data (gpg_encrypt env (Bytes content) address)))
                       (Some gpg_encrypted))
      | None => None
      end
  | AttachmentTriple filename content mimetype =>
      if bool_decide (mimetype = Some gpg_encrypted) then Some a
      else if encryption_failed (gpg_encrypt env content address) content
           then None
           else Some (AttachmentTriple (suffixed use_asc filename)
                        (Text (data (gpg_encrypt env content address)))
                        (Some gpg_encrypted))
  end.

Definition marked_attachment (a : Attachment) : Prop :=
  match a with
  | AttachmentTriple _ _ (Some mt) => mt = gpg_encrypted
  | _ => False
  end.

(** A computation that may write to the store only at references from [n]
    on, and whose value, when it returns, satisfies [P]. *)
Definition keeps_below {A} (n : nat) (c : M A) (P : A -> Prop) : Prop :=
  forall s r s', c s = (r, s') -> n <= length (heap s) ->
    take n (heap s') = take n (heap s) /\
    length (heap s) <= length (heap s') /\
    forall a, r = Ok a -> P a.

(** A message with its body replaced by the engine's signature of it. *)
Definition signed (env : Env) (m : Message) : Message :=
  set_body (sign_data (gpg_sign env (body m))) m.

(** The engine reports the marker for the body of the message. *)
Definition signs (env : Env) (m : Message) : Prop :=
  sign_status (gpg_sign env (body m)) = "signature created".

(** The engine calls for the bodies of the messages that a list of
    references names in a store. *)
Definition sign_calls (hp : list Message) (batch : list loc) : list Event :=
  flat_map (fun l => match hp !! l with
                     | Some m => [GpgSign (body m)]
                     | None => []
                     end) batch.

(** ** utils.py: the addresses of a key *)

(** [s.split(c)[-1]]: what follows the last [c] in [s], all of [s] when
    [c] does not occur in it. *)
Fixpoint last_piece_from (c : ascii) (acc s : string) : string :=
  match s with
  | EmptyString => acc
  | String x r =>
      if Ascii.eqb x c then last_piece_from c EmptyString r
      else last_piece_from c (acc +:+ String x EmptyString) r
  end.

Definition last_piece (c : ascii) (s : string) : string :=
  last_piece_from c EmptyString s.

(** [s.strip(c)] for a one-character [c]: [s] without the [c]s at its
    two ends. *)
Fixpoint lstrip (c : ascii) (s : string) : string :=
  match s with
  | EmptyString => EmptyString
  | String x r => if Ascii.eqb x c then lstrip c r else s
  end.

Fixpoint rstrip (c : ascii) (s : string) : string :=
  match s with
  | EmptyString => EmptyString
  | String x r =>
      match rstrip c r with
      | EmptyString =>
          if Ascii.eqb x c then EmptyString else String x EmptyString
      | String y r' => String x (String y r')
      end
  end.

Definition strip (c : ascii) (s : string) : string := rstrip c (lstrip c s).

(** [address.split("<")[-1].strip(">")] *)
Definition address_of_uid (address : string) : string :=
  strip ">" (last_piece "<" address).

(** [addresses_for_key(gpg, key)], [key_map] being
    [gpg.list_keys().key_map] reduced to the ["uids"] of each key and
    [fingerprint] being [key['fingerprint']]; [None] is the [KeyError] of
    a fingerprint that the map does not have. *)
Definition addresses_for_key (key_map : string -> option (list string))
    (fingerprint : string) : option (list string) :=
  match key_map fingerprint with
  | Some uids =>
      Some (map address_of_uid
              (filter (fun address => address <> EmptyString) uids))
  | None => None
  end.

(** The character [c] occurs in [s]. *)
Fixpoint occurs (c : ascii) (s : string) : bool :=
  match s with
  | EmptyString => false
  | String x r => Ascii.eqb x c || occurs c r
  end.

(** A user id as GnuPG prints it: a name, then the address between angle
    brackets. *)
Definition uid_of (name addr : string) : string :=
  name +:+ " <" +:+ addr +:+ ">".

(** The value of the last pair with key [k] in a list of pairs. *)
Fixpoint last_value {V} (k : string) (pairs : list (string * V)) : option V :=
  match pairs with
  | [] => None
  | (k', v') :: rest =>
      match last_value k rest with
      | Some v => Some v
      | None => if decide (k' = k) then Some v' else None
      end
  end.



(** ** Further concrete sites *)

(** The concrete site with a message handler that raises what it is
    given. *)
Definition demo_env_strict : Env :=
  mkEnv demo_encrypt demo_sign
        [("b@x.com", true); ("c@x.com", false); ("bad@x.com", false)]
        (fun _ => None)
        (fun e => Some e) (fun _ => None) (fun _ => None)
        true
        (fun batch => ret (PyInt (length batch))).

(** An engine that never refuses, on a table with two rows for one
    address. *)
Definition demo_env_reliable : Env :=
  mkEnv (fun text addr =>
           mkCrypt true ("<" +:+ addr +:+ ":" +:+ characters text +:+ ">")
                   "encryption ok")
        demo_sign
        [("b@x.com", true); ("c@x.com", false); ("b@x.com", false)]
        (fun path => if bool_decide (path = "/tmp/report.pdf")
                     then Some "PDF" else None)
        (fun _ => None) (fun _ => None) (fun _ => None)
        true
        (fun batch => ret (PyInt (length batch))).

(** A message with a body only. *)
Definition demo_plain_message (recipients : list string) (text : string)
    : Message :=
  mkMessage recipients ["boss@x.com"] [] [] "me@x.com" "hi" text
            [] [] [] None false.

(** A key map with one key. *)
Definition demo_key_map (fingerprint : string) : option (list string) :=
  if bool_decide (fingerprint = "ABCD1234")
  then Some ["Alice Example <alice@x.com>"; "Alice (work) <a.ex@corp.com>"]
  else None.

(** ** The events of the passes *)

(** The events of the body step of the pass for one address: the engine
    call, and the call of the handler when the engine failed. *)
Definition body_pass_events (env : Env) (b addr : string) : list Event :=
  GpgEncrypt (Text b) addr ::
  (if encryption_failed (gpg_encrypt env (Text b) addr) (Text b)
   then [HandlerCalled MessageEncryption
           (EncryptionFailedError addr
              (status (gpg_encrypt env (Text b) addr)))]
   else []).

(** The events of the body steps of the passes for a list of addresses,
    each on the body as the pass before left it. *)
Fixpoint body_events (env : Env) (b : string) (addrs : list string)
    : list Event :=
  match addrs with
  | [] => []
  | a :: rest =>
      body_pass_events env b a ++ body_events env (body_after env b a) rest
  end.

(** The events of the pass for one address on an alternative: none for
    a marked one; for another the engine call, and the call of the handler
    when the engine failed. *)
Definition alternative_events (env : Env) (addr : string)
    (item : Alternative) : list Event :=
  if bool_decide (snd item = gpg_encrypted) then []
  else
    GpgEncrypt (Text (fst item)) addr ::
    (if encryption_failed (gpg_encrypt env (Text (fst item)) addr)
                          (Text (fst item))
     then [HandlerCalled AlternativeEncryption
             (EncryptionFailedError addr
                (status (gpg_encrypt env (Text (fst item)) addr)))]
     else []).

Definition alternatives_events (env : Env) (addr : string)
    (alts : list Alternative) : list Event :=
  flat_map (alternative_events env addr) alts.

(** The events of a call of [encrypt_attachment] that returns: none for
    a marked triple, the engine call for any other attachment. *)
Definition attachment_events (env : Env) (addr : string) (a : Attachment)
    : list Event :=
  match a with
  | AttachmentPath path =>
      match read_file env path with
      | Some content => [GpgEncrypt (Bytes content) addr]
      | None => []
      end
  | AttachmentTriple _ content mimetype =>
      if bool_decide (mimetype = Some gpg_encrypted) then []
      else [GpgEncrypt content addr]
  end.

Definition attachments_events (env : Env) (addr : string)
    (atts : list Attachment) : list Event :=
  flat_map (attachment_events env addr) atts.

(** The claim on the shared fields, as the specification words it: the
    body, the alternatives and the attachments of the copy for the keyed
    recipients are what the pass for the last processed address made. *)
Definition fields_of_last_address (env : Env) (batch : list loc)
    (s : State) (i : nat) : Prop :=
  forall l m init last use_asc,
    batch !! i = Some l -> heap s !! l = Some m ->
    do_not_encrypt_this_message m = false ->
    key_addrs_of env (to m) = init ++ [(last, use_asc)] ->
    init <> [] ->
    exists U E s' nm,
      encrypt_loop env batch s = (Ok (U, E), s') /\
      heap s' !! keyed_ref (length (heap s)) i = Some nm /\
      body nm
        = body_after env (fold_left (body_after env) init.*1 (body m)) last /\
      alternatives nm = alternatives_after env last (alternatives m) /\
      mapM (attachment_after env last use_asc) (attachments m)
        = Some (attachments nm).

(** Decidable facts on concrete data are settled by evaluation. *)
Ltac by_computation :=
  apply (bool_decide_unpack _); vm_compute; exact I.

(** ** Running the monad *)

Lemma bind_Ok {A B} (c : M A) (k : A -> M B) s a s1 :
  c s = (Ok a, s1) -> bind c k s = k a s1.
Proof. intros H. unfold bind. by rewrite H. Qed.

Lemma bind_Raise {A B} (c : M A) (k : A -> M B) s e s1 :
  c s = (Raise e, s1) -> bind c k s = (Raise e, s1).
Proof. intros H. unfold bind. by rewrite H. Qed.

Lemma bind_Ok_inv {A B} (c : M A) (k : A -> M B) s b s2 :
  bind c k s = (Ok b, s2) ->
  exists a s1, c s = (Ok a, s1) /\ k a s1 = (Ok b, s2).
Proof.
  unfold bind. destruct (c s) as [[a|e] s1]; [eauto | discriminate].
Qed.

Lemma deref_run s l m : heap s !! l = Some m -> deref l s = (Ok m, s).
Proof. intros H. unfold deref. by rewrite H. Qed.

Lemma deref_Ok_inv s l m s' :
  deref l s = (Ok m, s') -> heap s !! l = Some m /\ s' = s.
Proof.
  unfold deref. destruct (heap s !! l); intros [= <- <-]; auto.
Qed.

Lemma setattr_run s l f m :
  heap s !! l = Some m ->
  setattr l f s = (Ok tt, mkState (<[l := f m]> (heap s)) (trace s)).
Proof. intros H. unfold setattr. by rewrite H. Qed.

Section Outcomes.

Variable env : Env.

Lemma encrypt_run text addr s :
  encrypt env text addr s =
  (if encryption_failed (gpg_encrypt env text addr) text
   then Raise (EncryptionFailedError addr (status (gpg_encrypt env text addr)))
   else Ok (data (gpg_encrypt env text addr)),
   mkState (heap s) (trace s ++ [GpgEncrypt text addr])).
Proof.
  unfold encrypt, bind, log.
  by destruct (encryption_failed _ _).
Qed.

Lemma encryption_failed_iff (r : Crypt) (text : Plain) :
  encryption_failed r text = true <->
  ok r = false \/ (data r = EmptyString /\ equals_empty_str text = false).
Proof.
  unfold encryption_failed.
  rewrite orb_true_iff, andb_true_iff, negb_true_iff, negb_true_iff.
  rewrite bool_decide_eq_true. tauto.
Qed.

(** For every plaintext, [encrypt] raises [EncryptionFailedError] exactly
    when the engine's result is not ok, or is empty for a plaintext that
    the comparison of line 45 does not take for the empty [str]; in every
    other case it returns the engine's ciphertext.  Either way the engine
    has been called once, with the plaintext and the address. *)
Lemma encrypt_outcome text addr s :
  let r := gpg_encrypt env text addr in
  let failed :=
    ok r = false \/ (data r = EmptyString /\ equals_empty_str text = false) in
  ((exists e, fst (encrypt env text addr s) = Raise e) <-> failed) /\
  (failed ->
   fst (encrypt env text addr s) =
   Raise (EncryptionFailedError addr (status r))) /\
  (~ failed -> fst (encrypt env text addr s) = Ok (data r)) /\
  snd (encrypt env text addr s) =
  mkState (heap s) (trace s ++ [GpgEncrypt text addr]).
Proof.
  intros r failed. rewrite encrypt_run. fold r. simpl.
  pose proof (encryption_failed_iff r text) as Hiff. fold failed in Hiff.
  destruct (encryption_failed r text).
  - assert (failed) by (by apply Hiff). repeat split; eauto. tauto.
  - assert (~ failed) by (rewrite <- Hiff; discriminate).
    repeat split; eauto; try tauto. intros [e He]. discriminate.
Qed.

(** On text the comparison is the one meant: [encrypt] raises exactly
    when the result is not ok, or is empty for a text that is not. *)
Lemma encrypt_text_raises_iff t addr s :
  (exists e, fst (encrypt env (Text t) addr s) = Raise e) <->
  ok (gpg_encrypt env (Text t) addr) = false \/
  (data (gpg_encrypt env (Text t) addr) = EmptyString /\ t <> EmptyString).
Proof.
  rewrite (proj1 (encrypt_outcome (Text t) addr s)).
  cbn [equals_empty_str]. by rewrite bool_decide_eq_false.
Qed.

(** On bytes it is not: [encrypt] raises for every empty result, also
    when there were no bytes to encrypt. *)
Lemma encrypt_bytes_raises_iff b addr s :
  (exists e, fst (encrypt env (Bytes b) addr s) = Raise e) <->
  ok (gpg_encrypt env (Bytes b) addr) = false \/
  data (gpg_encrypt env (Bytes b) addr) = EmptyString.
Proof.
  rewrite (proj1 (encrypt_outcome (Bytes b) addr s)).
  cbn [equals_empty_str]. tauto.
Qed.

End Outcomes.

(** C5. With an engine that reports an ok result whose ciphertext is
    empty for an empty input, [encrypt] returns that ciphertext for the
    empty text, but for the empty content of an attachment file, which is
    bytes, it raises [EncryptionFailedError]: the input is empty and the
    result is ok, yet the comparison of line 45 takes bytes for a
    non-empty input. *)
Theorem encrypt_raises_on_empty_bytes :
  ok (gpg_encrypt demo_env_echo (Bytes EmptyString) "b@x.com") = true /\
  data (gpg_encrypt demo_env_echo (Bytes EmptyString) "b@x.com")
    = EmptyString /\
  fst (encrypt demo_env_echo (Text EmptyString) "b@x.com" (demo_state []))
    = Ok EmptyString /\
  fst (encrypt demo_env_echo (Bytes EmptyString) "b@x.com" (demo_state []))
    = Raise (EncryptionFailedError "b@x.com" "encryption ok") /\
  fst (encrypt_attachment demo_env_echo "b@x.com"
         (AttachmentPath "/tmp/empty.txt") false (demo_state []))
    = Raise (EncryptionFailedError "b@x.com" "encryption ok").
Proof. by repeat split. Qed.

Section Signing.

Variable env : Env.

(** [addr] is not a name that [sign] can read. *)
Lemma addr_unbound s :
  load_name (sign_locals ++ module_names) "addr" s
  = (Raise (NameError "addr"), s).
Proof. by vm_compute. Qed.

Lemma sign_run text s :
  sign env text s =
  (if bool_decide (sign_status (gpg_sign env text) = "signature created")
   then Ok (sign_data (gpg_sign env text))
   else Raise (NameError "addr"),
   mkState (heap s) (trace s ++ [GpgSign text])).
Proof.
  unfold sign. unfold bind at 1. unfold log.
  destruct (bool_decide _); [done|].
  cbn [negb]. by rewrite (bind_Raise _ _ _ _ _ (addr_unbound _)).
Qed.

(** When the status is the marker, [sign] returns the signature. *)
Lemma sign_created text s :
  sign_status (gpg_sign env text) = "signature created" ->
  fst (sign env text s) = Ok (sign_data (gpg_sign env text)).
Proof. intros H. rewrite sign_run. by rewrite bool_decide_eq_true_2. Qed.

(** When it is not, the failure is a [NameError], whatever the engine and
    the text. *)
Lemma sign_not_created text s :
  sign_status (gpg_sign env text) <> "signature created" ->
  fst (sign env text s) = Raise (NameError "addr").
Proof. intros H. rewrite sign_run. by rewrite bool_decide_eq_false_2. Qed.

End Signing.

(** C6. With an engine whose status for the text is not the marker
    "signature created", [sign] does not fail with [SigningFailedError]:
    building the exception evaluates the unbound name [addr], and the call
    ends in [NameError].  With the marker it returns the signature. *)
Theorem sign_failure_is_NameError :
  sign_status (gpg_sign (demo_env true) "unsignable") <> "signature created" /\
  fst (sign (demo_env true) "unsignable" (demo_state [])) =
    Raise (NameError "addr") /\
  (forall st, fst (sign (demo_env true) "unsignable" (demo_state []))
              <> Raise (SigningFailedError st)) /\
  fst (sign (demo_env true) "hello" (demo_state [])) = Ok "signed:hello".
Proof.
  repeat split; try done.
Qed.

Section Attachments.

Variable env : Env.

Lemma call_handler_run h e s :
  call_handler env h e s =
  (match match h with
         | MessageEncryption => handle_failed_message_encryption env e
         | AlternativeEncryption => handle_failed_alternative_encryption env e
         | AttachmentEncryption => handle_failed_attachment_encryption env e
         end with
   | None => Ok tt
   | Some e' => Raise e'
   end,
   mkState (heap s) (trace s ++ [HandlerCalled h e])).
Proof.
  unfold call_handler, bind, log.
  by destruct (match h with MessageEncryption => _ | _ => _ end).
Qed.

(** C7. For an attachment that is not marked as encrypted, when the engine
    call fails and the attachment handler returns normally,
    [encrypt_attachment] has nothing to return: the [return] statement
    reads [encrypted_content], which was never assigned, and the call ends
    in [UnboundLocalError]; no fallback value, such as the attachment as it
    was, is produced. *)
Theorem encrypt_attachment_handled_failure_unbound
    address attachment use_asc s filename content mimetype :
  unpack_attachment env attachment s = (Ok (filename, content, mimetype), s) ->
  mimetype <> Some gpg_encrypted ->
  encryption_failed (gpg_encrypt env content address) content = true ->
  handle_failed_attachment_encryption env
    (EncryptionFailedError address
       (status (gpg_encrypt env content address))) = None ->
  encrypt_attachment env address attachment use_asc s =
  (Raise (UnboundLocalError "encrypted_content"),
   mkState (heap s)
     (trace s ++ [GpgEncrypt content address;
                  HandlerCalled AttachmentEncryption
                    (EncryptionFailedError address
                       (status (gpg_encrypt env content address)))])).
Proof.
  intros Hunpack Hmime Hfail Hhandler.
  unfold encrypt_attachment.
  rewrite (bind_Ok _ _ _ _ _ Hunpack).
  rewrite bool_decide_eq_false_2 by done.
  unfold bind at 1, try_except.
  unfold bind at 1. rewrite encrypt_run, Hfail. simpl.
  unfold bind at 1. rewrite call_handler_run, Hhandler. simpl.
  by rewrite <- app_assoc.
Qed.

(** An attachment triple that carries the marker comes back as it is,
    and nothing else happens. *)
Lemma encrypt_attachment_marked address filename content use_asc s :
  encrypt_attachment env address
    (AttachmentTriple filename content (Some gpg_encrypted)) use_asc s =
  (Ok (AttachmentTriple filename content (Some gpg_encrypted)), s).
Proof. reflexivity. Qed.

Lemma encrypt_alternative_marked address acc alt s :
  encrypt_alternative env address acc (alt, gpg_encrypted) s =
  (Ok (acc ++ [(alt, gpg_encrypted)]), s).
Proof. reflexivity. Qed.

Lemma unpack_attachment_inv attachment s r s' :
  unpack_attachment env attachment s = (r, s') -> s' = s.
Proof.
  destruct attachment as [path|f c mt]; simpl.
  - destruct (read_file env path); by intros [= _ <-].
  - by intros [= _ <-].
Qed.

(** What [encrypt_attachment] returns is always marked. *)
Lemma encrypt_attachment_Ok_marked address attachment use_asc s a s' :
  encrypt_attachment env address attachment use_asc s = (Ok a, s') ->
  exists filename content,
    a = AttachmentTriple filename content (Some gpg_encrypted).
Proof.
  unfold encrypt_attachment. intros H.
  apply bind_Ok_inv in H as ([[filename content] mimetype] & s1 & Hu & H).
  case_bool_decide as Hm.
  - injection H as <- <-. subst mimetype.
    destruct attachment as [path|f c mt]; simpl in Hu.
    + destruct (read_file env path); discriminate.
    + injection Hu as -> -> -> _. eauto.
  - apply bind_Ok_inv in H as ([filename' ec] & s2 & _ & H).
    apply bind_Ok_inv in H as (c & s3 & _ & H).
    injection H as <- _. eauto.
Qed.

Lemma for_each_alternatives_marked address alts acc s :
  Forall (fun a : Alternative => snd a = gpg_encrypted) alts ->
  for_each (encrypt_alternative env address) alts acc s =
  (Ok (acc ++ alts), s).
Proof.
  intros Hall. revert acc.
  induction Hall as [|[alt mt] alts Hx _ IH]; intros acc; cbn [for_each].
  - unfold ret. by rewrite app_nil_r.
  - cbn [snd] in Hx. subst mt.
    rewrite (bind_Ok _ _ _ _ _ (encrypt_alternative_marked _ _ _ _)).
    rewrite IH. by rewrite <- app_assoc.
Qed.

(** C4. Content that carries the marker [application/gpg-encrypted] is
    passed through: [encrypt_attachment] returns a marked attachment as it
    is and the alternatives loop appends a marked alternative as it is,
    both without calling the engine or changing anything else; a list of
    marked alternatives comes out as it went in; and running
    [encrypt_attachment] again on what it returned, for any address and
    suffix policy, is the identity. *)
Theorem marked_content_passes_through address s :
  (forall filename content use_asc,
     encrypt_attachment env address
       (AttachmentTriple filename content (Some gpg_encrypted)) use_asc s =
     (Ok (AttachmentTriple filename content (Some gpg_encrypted)), s)) /\
  (forall alt acc,
     encrypt_alternative env address acc (alt, gpg_encrypted) s =
     (Ok (acc ++ [(alt, gpg_encrypted)]), s)) /\
  (forall alts,
     Forall (fun a : Alternative => snd a = gpg_encrypted) alts ->
     for_each (encrypt_alternative env address) alts [] s = (Ok alts, s)) /\
  (forall attachment use_asc a s',
     encrypt_attachment env address attachment use_asc s = (Ok a, s') ->
     forall address' use_asc' s'',
       encrypt_attachment env address' a use_asc' s'' = (Ok a, s'')).
Proof.
  split; [|split; [|split]].
  - intros. apply encrypt_attachment_marked.
  - intros. apply encrypt_alternative_marked.
  - intros alts Hall. by rewrite for_each_alternatives_marked.
  - intros attachment use_asc a s' H address' use_asc' s''.
    apply encrypt_attachment_Ok_marked in H as (f & c & ->).
    apply encrypt_attachment_marked.
Qed.

End Attachments.

(** ** Computations that leave the store alone *)

Lemma store_preserved_ret {A} (a : A) : store_preserved (ret a).
Proof. intros s r s' [= _ <-]. split; [done|]. exists []. by rewrite app_nil_r. Qed.

Lemma store_preserved_raise {A} (e : Exn) : store_preserved (@raise A e).
Proof. intros s r s' [= _ <-]. split; [done|]. exists []. by rewrite app_nil_r. Qed.

Lemma store_preserved_log ev : store_preserved (log ev).
Proof. intros s r s' [= _ <-]. simpl. eauto. Qed.

Lemma store_preserved_bind {A B} (c : M A) (k : A -> M B) :
  store_preserved c -> (forall a, store_preserved (k a)) ->
  store_preserved (bind c k).
Proof.
  intros Hc Hk s r s'. unfold bind.
  destruct (c s) as [[a|e] s1] eqn:Ec; intros H.
  - destruct (Hc _ _ _ Ec) as [Hh [evs1 Ht]].
    destruct (Hk a _ _ _ H) as [Hh' [evs2 Ht']].
    split; [congruence|]. exists (evs1 ++ evs2).
    by rewrite Ht', Ht, app_assoc.
  - injection H as <- <-. eauto.
Qed.

Lemma store_preserved_try_except {A} catches (c : M A) (h : Exn -> M A) :
  store_preserved c -> (forall e, store_preserved (h e)) ->
  store_preserved (try_except catches c h).
Proof.
  intros Hc Hh s r s'. unfold try_except.
  destruct (c s) as [[a|e] s1] eqn:Ec; intros H.
  - injection H as <- <-. eauto.
  - destruct (catches e).
    + destruct (Hc _ _ _ Ec) as [Hp [evs1 Ht]].
      destruct (Hh e _ _ _ H) as [Hp' [evs2 Ht']].
      split; [congruence|]. exists (evs1 ++ evs2).
      by rewrite Ht', Ht, app_assoc.
    + injection H as <- <-. eauto.
Qed.

Lemma store_preserved_for_each {A B} (f : B -> A -> M B) xs :
  (forall acc x, store_preserved (f acc x)) ->
  forall acc, store_preserved (for_each f xs acc).
Proof.
  intros Hf. induction xs as [|x xs IH]; intros acc; cbn [for_each].
  - apply store_preserved_ret.
  - apply store_preserved_bind; auto.
Qed.

Lemma store_preserved_local {A} name (v : option A) :
  store_preserved (local name v).
Proof.
  destruct v; [apply store_preserved_ret | apply store_preserved_raise].
Qed.

Create HintDb store.

#[local] Hint Resolve store_preserved_ret store_preserved_raise
  store_preserved_log store_preserved_local : store.

Section Frames.

Variable env : Env.

Lemma store_preserved_encrypt text addr :
  store_preserved (encrypt env text addr).
Proof. intros s r s'. rewrite encrypt_run. intros [= _ <-]. simpl. eauto. Qed.

Lemma store_preserved_call_handler h e :
  store_preserved (call_handler env h e).
Proof.
  intros s r s'. rewrite call_handler_run. intros [= _ <-]. simpl. eauto.
Qed.

Lemma store_preserved_unpack_attachment attachment :
  store_preserved (unpack_attachment env attachment).
Proof.
  destruct attachment as [path|f c mt]; simpl; [|auto with store].
  destruct (read_file env path); auto with store.
Qed.

Lemma store_preserved_encrypt_attachment address attachment use_asc :
  store_preserved (encrypt_attachment env address attachment use_asc).
Proof.
  unfold encrypt_attachment.
  apply store_preserved_bind; [apply store_preserved_unpack_attachment|].
  intros [[filename content] mimetype].
  case_bool_decide; [auto with store|].
  apply store_preserved_bind.
  - apply store_preserved_try_except.
    + apply store_preserved_bind; [apply store_preserved_encrypt|].
      auto with store.
    + intros e. apply store_preserved_bind;
        [apply store_preserved_call_handler | auto with store].
  - intros [filename' ec].
    apply store_preserved_bind; auto with store.
Qed.

Lemma store_preserved_encrypt_alternative address acc item :
  store_preserved (encrypt_alternative env address acc item).
Proof.
  destruct item as [alt mimetype]. unfold encrypt_alternative.
  case_bool_decide; [auto with store|].
  apply store_preserved_try_except.
  - apply store_preserved_bind; [apply store_preserved_encrypt|].
    auto with store.
  - intros e. apply store_preserved_bind;
      [apply store_preserved_call_handler | auto with store].
Qed.

End Frames.

(** ** The pass for one keyed address *)

Lemma set_body_same nm : set_body (body nm) nm = nm.
Proof. by destruct nm. Qed.

Section Passes.

Variable env : Env.

Lemma body_pass_spec new_msg nm a s s1 :
  heap s !! new_msg = Some nm ->
  try_except is_EncryptionFailedError
    (let* b := encrypt env (Text (body nm)) a in setattr new_msg (set_body b))
    (fun e => call_handler env MessageEncryption e) s = (Ok tt, s1) ->
  heap s1 = <[new_msg := set_body (body_after env (body nm) a) nm]> (heap s) /\
  exists evs, trace s1 = trace s ++ GpgEncrypt (Text (body nm)) a :: evs.
Proof.
  intros Hnm. unfold try_except, bind. rewrite encrypt_run.
  unfold body_after.
  destruct (encryption_failed _ _) eqn:Hfail; cbn [is_EncryptionFailedError].
  - rewrite call_handler_run.
    destruct (handle_failed_message_encryption env _); [discriminate|].
    intros [= <-]. cbn [heap trace]. split.
    + rewrite set_body_same. symmetry. by apply list_insert_id.
    + eexists. by rewrite <- app_assoc.
  - unfold setattr. cbn [heap trace]. rewrite Hnm.
    intros [= <-]. cbn [heap trace]. split; [done|]. by exists [].
Qed.

Lemma encrypt_for_address_spec msg new_msg u e a use_asc s m nm u' e' s' :
  heap s !! msg = Some m ->
  heap s !! new_msg = Some nm ->
  encrypt_for_address env msg new_msg (u, e) (a, use_asc) s
    = (Ok (u', e'), s') ->
  if do_not_encrypt_this_message m
  then u' = u ++ [new_msg] /\ e' = e /\ s' = s
  else u' = u /\ e' = e ++ [new_msg] /\
       exists nm' evs,
         heap s' = <[new_msg := nm']> (heap s) /\
         envelope nm' = envelope nm /\
         body nm' = body_after env (body nm) a /\
         trace s' = trace s ++ GpgEncrypt (Text (body nm)) a :: evs.
Proof.
  intros Hm Hnm. unfold encrypt_for_address.
  rewrite (bind_Ok _ _ _ _ _ (deref_run _ _ _ Hm)).
  destruct (do_not_encrypt_this_message m).
  { by intros [= <- <- <-]. }
  rewrite (bind_Ok _ _ _ _ _ (deref_run _ _ _ Hnm)).
  intros H.
  apply bind_Ok_inv in H as ([] & s1 & Hbody & H).
  apply (body_pass_spec _ _ _ _ _ Hnm) in Hbody as [Hh1 [evs1 Ht1]].
  assert (Hlen : new_msg < length (heap s)) by by eapply lookup_lt_Some.
  set (nm1 := set_body (body_after env (body nm) a) nm) in *.
  assert (Hnm1 : heap s1 !! new_msg = Some nm1).
  { rewrite Hh1. by apply list_lookup_insert_eq. }
  rewrite (bind_Ok _ _ _ _ _ (deref_run _ _ _ Hnm1)) in H.
  apply bind_Ok_inv in H as (alts & s2 & Halts & H).
  apply (store_preserved_for_each _ _
           (store_preserved_encrypt_alternative env a)) in Halts
    as [Hh2 [evs2 Ht2]].
  assert (Hnm2 : heap s2 !! new_msg = Some nm1) by by rewrite Hh2.
  rewrite (bind_Ok _ _ _ _ _ (setattr_run _ _ _ _ Hnm2)) in H.
  set (nm2 := set_alternatives alts nm1) in *.
  match type of H with bind _ _ ?st = _ => set (s3 := st) in * end.
  assert (Hnm3 : heap s3 !! new_msg = Some nm2).
  { subst s3. cbn [heap]. apply list_lookup_insert_eq. by rewrite Hh2, Hh1, length_insert. }
  rewrite (bind_Ok _ _ _ _ _ (deref_run _ _ _ Hnm3)) in H.
  apply bind_Ok_inv in H as (atts & s4 & Hatts & H).
  eapply store_preserved_for_each in Hatts as [Hh4 [evs4 Ht4]].
  2:{ intros acc x. apply store_preserved_bind;
        [apply store_preserved_encrypt_attachment | auto with store]. }
  assert (Hnm4 : heap s4 !! new_msg = Some nm2) by by rewrite Hh4.
  rewrite (bind_Ok _ _ _ _ _ (setattr_run _ _ _ _ Hnm4)) in H.
  injection H as <- <- <-.
  repeat split; try done.
  exists (set_attachments atts nm2), (evs1 ++ evs2 ++ evs4).
  cbn [heap trace]. repeat split.
  - rewrite Hh4. subst s3. cbn [heap]. rewrite Hh2, Hh1.
    by rewrite !list_insert_insert_eq.
  - rewrite Ht4. subst s3. cbn [trace]. rewrite Ht2, Ht1.
    by rewrite <- !app_assoc.
Qed.

End Passes.

(** ** The loop over the keyed addresses *)

Lemma count_occ_replicate (x y : nat) k :
  count_occ Nat.eq_dec (replicate k x) y = if decide (x = y) then k else 0.
Proof.
  induction k as [|k IH]; cbn [replicate count_occ].
  - by case_decide.
  - destruct (Nat.eq_dec x y); case_decide; try done; by rewrite IH.
Qed.

Section Loops.

Variable env : Env.

(** A flagged message: one append to the first list for each keyed
    address, and nothing else. *)
Lemma flagged_loop_run msg new_msg items u e s m :
  heap s !! msg = Some m ->
  do_not_encrypt_this_message m = true ->
  for_each (encrypt_for_address env msg new_msg) items (u, e) s =
  (Ok (u ++ replicate (length items) new_msg, e), s).
Proof.
  intros Hm Hflag. revert u.
  induction items as [|[a use_asc] items IH]; intros u; cbn [for_each].
  - unfold ret. by rewrite app_nil_r.
  - unfold encrypt_for_address at 1.
    unfold bind at 1. unfold bind at 1. rewrite (deref_run _ _ _ Hm), Hflag.
    unfold ret at 1. rewrite IH. cbn [length replicate].
    by rewrite <- app_assoc.
Qed.

Lemma keyed_loop_spec msg new_msg items :
  forall u e s m nm u' e' s',
  msg <> new_msg ->
  heap s !! msg = Some m ->
  heap s !! new_msg = Some nm ->
  do_not_encrypt_this_message m = false ->
  for_each (encrypt_for_address env msg new_msg) items (u, e) s
    = (Ok (u', e'), s') ->
  u' = u /\ e' = e ++ replicate (length items) new_msg /\
  exists nm' evs,
    heap s' = <[new_msg := nm']> (heap s) /\
    envelope nm' = envelope nm /\
    body nm' = fold_left (body_after env) items.*1 (body nm) /\
    trace s' = trace s ++ evs /\
    body_calls env (body nm) items.*1 `sublist_of` evs.
Proof.
  induction items as [|[a use_asc] items IH];
    intros u e s m nm u' e' s' Hne Hm Hnm Hflag; cbn [for_each].
  - intros [= <- <- <-]. rewrite app_nil_r. repeat split.
    exists nm, []. rewrite app_nil_r. repeat split; try done.
    symmetry. by apply list_insert_id.
  - intros H. apply bind_Ok_inv in H as ([u1 e1] & s1 & Hstep & H).
    pose proof (encrypt_for_address_spec env _ _ _ _ _ _ _ _ _ _ _ _
                  Hm Hnm Hstep) as Hs.
    rewrite Hflag in Hs.
    destruct Hs as (-> & -> & nm1 & evs1 & Hh1 & Henv1 & Hb1 & Ht1).
    assert (Hlen : new_msg < length (heap s)) by by eapply lookup_lt_Some.
    assert (Hm1 : heap s1 !! msg = Some m).
    { rewrite Hh1. by rewrite list_lookup_insert_ne. }
    assert (Hnm1 : heap s1 !! new_msg = Some nm1).
    { rewrite Hh1. by apply list_lookup_insert_eq. }
    destruct (IH _ _ _ _ _ _ _ _ Hne Hm1 Hnm1 Hflag H)
      as (-> & -> & nm' & evs' & Hh' & Henv' & Hb' & Ht' & Hsub).
    split; [done|]. split.
    { cbn [length replicate]. by rewrite <- app_assoc. }
    exists nm', (GpgEncrypt (Text (body nm)) a :: evs1 ++ evs').
    repeat split.
    + by rewrite Hh', Hh1, list_insert_insert_eq.
    + congruence.
    + cbn [fmap list_fmap fst fold_left]. by rewrite Hb', Hb1.
    + rewrite Ht', Ht1. by rewrite <- app_assoc.
    + cbn [fmap list_fmap fst body_calls]. apply sublist_skip.
      apply sublist_inserts_l. by rewrite <- Hb1.
Qed.

(** ** One message *)

Lemma copy_message_run msg s m :
  heap s !! msg = Some m ->
  copy_message msg s =
  (Ok (length (heap s)), mkState (heap s ++ [copy_of m]) (trace s)).
Proof.
  intros Hm. unfold copy_message.
  by rewrite (bind_Ok _ _ _ _ _ (deref_run _ _ _ Hm)).
Qed.

Lemma setattr_last hp m f t :
  setattr (length hp) f (mkState (hp ++ [m]) t) =
  (Ok tt, mkState (hp ++ [f m]) t).
Proof.
  unfold setattr. cbn [heap trace].
  rewrite lookup_app_r, Nat.sub_diag by done. cbn [lookup list_lookup].
  rewrite insert_app_r_alt, Nat.sub_diag by done. done.
Qed.

Lemma deref_last hp m t :
  deref (length hp) (mkState (hp ++ [m]) t) = (Ok m, mkState (hp ++ [m]) t).
Proof.
  unfold deref. cbn [heap].
  by rewrite lookup_app_r, Nat.sub_diag by done.
Qed.

Lemma encrypt_message_unfold u e msg s m :
  heap s !! msg = Some m ->
  encrypt_message env (u, e) msg s =
  for_each (encrypt_for_address env msg (S (length (heap s))))
    (key_addrs_of env (to m))
    (u ++ match keyless_to env m with
          | [] => []
          | _ :: _ => [length (heap s)]
          end, e)
    (mkState (heap s ++ [unencrypted_copy env m; keyed_copy env m])
             (trace s)).
Proof.
  intros Hm. unfold encrypt_message.
  rewrite (bind_Ok _ _ _ _ _ (deref_run _ _ _ Hm)).
  rewrite (bind_Ok _ _ _ _ _ (copy_message_run _ _ _ Hm)).
  rewrite (bind_Ok _ _ _ _ _ (setattr_last _ _ _ _)).
  rewrite (bind_Ok _ _ _ _ _ (deref_last _ _ _)).
  fold (keyless_to env m). fold (unencrypted_copy env m).
  erewrite bind_Ok; cycle 1.
  { apply copy_message_run. cbn [heap]. by apply lookup_app_l_Some. }
  cbn [heap trace].
  rewrite (bind_Ok _ _ _ _ _ (setattr_last _ _ _ _)).
  fold (keyed_to env m). fold (keyed_copy env m).
  rewrite length_app. cbn [length]. rewrite Nat.add_1_r.
  rewrite <- app_assoc. cbn [app].
  f_equal. f_equal.
  unfold unencrypted_copy. cbn [to set_to].
  destruct (keyless_to env m); [by rewrite app_nil_r | done].
Qed.

End Loops.

Section Batches.

Variable env : Env.

Lemma encrypt_message_Ok_valid lists msg s r s' :
  encrypt_message env lists msg s = (Ok r, s') ->
  exists m, heap s !! msg = Some m.
Proof.
  destruct lists as [u e]. unfold encrypt_message. intros H.
  apply bind_Ok_inv in H as (m & s1 & Hd & _).
  apply deref_Ok_inv in Hd as [Hm _]. eauto.
Qed.

Lemma lookup_second_last (hp : list Message) a b :
  (hp ++ [a; b]) !! S (length hp) = Some b.
Proof.
  rewrite lookup_app_r by lia.
  by replace (S (length hp) - length hp) with 1 by lia.
Qed.

Lemma insert_second_last (hp : list Message) a b c :
  <[S (length hp) := c]> (hp ++ [a; b]) = hp ++ [a; c].
Proof.
  rewrite insert_app_r_alt by lia.
  by replace (S (length hp) - length hp) with 1 by lia.
Qed.

Lemma encrypt_message_spec u e msg s u' e' s' :
  encrypt_message env (u, e) msg s = (Ok (u', e'), s') ->
  exists m nm evs,
    heap s !! msg = Some m /\
    heap s' = heap s ++ [unencrypted_copy env m; nm] /\
    u' = u ++ fst (message_contribution env m (length (heap s))) /\
    e' = e ++ snd (message_contribution env m (length (heap s))) /\
    trace s' = trace s ++ evs /\
    envelope nm = envelope (keyed_copy env m) /\
    (do_not_encrypt_this_message m = true ->
     nm = keyed_copy env m /\ evs = []) /\
    (do_not_encrypt_this_message m = false ->
     body nm = fold_left (body_after env) (keyed_to env m) (body m) /\
     body_calls env (body m) (keyed_to env m) `sublist_of` evs).
Proof.
  intros H.
  destruct (encrypt_message_Ok_valid _ _ _ _ _ H) as [m Hm].
  rewrite (encrypt_message_unfold env _ _ _ _ _ Hm) in H.
  assert (Hlt : msg < length (heap s)) by by eapply lookup_lt_Some.
  assert (Hk : length (keyed_to env m) = length (key_addrs_of env (to m))).
  { unfold keyed_to, dict_keys. by rewrite length_fmap. }
  destruct (do_not_encrypt_this_message m) eqn:Hflag.
  - erewrite flagged_loop_run in H; [| |exact Hflag]; cycle 1.
    { cbn [heap]. by apply lookup_app_l_Some. }
    injection H as <- <- <-. cbn [heap trace].
    exists m, (keyed_copy env m), [].
    unfold message_contribution. cbn [fst snd].
    rewrite Hflag, !app_nil_r, Hk, <- app_assoc.
    repeat split; try done.
  - assert (Hne : msg <> S (length (heap s))) by lia.
    apply (keyed_loop_spec env _ _ _ _ _ _ m (keyed_copy env m) _ _ _ Hne)
      in H; [|cbn [heap]; by apply lookup_app_l_Some
              |apply lookup_second_last|done].
    cbn [heap trace] in H.
    destruct H as (-> & -> & nm' & evs & Hh & Henv & Hb & Ht & Hsub).
    exists m, nm', evs.
    unfold message_contribution. cbn [fst snd].
    rewrite Hflag, Hh, insert_second_last, app_nil_r, Hk.
    repeat split; try done.
Qed.

Lemma StronglySorted_replicate k (x : nat) :
  StronglySorted le (replicate k x).
Proof.
  induction k as [|k IH]; cbn [replicate]; constructor; [done|].
  apply Forall_forall. intros y Hy. apply elem_of_replicate_inv in Hy. lia.
Qed.

(** Processing a batch is processing its messages one after the other. *)
Lemma for_each_app {A B} (f : B -> A -> M B) xs ys acc s :
  for_each f (xs ++ ys) acc s =
  bind (for_each f xs acc) (fun acc' => for_each f ys acc') s.
Proof.
  revert acc s. induction xs as [|x xs IH]; intros acc s; cbn [app for_each].
  - done.
  - unfold bind. destruct (f acc x s) as [[acc1|e1] s1]; [|done].
    specialize (IH acc1 s1). unfold bind in IH. exact IH.
Qed.

Lemma encrypt_batch_spec batch :
  forall u e s u' e' s',
  for_each (encrypt_message env) batch (u, e) s = (Ok (u', e'), s') ->
  exists cu ce evs added,
    u' = u ++ cu /\ e' = e ++ ce /\
    trace s' = trace s ++ evs /\
    heap s' = heap s ++ added /\ length added = 2 * length batch /\
    Forall (fun x => length (heap s) <= x < length (heap s) + 2 * length batch)
           (cu ++ ce) /\
    StronglySorted le cu /\ StronglySorted le ce /\
    forall i l m,
      batch !! i = Some l -> heap s !! l = Some m ->
      derived_copies env m (unencrypted_ref (length (heap s)) i)
        (keyed_ref (length (heap s)) i) (heap s') cu ce evs.
Proof.
  induction batch as [|msg batch IH]; intros u e s u' e' s'; cbn [for_each].
  - intros [= <- <- <-]. exists [], [], [], [].
    rewrite !app_nil_r. repeat split; try done; try constructor.
  - intros H. apply bind_Ok_inv in H as ([u1 e1] & s1 & Hstep & H).
    apply encrypt_message_spec in Hstep
      as (m0 & nm0 & evs0 & Hm0 & Hh1 & -> & -> & Ht1 & Henv0 & Hf0 & Hu0).
    apply IH in H
      as (cu & ce & evs & added & -> & -> & Ht & Hh & Hlen
          & Hrange & Hsu & Hse & Hall).
    set (n0 := length (heap s)) in *.
    set (c0 := message_contribution env m0 n0) in *.
    assert (Hn1 : length (heap s1) = n0 + 2).
    { rewrite Hh1, length_app. cbn [length]. lia. }
    assert (Hc0u : forall x, x ∈ fst c0 -> x = n0 \/ x = S n0).
    { subst c0. unfold message_contribution. cbn [fst]. intros x.
      rewrite elem_of_app. intros [Hx|Hx].
      - destruct (keyless_to env m0); [by apply elem_of_nil in Hx|].
        apply list_elem_of_singleton in Hx. auto.
      - destruct (do_not_encrypt_this_message m0);
          [|by apply elem_of_nil in Hx].
        apply elem_of_replicate in Hx as [-> _]. auto. }
    assert (Hc0e : forall x, x ∈ snd c0 -> x = S n0).
    { subst c0. unfold message_contribution. cbn [snd]. intros x Hx.
      destruct (do_not_encrypt_this_message m0);
        [by apply elem_of_nil in Hx|].
      by apply elem_of_replicate in Hx as [-> _]. }
    rewrite Forall_app, !Forall_forall in Hrange.
    destruct Hrange as [Hru Hre]. rewrite Hn1 in Hru, Hre.
    exists (fst c0 ++ cu), (snd c0 ++ ce), (evs0 ++ evs),
           ([unencrypted_copy env m0; nm0] ++ added).
    split; [by rewrite app_assoc|]. split; [by rewrite app_assoc|].
    split; [by rewrite Ht, Ht1, app_assoc|].
    split; [by rewrite Hh, Hh1, <- app_assoc|].
    split; [rewrite length_app; cbn [length]; lia|].
    split.
    { rewrite !Forall_app, !Forall_forall. cbn [length].
      split; split; intros y Hx.
      - apply Hc0u in Hx. lia.
      - apply Hru in Hx. lia.
      - apply Hc0e in Hx. lia.
      - apply Hre in Hx. lia. }
    split.
    { apply StronglySorted_app_2; [| |done].
      - intros x1 x2 Hx1 Hx2. apply Hc0u in Hx1. apply Hru in Hx2. lia.
      - subst c0. unfold message_contribution. cbn [fst].
        apply StronglySorted_app_2.
        + intros x1 x2 Hx1 Hx2.
          destruct (keyless_to env m0); [by apply elem_of_nil in Hx1|].
          apply list_elem_of_singleton in Hx1.
          destruct (do_not_encrypt_this_message m0);
            [|by apply elem_of_nil in Hx2].
          apply elem_of_replicate in Hx2 as [-> _]. lia.
        + destruct (keyless_to env m0); repeat constructor.
        + destruct (do_not_encrypt_this_message m0); [|constructor].
          apply StronglySorted_replicate. }
    split.
    { apply StronglySorted_app_2; [| |done].
      - intros x1 x2 Hx1 Hx2. apply Hc0e in Hx1. apply Hre in Hx2. lia.
      - subst c0. unfold message_contribution. cbn [snd].
        destruct (do_not_encrypt_this_message m0); [constructor|].
        apply StronglySorted_replicate. }
    intros i l m Hi Hl.
    assert (Hcu : forall x, x < n0 + 2 -> count_occ Nat.eq_dec cu x = 0).
    { intros x Hx. apply count_occ_not_In. rewrite <- list_elem_of_In.
      intros Hin. apply Hru in Hin. lia. }
    assert (Hce : forall x, x < n0 + 2 -> count_occ Nat.eq_dec ce x = 0).
    { intros x Hx. apply count_occ_not_In. rewrite <- list_elem_of_In.
      intros Hin. apply Hre in Hin. lia. }
    destruct i as [|i]; cbn [lookup list_lookup] in Hi.
    + injection Hi as ->. assert (m = m0) as -> by congruence.
      unfold derived_copies, unencrypted_ref, keyed_ref.
      replace (n0 + 2 * 0) with n0 by lia.
      replace (n0 + 1) with (S n0) by lia.
      rewrite !count_occ_app, !Hcu, !Hce by lia.
      subst c0. unfold message_contribution. cbn [fst snd].
      rewrite !count_occ_app, Hh, Hh1.
      split.
      { apply lookup_app_l_Some. rewrite lookup_app_r by done.
        by rewrite Nat.sub_diag. }
      split.
      { destruct (do_not_encrypt_this_message m0).
        - rewrite count_occ_replicate.
          rewrite decide_False by lia.
          destruct (keyless_to env m0); cbn [count_occ]; [done|].
          destruct (Nat.eq_dec n0 n0); [done|lia].
        - destruct (keyless_to env m0); cbn [count_occ]; [done|].
          destruct (Nat.eq_dec n0 n0); [done|lia]. }
      split.
      { destruct (do_not_encrypt_this_message m0); [done|].
        rewrite count_occ_replicate. by rewrite decide_False by lia. }
      split.
      { assert (Hkl : forall kl : list string,
                  count_occ Nat.eq_dec
                    match kl with [] => [] | _ :: _ => [n0] end (S n0) = 0).
        { intros [|? ?]; cbn [count_occ]; [done|].
          destruct (Nat.eq_dec n0 (S n0)); [lia|done]. }
        rewrite Hkl.
        destruct (do_not_encrypt_this_message m0); [|done].
        rewrite count_occ_replicate. rewrite decide_True by done. lia. }
      split.
      { destruct (do_not_encrypt_this_message m0); [done|].
        rewrite count_occ_replicate. rewrite decide_True by done. lia. }
      exists nm0. split.
      { apply lookup_app_l_Some. apply lookup_second_last. }
      split; [done|]. split.
      { intros Hf. by destruct (Hf0 Hf). }
      intros Hf. destruct (Hu0 Hf) as [Hb Hsub]. split; [done|].
      by apply sublist_inserts_r.
    + assert (Hl1 : heap s1 !! l = Some m).
      { rewrite Hh1. by apply lookup_app_l_Some. }
      specialize (Hall i l m Hi Hl1).
      clear IH.
      unfold derived_copies, unencrypted_ref, keyed_ref in Hall |- *.
      rewrite Hn1 in Hall.
      replace (n0 + 2 * S i) with (n0 + 2 + 2 * i) by lia.
      destruct Hall as (H1 & H2 & H3 & H4 & H5 & nm & H6 & H7 & H8 & H9).
      assert (Hz : forall x c, n0 + 2 <= x ->
                  (x ∈ c -> x = n0 \/ x = S n0) ->
                  count_occ Nat.eq_dec c x = 0).
      { intros x c Hx Hc. apply count_occ_not_In.
        rewrite <- list_elem_of_In. intros Hin. apply Hc in Hin. lia. }
      rewrite !count_occ_app.
      rewrite !(Hz _ (fst c0)), !(Hz _ (snd c0)); try lia; auto.
      cbn [Nat.add].
      repeat (split; [done|]).
      exists nm. repeat (split; [done|]).
      intros Hf. destruct (H9 Hf). split; [done|].
      by apply sublist_inserts_l.
Qed.

End Batches.

(** ** Keyed and keyless recipients *)

Lemma dict_set_keys {V} (d : list (string * V)) k v a :
  a ∈ (dict_set d k v).*1 <-> a = k \/ a ∈ d.*1.
Proof.
  induction d as [|[k' v'] d IH]; cbn [dict_set].
  - cbn. rewrite list_elem_of_singleton. rewrite elem_of_nil. tauto.
  - case_decide as Hk; cbn [fmap list_fmap fst].
    + subst k'. rewrite !elem_of_cons. tauto.
    + rewrite !elem_of_cons.
      change (list_fmap _ _ fst (dict_set d k v)) with (dict_set d k v).*1.
      rewrite IH. change (list_fmap _ _ fst d) with d.*1. tauto.
Qed.

Lemma dict_set_NoDup {V} (d : list (string * V)) k v :
  NoDup d.*1 -> NoDup (dict_set d k v).*1.
Proof.
  induction d as [|[k' v'] d IH]; cbn [dict_set]; intros Hnd.
  - cbn. apply NoDup_singleton.
  - case_decide as Hk; [done|].
    cbn [fmap list_fmap fst] in *.
    apply NoDup_cons in Hnd as [Hnotin Hnd].
    apply NoDup_cons. split; [|by apply IH].
    change (list_fmap _ _ fst (dict_set d k v)) with (dict_set d k v).*1.
    rewrite dict_set_keys. intros [->|Hin]; [done|].
    by apply Hnotin.
Qed.

Lemma dict_keys_spec {V} (pairs : list (string * V)) :
  NoDup (dict_keys (dict pairs)) /\
  forall a, a ∈ dict_keys (dict pairs) <-> a ∈ pairs.*1.
Proof.
  unfold dict, dict_keys.
  assert (Hgen : forall d0 : list (string * V),
    NoDup d0.*1 ->
    NoDup (fold_left (fun d kv => dict_set d kv.1 kv.2) pairs d0).*1 /\
    forall a,
      a ∈ (fold_left (fun d kv => dict_set d kv.1 kv.2) pairs d0).*1 <->
      a ∈ d0.*1 \/ a ∈ pairs.*1).
  { induction pairs as [|[k v] pairs IH]; intros d0 Hnd; cbn [fold_left].
    - split; [done|]. intros a. cbn. rewrite elem_of_nil. tauto.
    - destruct (IH (dict_set d0 k v) (dict_set_NoDup _ _ _ Hnd)) as [Hn Hi].
      split; [done|]. intros a. rewrite Hi, dict_set_keys.
      cbn [fmap list_fmap fst]. rewrite elem_of_cons. tauto. }
  destruct (Hgen [] (NoDup_nil_2)) as [Hn Hi]. split; [done|].
  intros a. rewrite Hi. cbn. rewrite elem_of_nil. tauto.
Qed.

Section Recipients.

Variable env : Env.

Lemma keyed_to_NoDup m : NoDup (keyed_to env m).
Proof. apply dict_keys_spec. Qed.

Lemma keyed_to_spec m a :
  a ∈ keyed_to env m <-> a ∈ to m /\ has_key env a.
Proof.
  unfold keyed_to, key_addrs_of, has_key.
  rewrite (proj2 (dict_keys_spec _)).
  rewrite !list_elem_of_fmap. split.
  - intros ([k v] & -> & Hin). apply list_elem_of_filter in Hin as [Hto Hin].
    split; [done|]. by exists (k, v).
  - intros (Hto & [k v] & -> & Hin). exists (k, v). split; [done|].
    by apply list_elem_of_filter.
Qed.

Lemma keyless_to_spec m :
  keyless_to env m = filter (fun a => ~ has_key env a) (to m).
Proof.
  unfold keyless_to. fold (keyed_to env m).
  assert (Hgen : forall l : list string,
    (forall a, a ∈ l -> a ∈ to m) ->
    filter (fun a => a ∉ keyed_to env m) l
    = filter (fun a => ~ has_key env a) l).
  { induction l as [|a l IH]; intros Hsub; [done|].
    rewrite !filter_cons.
    rewrite IH by (intros b Hb; apply Hsub; by right).
    assert (Ha : a ∈ to m) by (apply Hsub; by left).
    pose proof (keyed_to_spec m a) as Hspec.
    repeat case_decide; try done; tauto. }
  by apply Hgen.
Qed.

Lemma keyless_to_elem m a :
  a ∈ keyless_to env m <-> a ∈ to m /\ ~ has_key env a.
Proof.
  rewrite keyless_to_spec, list_elem_of_filter. tauto.
Qed.

(** Every recipient is in one of the two lists and none is in both. *)
Lemma recipients_partition m :
  (forall a, a ∈ to m <-> a ∈ keyless_to env m \/ a ∈ keyed_to env m) /\
  (forall a, ~ (a ∈ keyless_to env m /\ a ∈ keyed_to env m)).
Proof.
  split; intros a; rewrite keyless_to_elem, keyed_to_spec.
  - destruct (decide (has_key env a)); tauto.
  - tauto.
Qed.

Lemma all_keyed_keyless_nil m :
  (forall a, a ∈ to m -> has_key env a) -> keyless_to env m = [].
Proof.
  intros Hall. destruct (keyless_to env m) as [|a l] eqn:E; [done|].
  assert (Ha : a ∈ keyless_to env m) by (rewrite E; by left).
  apply keyless_to_elem in Ha as [Hto Hno]. by apply Hall in Hto.
Qed.

Lemma to_of_envelope nm m :
  envelope nm = envelope (keyed_copy env m) -> to nm = keyed_to env m.
Proof. unfold envelope. by intros [= -> _]. Qed.

Lemma encrypt_messages_Ok_inv batch s out s' :
  encrypt_messages env batch s = (Ok out, s') ->
  exists U E, encrypt_loop env batch s = (Ok (U, E), s') /\ out = U ++ E.
Proof.
  unfold encrypt_messages. intros H.
  apply bind_Ok_inv in H as ([U E] & s1 & Hloop & H).
  injection H as <- <-. eauto.
Qed.

End Recipients.

(** ** The output of [encrypt_messages] *)

Lemma count_occ_pos_elem (l : list nat) x :
  0 < count_occ Nat.eq_dec l x -> x ∈ l.
Proof. rewrite list_elem_of_In. apply count_occ_In. Qed.

Lemma count_occ_zero_elem (l : list nat) x :
  count_occ Nat.eq_dec l x = 0 -> x ∉ l.
Proof. rewrite list_elem_of_In. apply count_occ_not_In. Qed.

Section Output.

Variable env : Env.

(** The facts on one message of a batch, from a run that returns. *)
Lemma encrypt_loop_message batch s U E s' i l m :
  encrypt_loop env batch s = (Ok (U, E), s') ->
  batch !! i = Some l -> heap s !! l = Some m ->
  exists evs,
    trace s' = trace s ++ evs /\
    derived_copies env m (unencrypted_ref (length (heap s)) i)
      (keyed_ref (length (heap s)) i) (heap s') U E evs.
Proof.
  unfold encrypt_loop. intros H Hi Hl.
  apply encrypt_batch_spec in H
    as (cu & ce & evs & added & -> & -> & Ht & _ & _ & _ & _ & _ & Hall).
  exists evs. split; [done|]. cbn [app]. by apply (Hall i l m).
Qed.

(** C1, amended. For a message of the batch without the suppression flag
    whose recipients are all keyed, and there is at least one, a run of
    [encrypt_messages] that returns has put no unencrypted copy of it in
    its output: the copy for the keyless recipients is nowhere in the
    batch and the other copy is not in the unencrypted part.  That other
    copy, a single object, is in the encrypted part, and its [to] is the
    keyed set: without repetition, the addresses of the message's [to].
    How many times the output lists that object is not part of the
    statement. *)
Theorem fully_keyed_message_single_encrypted_object
    batch s out s' i l m :
  encrypt_messages env batch s = (Ok out, s') ->
  batch !! i = Some l -> heap s !! l = Some m ->
  do_not_encrypt_this_message m = false ->
  to m <> [] ->
  (forall a, a ∈ to m -> has_key env a) ->
  exists U E nm,
    encrypt_loop env batch s = (Ok (U, E), s') /\ out = U ++ E /\
    (unencrypted_ref (length (heap s)) i ∉ out) /\
    (keyed_ref (length (heap s)) i ∉ U) /\
    keyed_ref (length (heap s)) i ∈ E /\
    heap s' !! keyed_ref (length (heap s)) i = Some nm /\
    to nm = keyed_to env m /\
    NoDup (to nm) /\
    (forall a, a ∈ to nm <-> a ∈ to m).
Proof.
  intros Hrun Hi Hl Hflag Hne Hall.
  apply encrypt_messages_Ok_inv in Hrun as (U & E & Hloop & ->).
  destruct (encrypt_loop_message _ _ _ _ _ _ _ _ Hloop Hi Hl)
    as (evs & _ & _ & Hcu & Hce & Hnu & Hne' & nm & Hnm & Henv & _).
  rewrite Hflag in Hnu, Hne'.
  rewrite (all_keyed_keyless_nil env m Hall) in Hcu.
  apply to_of_envelope in Henv.
  exists U, E, nm. split; [done|]. split; [done|].
  split.
  { rewrite elem_of_app. intros [Hin|Hin].
    - by apply count_occ_zero_elem in Hcu.
    - by apply count_occ_zero_elem in Hce. }
  split; [by apply count_occ_zero_elem|].
  split.
  { apply count_occ_pos_elem. rewrite Hne'.
    destruct (to m) as [|a rest] eqn:Eto; [done|].
    assert (Ha : a ∈ keyed_to env m).
    { apply keyed_to_spec. rewrite Eto. split; [by left|].
      apply Hall. by left. }
    destruct (keyed_to env m); [by apply elem_of_nil in Ha|]. cbn. lia. }
  split; [done|]. split; [done|].
  split; [rewrite Henv; apply keyed_to_NoDup|].
  intros a. rewrite Henv, keyed_to_spec. split; [tauto|]. auto.
Qed.

(** C3, amended. For a message of the batch without the suppression flag
    whose [to] mixes keyless and keyed addresses, a run of
    [encrypt_messages] that returns has put in its output both an
    unencrypted copy, an unchanged copy of the message but for its [to],
    which holds the keyless addresses in their original order, and an
    encrypted copy whose [to] holds keyed addresses of the message only.
    Every address of the original [to] is in one of the two lists and none
    is in both; when the original has no repeated address, the two lists
    together are a permutation of it. *)
Theorem mixed_message_split_in_two_copies
    batch s out s' i l m :
  encrypt_messages env batch s = (Ok out, s') ->
  batch !! i = Some l -> heap s !! l = Some m ->
  do_not_encrypt_this_message m = false ->
  (exists a, a ∈ to m /\ ~ has_key env a) ->
  (exists a, a ∈ to m /\ has_key env a) ->
  exists U E um nm,
    encrypt_loop env batch s = (Ok (U, E), s') /\ out = U ++ E /\
    unencrypted_ref (length (heap s)) i ∈ U /\
    (unencrypted_ref (length (heap s)) i ∉ E) /\
    keyed_ref (length (heap s)) i ∈ E /\
    (keyed_ref (length (heap s)) i ∉ U) /\
    heap s' !! unencrypted_ref (length (heap s)) i = Some um /\
    heap s' !! keyed_ref (length (heap s)) i = Some nm /\
    um = set_to (to um) (copy_of m) /\
    to um = filter (fun a => ~ has_key env a) (to m) /\
    (forall a, a ∈ to nm -> a ∈ to m /\ has_key env a) /\
    (forall a, a ∈ to m <-> a ∈ to um \/ a ∈ to nm) /\
    (forall a, ~ (a ∈ to um /\ a ∈ to nm)) /\
    (NoDup (to m) -> to um ++ to nm ≡ₚ to m).
Proof.
  intros Hrun Hi Hl Hflag (a1 & Ha1 & Hk1) (a2 & Ha2 & Hk2).
  apply encrypt_messages_Ok_inv in Hrun as (U & E & Hloop & ->).
  destruct (encrypt_loop_message _ _ _ _ _ _ _ _ Hloop Hi Hl)
    as (evs & _ & Hum & Hcu & Hce & Hnu & Hne' & nm & Hnm & Henv & _).
  rewrite Hflag in Hnu, Hne'.
  apply to_of_envelope in Henv.
  assert (Hless : a1 ∈ keyless_to env m) by by apply keyless_to_elem.
  assert (Hkeyed : a2 ∈ keyed_to env m) by by apply keyed_to_spec.
  destruct (recipients_partition env m) as [Hcover Hdisj].
  exists U, E, (unencrypted_copy env m), nm.
  assert (Hto : to (unencrypted_copy env m) = keyless_to env m) by done.
  rewrite Hto, Henv.
  split; [done|]. split; [done|].
  split.
  { apply count_occ_pos_elem. rewrite Hcu.
    destruct (keyless_to env m); [by apply elem_of_nil in Hless|lia]. }
  split; [by apply count_occ_zero_elem|].
  split.
  { apply count_occ_pos_elem. rewrite Hne'.
    destruct (keyed_to env m); [by apply elem_of_nil in Hkeyed|cbn; lia]. }
  split; [by apply count_occ_zero_elem|].
  split; [done|]. split; [done|]. split; [done|].
  split; [apply keyless_to_spec|].
  split; [intros a; by rewrite keyed_to_spec|].
  split; [done|]. split; [done|].
  intros Hnd. apply NoDup_Permutation; [|done|].
  - apply NoDup_app. split; [|split].
    + rewrite keyless_to_spec. by apply NoDup_filter.
    + intros a Hu Hk. by apply (Hdisj a).
    + apply keyed_to_NoDup.
  - intros a. rewrite elem_of_app. by rewrite Hcover.
Qed.

(** The [j]-th call on the body is made on what the passes for the
    addresses before it left there. *)
Lemma body_calls_lookup addrs : forall b j,
  body_calls env b addrs !! j =
  (fun a =>
     GpgEncrypt (Text (fold_left (body_after env) (take j addrs) b)) a)
    <$> addrs !! j.
Proof.
  induction addrs as [|a addrs IH]; intros b j; [by destruct j|].
  destruct j as [|j]; [done|]. cbn. apply IH.
Qed.

(** C8. A message that carries the suppression flag and has a keyed
    recipient, wherever it stands in the batch: once the messages before
    it are done, processing it always returns; it adds the copy for the
    keyed recipients to the unencrypted list, and nothing to the encrypted
    list; it calls neither the engine nor a handler; and both copies keep
    the body, the alternatives and the attachments of the message.  The
    run goes on with the messages after it, and when it returns that copy
    is in the unencrypted part of the output, not in the encrypted part,
    and still as it was made. *)
Theorem suppressed_message_routed_unencrypted
    before after msg s lists1 s1 m :
  for_each (encrypt_message env) before ([], []) s = (Ok lists1, s1) ->
  heap s !! msg = Some m ->
  do_not_encrypt_this_message m = true ->
  (exists a, a ∈ to m /\ has_key env a) ->
  let lu := unencrypted_ref (length (heap s)) (length before) in
  let ln := keyed_ref (length (heap s)) (length before) in
  exists lists2 s2,
    encrypt_message env lists1 msg s1 = (Ok lists2, s2) /\
    encrypt_loop env (before ++ msg :: after) s =
      for_each (encrypt_message env) after lists2 s2 /\
    trace s2 = trace s1 /\
    heap s2 = heap s1 ++ [unencrypted_copy env m; keyed_copy env m] /\
    length (heap s1) = lu /\
    fst lists2 =
      fst lists1 ++ match keyless_to env m with [] => [] | _ :: _ => [lu] end
                 ++ replicate (length (keyed_to env m)) ln /\
    ln ∈ fst lists2 /\
    snd lists2 = snd lists1 /\
    body (keyed_copy env m) = body m /\
    alternatives (keyed_copy env m) = alternatives m /\
    attachments (keyed_copy env m) = attachments m /\
    forall U E s',
      encrypt_loop env (before ++ msg :: after) s = (Ok (U, E), s') ->
      ln ∈ U /\ (ln ∉ E) /\ heap s' !! ln = Some (keyed_copy env m).
Proof.
  intros Hbefore Hm Hflag (a & Hto & Hkey) lu ln.
  destruct lists1 as [u1 e1].
  pose proof (encrypt_batch_spec env _ _ _ _ _ _ _ Hbefore)
    as (cu & ce & evs & added & _ & _ & _ & Hh1 & Hlen1 & _).
  assert (Hm1 : heap s1 !! msg = Some m).
  { rewrite Hh1. by apply lookup_app_l_Some. }
  assert (Hn1 : length (heap s1) = lu).
  { rewrite Hh1, length_app, Hlen1. done. }
  assert (Hna : S (length (heap s1)) = ln).
  { rewrite Hn1. unfold lu, ln, unencrypted_ref, keyed_ref. lia. }
  assert (Hk : length (keyed_to env m) = length (key_addrs_of env (to m))).
  { unfold keyed_to, dict_keys. by rewrite length_fmap. }
  assert (Hkeyed : a ∈ keyed_to env m) by by apply keyed_to_spec.
  pose proof (encrypt_message_unfold env u1 e1 _ _ _ Hm1) as Hstep.
  erewrite flagged_loop_run in Hstep; [| |exact Hflag]; cycle 1.
  { cbn [heap]. by apply lookup_app_l_Some. }
  rewrite <- Hk, Hna, Hn1, <- app_assoc in Hstep.
  eexists _, _. split; [exact Hstep|]. cbn [fst snd heap trace].
  split.
  { unfold encrypt_loop. rewrite for_each_app.
    rewrite (bind_Ok _ _ _ _ _ Hbefore). cbn [for_each].
    by rewrite (bind_Ok _ _ _ _ _ Hstep). }
  repeat (split; [done|]).
  split.
  { rewrite !elem_of_app. right. right. apply elem_of_replicate.
    split; [done|]. destruct (keyed_to env m); [|done].
    by apply elem_of_nil in Hkeyed. }
  repeat (split; [done|]).
  intros U E s' Hloop.
  assert (Hi : (before ++ msg :: after) !! length before = Some msg).
  { by rewrite list_lookup_middle. }
  destruct (encrypt_loop_message _ _ _ _ _ _ _ _ Hloop Hi Hm)
    as (evs' & _ & _ & _ & _ & Hnu & Hne & nm & Hnm & _ & Hsame & _).
  fold ln in Hnu, Hne, Hnm. rewrite Hflag in Hnu, Hne.
  split.
  { apply count_occ_pos_elem. rewrite Hnu.
    destruct (keyed_to env m); [by apply elem_of_nil in Hkeyed|cbn; lia]. }
  split; [by apply count_occ_zero_elem|].
  by rewrite <- (Hsame Hflag).
Qed.

(** C10. For a batch of references into the store, the list that
    [encrypt_messages] returns is the list of the copies routed
    unencrypted followed by the list of the copies routed encrypted.
    Either part is in the order of creation of the copies, which is the
    order of the messages in the batch.  The first part holds only copies
    that the engine never saw: the copy for the keyless recipients of a
    message, or the copy for the keyed recipients of a flagged message.
    The second part holds only copies for the keyed recipients of
    messages that are not flagged. *)
Theorem unencrypted_copies_precede_encrypted batch s out s' :
  encrypt_messages env batch s = (Ok out, s') ->
  Forall (fun l => is_Some (heap s !! l)) batch ->
  exists U E,
    encrypt_loop env batch s = (Ok (U, E), s') /\ out = U ++ E /\
    StronglySorted le U /\ StronglySorted le E /\
    (forall x, x ∈ U ->
       exists i l m,
         batch !! i = Some l /\ heap s !! l = Some m /\
         ((x = unencrypted_ref (length (heap s)) i /\
           heap s' !! x = Some (unencrypted_copy env m)) \/
          (x = keyed_ref (length (heap s)) i /\
           do_not_encrypt_this_message m = true /\
           heap s' !! x = Some (keyed_copy env m)))) /\
    (forall x, x ∈ E ->
       exists i l m,
         batch !! i = Some l /\ heap s !! l = Some m /\
         x = keyed_ref (length (heap s)) i /\
         do_not_encrypt_this_message m = false).
Proof.
  intros Hrun Hvalid.
  apply encrypt_messages_Ok_inv in Hrun as (U & E & Hloop & ->).
  exists U, E. split; [done|]. split; [done|].
  pose proof Hloop as Hspec. unfold encrypt_loop in Hspec.
  apply encrypt_batch_spec in Hspec
    as (cu & ce & evs & added & -> & -> & _ & _ & _ & Hrange & Hsu & Hse
        & Hall).
  cbn [app] in *. split; [done|]. split; [done|].
  rewrite Forall_app, !Forall_forall in Hrange.
  destruct Hrange as [Hru Hre].
  rewrite Forall_forall in Hvalid.
  set (n0 := length (heap s)) in *.
  assert (Hfind : forall x, n0 <= x < n0 + 2 * length batch ->
    exists i l m, batch !! i = Some l /\ heap s !! l = Some m /\
      (x = unencrypted_ref n0 i \/ x = keyed_ref n0 i)).
  { intros x Hx.
    destruct (lookup_lt_is_Some_2 batch ((x - n0) / 2)) as [l Hl].
    { apply Nat.Div0.div_lt_upper_bound. lia. }
    destruct (Hvalid l) as [m Hm]; [by eapply list_elem_of_lookup_2|].
    exists ((x - n0) / 2), l, m. split; [done|]. split; [done|].
    unfold unencrypted_ref, keyed_ref.
    pose proof (Nat.div_mod_eq (x - n0) 2) as Hdm.
    pose proof (Nat.mod_upper_bound (x - n0) 2). lia. }
  split.
  - intros x Hx. destruct (Hfind x (Hru x Hx)) as (i & l & m & Hi & Hm & Hor).
    exists i, l, m. split; [done|]. split; [done|].
    destruct (Hall i l m Hi Hm)
      as (Hum & _ & _ & Hnu & _ & nm & Hnm & _ & Hsame & _).
    destruct Hor as [->| ->]; [by left|right].
    destruct (do_not_encrypt_this_message m) eqn:Hflag.
    + split; [done|]. split; [done|]. by rewrite <- (Hsame eq_refl).
    + by apply count_occ_zero_elem in Hnu.
  - intros x Hx. destruct (Hfind x (Hre x Hx)) as (i & l & m & Hi & Hm & Hor).
    exists i, l, m. split; [done|]. split; [done|].
    destruct (Hall i l m Hi Hm) as (_ & _ & Hue & _ & Hne & _).
    destruct Hor as [->| ->].
    + by apply count_occ_zero_elem in Hue.
    + split; [done|].
      destruct (do_not_encrypt_this_message m); [|done].
      by apply count_occ_zero_elem in Hne.
Qed.

End Output.

(** ** Runs that return *)

Lemma returns_ret {A} (a : A) (P : A -> Prop) : P a -> returns (ret a) P.
Proof. intros HP s. by exists a, s. Qed.

Lemma returns_bind {A B} (c : M A) (k : A -> M B) P Q :
  returns c P -> (forall a, P a -> returns (k a) Q) -> returns (bind c k) Q.
Proof.
  intros Hc Hk s. destruct (Hc s) as (a & s1 & Hrun & Hh & HP).
  destruct (Hk a HP s1) as (b & s2 & Hrun' & Hh' & HQ).
  exists b, s2. rewrite (bind_Ok _ _ _ _ _ Hrun). split; [done|].
  split; [congruence|done].
Qed.

Lemma returns_for_each {A B} (f : B -> A -> M B) (Inv : B -> Prop)
    (Good : A -> Prop) xs :
  (forall acc x, Inv acc -> Good x -> returns (f acc x) Inv) ->
  Forall Good xs ->
  forall acc, Inv acc -> returns (for_each f xs acc) Inv.
Proof.
  intros Hf Hxs. induction Hxs as [|x xs Hx _ IH]; intros acc Hacc;
    cbn [for_each].
  - by apply returns_ret.
  - eapply returns_bind; [by apply Hf|]. intros acc' Hacc'. by apply IH.
Qed.

Section Returning.

Variable env : Env.
Hypothesis Hengine : engine_reliable env.

Lemma returns_encrypt text addr :
  returns (encrypt env text addr) (fun _ => True).
Proof.
  intros s. rewrite encrypt_run, Hengine. by eexists _, _.
Qed.

Lemma returns_encrypt_alternative address acc item :
  returns (encrypt_alternative env address acc item) (fun _ => True).
Proof.
  destruct item as [alt mimetype]. unfold encrypt_alternative.
  case_bool_decide; [by apply returns_ret|].
  intros s. unfold try_except, bind. rewrite encrypt_run, Hengine.
  by eexists _, _.
Qed.

Lemma returns_encrypt_attachment address attachment use_asc :
  readable env attachment ->
  returns (encrypt_attachment env address attachment use_asc) (readable env).
Proof.
  intros Hr s. unfold encrypt_attachment.
  destruct attachment as [path|filename content mimetype];
    cbn [unpack_attachment].
  - destruct Hr as [content Hread]. rewrite Hread.
    unfold bind, ret, try_except. cbn [bool_decide decide_rel].
    rewrite bool_decide_eq_false_2 by done.
    rewrite encrypt_run, Hengine. cbn [local ret].
    by eexists _, _.
  - unfold bind at 1. unfold ret at 1.
    case_bool_decide; [by eexists _, _|].
    unfold bind, ret, try_except.
    rewrite encrypt_run, Hengine. cbn [local ret].
    by eexists _, _.
Qed.

Lemma encrypt_for_address_returns msg new_msg u e item s m nm :
  msg <> new_msg ->
  heap s !! msg = Some m ->
  heap s !! new_msg = Some nm ->
  Forall (readable env) (attachments nm) ->
  exists lists s' nm',
    encrypt_for_address env msg new_msg (u, e) item s = (Ok lists, s') /\
    heap s' = <[new_msg := nm']> (heap s) /\
    Forall (readable env) (attachments nm').
Proof.
  intros Hne Hm Hnm Hatts. destruct item as [a use_asc].
  unfold encrypt_for_address.
  rewrite (bind_Ok _ _ _ _ _ (deref_run _ _ _ Hm)).
  destruct (do_not_encrypt_this_message m).
  { exists (u ++ [new_msg], e), s, nm. split; [done|]. split; [|done].
    symmetry. by apply list_insert_id. }
  rewrite (bind_Ok _ _ _ _ _ (deref_run _ _ _ Hnm)).
  assert (Hlen : new_msg < length (heap s)) by by eapply lookup_lt_Some.
  unfold try_except at 1. unfold bind at 1. unfold bind at 1.
  rewrite encrypt_run, Hengine. unfold setattr at 1. cbn [heap trace].
  rewrite Hnm.
  set (nm1 := set_body _ nm).
  set (s1 := mkState _ _).
  assert (Hnm1 : heap s1 !! new_msg = Some nm1).
  { subst s1. cbn [heap]. by apply list_lookup_insert_eq. }
  rewrite (bind_Ok _ _ _ _ _ (deref_run _ _ _ Hnm1)).
  destruct (returns_for_each (encrypt_alternative env a)
              (fun _ => True) (fun _ => True) (alternatives nm1)
              (fun acc x _ _ => returns_encrypt_alternative a acc x)
              (Forall_true _ _ (fun _ => I)) [] I s1)
    as (alts & s2 & Halts & Hh2 & _).
  rewrite (bind_Ok _ _ _ _ _ Halts).
  assert (Hnm2 : heap s2 !! new_msg = Some nm1) by by rewrite Hh2.
  rewrite (bind_Ok _ _ _ _ _ (setattr_run _ _ _ _ Hnm2)).
  set (nm2 := set_alternatives alts nm1).
  set (s3 := mkState _ _).
  assert (Hnm3 : heap s3 !! new_msg = Some nm2).
  { subst s3. cbn [heap]. apply list_lookup_insert_eq.
    rewrite Hh2. subst s1. cbn [heap]. by rewrite length_insert. }
  rewrite (bind_Ok _ _ _ _ _ (deref_run _ _ _ Hnm3)).
  destruct (returns_for_each
              (fun acc attachment =>
                 let* x := encrypt_attachment env a attachment use_asc in
                 ret (acc ++ [x]))
              (Forall (readable env)) (readable env) (attachments nm2))
    with (acc := @nil Attachment) (s := s3)
    as (atts & s4 & Hrun4 & Hh4 & Hgood); [|done|done|].
  { intros acc x Hacc Hx. eapply returns_bind;
      [by apply returns_encrypt_attachment|].
    intros x' Hx'. apply returns_ret. apply Forall_app. by split;
      [|repeat constructor]. }
  rewrite (bind_Ok _ _ _ _ _ Hrun4).
  assert (Hnm4 : heap s4 !! new_msg = Some nm2) by by rewrite Hh4.
  rewrite (bind_Ok _ _ _ _ _ (setattr_run _ _ _ _ Hnm4)).
  eexists _, _, (set_attachments atts nm2). split; [done|].
  cbn [heap]. split; [|done].
  rewrite Hh4. subst s3. cbn [heap]. rewrite Hh2. subst s1. cbn [heap].
  by rewrite !list_insert_insert_eq.
Qed.

Lemma keyed_loop_returns msg new_msg items :
  forall lists s m nm,
  msg <> new_msg ->
  heap s !! msg = Some m ->
  heap s !! new_msg = Some nm ->
  Forall (readable env) (attachments nm) ->
  exists lists' s' nm',
    for_each (encrypt_for_address env msg new_msg) items lists s
      = (Ok lists', s') /\
    heap s' = <[new_msg := nm']> (heap s).
Proof.
  induction items as [|item items IH];
    intros [u e] s m nm Hne Hm Hnm Hatts; cbn [for_each].
  - exists (u, e), s, nm. split; [done|]. symmetry. by apply list_insert_id.
  - destruct (encrypt_for_address_returns _ _ u e item _ _ _ Hne Hm Hnm Hatts)
      as (lists1 & s1 & nm1 & Hrun & Hh1 & Hatts1).
    rewrite (bind_Ok _ _ _ _ _ Hrun).
    assert (Hlen : new_msg < length (heap s)) by by eapply lookup_lt_Some.
    destruct (IH lists1 s1 m nm1 Hne) as (lists' & s' & nm' & Hrun' & Hh');
      [by rewrite Hh1, list_lookup_insert_ne
      |rewrite Hh1; by apply list_lookup_insert_eq|done|].
    exists lists', s', nm'. split; [done|].
    by rewrite Hh', Hh1, list_insert_insert_eq.
Qed.

Lemma encrypt_message_returns lists msg s m :
  heap s !! msg = Some m ->
  Forall (readable env) (attachments m) ->
  exists lists' s' added,
    encrypt_message env lists msg s = (Ok lists', s') /\
    heap s' = heap s ++ added.
Proof.
  intros Hm Hatts. destruct lists as [u e].
  rewrite (encrypt_message_unfold env _ _ _ _ _ Hm).
  assert (Hlt : msg < length (heap s)) by by eapply lookup_lt_Some.
  destruct (keyed_loop_returns msg (S (length (heap s)))
              (key_addrs_of env (to m))
              (u ++ match keyless_to env m with
                    | [] => []
                    | _ :: _ => [length (heap s)]
                    end, e)
              (mkState (heap s ++ [unencrypted_copy env m; keyed_copy env m])
                       (trace s))
              m (keyed_copy env m))
    as (lists' & s' & nm' & Hrun & Hh);
    [lia | cbn [heap]; by apply lookup_app_l_Some
    | apply lookup_second_last | exact Hatts |].
  exists lists', s', [unencrypted_copy env m; nm']. split; [exact Hrun|].
  rewrite Hh. cbn [heap]. apply insert_second_last.
Qed.

(** X15. With an engine that encrypts whatever text it is given, a
    batch of references to messages of the store that carry no
    attachment is processed to the end: [encrypt_messages] returns a
    list.  Messages with attachments are left out of the statement: what
    the constructor of the copies does with them depends on the version
    of Django. *)
Lemma encrypt_messages_returns batch s :
  Forall (fun l => exists m, heap s !! l = Some m /\ attachments m = [])
         batch ->
  exists out s', encrypt_messages env batch s = (Ok out, s').
Proof.
  intros Hbatch. unfold encrypt_messages, encrypt_loop.
  assert (Hgen : forall lists s1 pre,
    heap s1 = heap s ++ pre ->
    exists lists' s', for_each (encrypt_message env) batch lists s1
                      = (Ok lists', s')).
  { induction Hbatch as [|l batch (m & Hm & Hatts) _ IH];
      intros lists s1 pre Hpre; cbn [for_each].
    - by exists lists, s1.
    - assert (Hm1 : heap s1 !! l = Some m).
      { rewrite Hpre. by apply lookup_app_l_Some. }
      assert (Hread : Forall (readable env) (attachments m))
        by (rewrite Hatts; constructor).
      destruct (encrypt_message_returns lists _ _ _ Hm1 Hread)
        as (lists1 & s2 & added & Hrun & Hh).
      rewrite (bind_Ok _ _ _ _ _ Hrun).
      apply (IH lists1 s2 (pre ++ added)).
      by rewrite Hh, Hpre, app_assoc. }
  destruct (Hgen ([], []) s []) as ([U E] & s' & Hrun);
    [by rewrite app_nil_r|].
  exists (U ++ E), s'. by rewrite (bind_Ok _ _ _ _ _ Hrun).
Qed.

End Returning.

(** ** The send wrappers *)

Section Wrappers.

Variable env : Env.

(** With GnuPG disabled the batch goes to the transport as it is. *)
Lemma encrypting_send_disabled batch s :
  USE_GNUPG env = false ->
  EncryptingEmailBackendMixin_send_messages env batch s =
  bind (super_send_messages env batch) (fun _ => ret PyNone) s.
Proof.
  intros H. unfold EncryptingEmailBackendMixin_send_messages. by rewrite H.
Qed.

Lemma signing_send_disabled batch s :
  USE_GNUPG env = false ->
  SigningEmailBackendMixin_send_messages env batch s =
  bind (super_send_messages env batch) (fun _ => ret PyNone) s.
Proof.
  intros H. unfold SigningEmailBackendMixin_send_messages. by rewrite H.
Qed.

(** An exception of the transport comes out of the wrappers as it is. *)
Lemma encrypting_send_disabled_raise batch s e s' :
  USE_GNUPG env = false ->
  super_send_messages env batch s = (Raise e, s') ->
  EncryptingEmailBackendMixin_send_messages env batch s = (Raise e, s').
Proof.
  intros H Hsend. rewrite encrypting_send_disabled by done.
  by rewrite (bind_Raise _ _ _ _ _ Hsend).
Qed.

(** What the transport returns does not: the wrappers return [None]. *)
Lemma encrypting_send_returns_None batch s v s' :
  EncryptingEmailBackendMixin_send_messages env batch s = (Ok v, s') ->
  v = PyNone.
Proof.
  unfold EncryptingEmailBackendMixin_send_messages. intros H.
  apply bind_Ok_inv in H as (b & s1 & _ & H).
  apply bind_Ok_inv in H as (r & s2 & _ & H). by injection H as <- _.
Qed.

Lemma signing_send_returns_None batch s v s' :
  SigningEmailBackendMixin_send_messages env batch s = (Ok v, s') ->
  v = PyNone.
Proof.
  unfold SigningEmailBackendMixin_send_messages. intros H.
  apply bind_Ok_inv in H as (b & s1 & _ & H).
  apply bind_Ok_inv in H as (r & s2 & _ & H). by injection H as <- _.
Qed.

End Wrappers.

(** C9. With GnuPG disabled and a transport that sends the one message of
    the batch and returns the count 1, both wrappers hand the batch over as
    it is and leave the store alone, but neither returns what the transport
    returned: both return [None]. *)
Theorem send_messages_drops_the_return_value :
  let st := demo_state [demo_message ["a@x.com"] false] in
  super_send_messages (demo_env false) [0] st = (Ok (PyInt 1), st) /\
  EncryptingEmailBackendMixin_send_messages (demo_env false) [0] st
    = (Ok PyNone, st) /\
  SigningEmailBackendMixin_send_messages (demo_env false) [0] st
    = (Ok PyNone, st).
Proof. by repeat split. Qed.

(** ** The statements on the concrete site *)

(** The scenario of the specification: a message to a keyless and a keyed
    address with the suffix policy.  The first copy goes to the keyless
    address with the body as it was; the second goes to the keyed address
    with the body, the alternative and the attachment encrypted, the
    attachment renamed and marked. *)
Example mixed_message_scenario :
  let r := encrypt_messages (demo_env true) [0]
             (demo_state [demo_message ["a@x.com"; "b@x.com"] false]) in
  fst r = Ok [1; 2] /\
  (to <$> heap (snd r) !! 1) = Some ["a@x.com"] /\
  (body <$> heap (snd r) !! 1) = Some "hello" /\
  (to <$> heap (snd r) !! 2) = Some ["b@x.com"] /\
  (body <$> heap (snd r) !! 2) = Some "<b@x.com:hello>" /\
  (alternatives <$> heap (snd r) !! 2)
    = Some [("<b@x.com:<p>hello</p>>", gpg_encrypted)] /\
  (attachments <$> heap (snd r) !! 2)
    = Some [AttachmentTriple (Some "report.pdf.asc") (Text "<b@x.com:PDF>")
                             (Some gpg_encrypted)].
Proof. by vm_compute. Qed.

(** C1, as stated, fails: a message to two keyed addresses comes out as
    two entries of the output, both the same object; and a flagged message
    to one keyed address comes out in the unencrypted part. *)
Lemma fully_keyed_counterexample :
  fst (encrypt_messages (demo_env true) [0]
         (demo_state [demo_message ["c@x.com"; "b@x.com"] false]))
    = Ok [2; 2] /\
  ~ exactly_one_encrypted_copy (demo_env true) [0]
      (demo_state [demo_message ["c@x.com"; "b@x.com"] false]) 0 /\
  ~ exactly_one_encrypted_copy (demo_env true) [0]
      (demo_state [demo_message ["b@x.com"] true]) 0.
Proof.
  split; [by vm_compute|]. split.
  - intros H.
    destruct (H 0 _ eq_refl eq_refl)
      as (U & E & s' & nm & Hrun & _ & _ & Hcount & _).
    { apply Forall_forall. by_computation. }
    vm_compute in Hrun. injection Hrun as <- <- <-.
    vm_compute in Hcount. discriminate.
  - intros H.
    destruct (H 0 _ eq_refl eq_refl)
      as (U & E & s' & nm & Hrun & _ & Hnotin & _).
    { apply Forall_forall. by_computation. }
    vm_compute in Hrun. injection Hrun as <- <- <-.
    apply Hnotin. vm_compute. by left.
Qed.

(** C3, as stated, fails: a flagged message to a keyless and a keyed
    address has no copy in the encrypted part of the output. *)
Lemma mixed_flagged_counterexample :
  fst (encrypt_loop (demo_env true) [0]
         (demo_state [demo_message ["a@x.com"; "b@x.com"] true]))
    = Ok ([1; 2], []) /\
  ~ split_in_two_copies (demo_env true) [0]
      (demo_state [demo_message ["a@x.com"; "b@x.com"] true]) 0.
Proof.
  split; [by vm_compute|].
  intros H.
  destruct (H 0 _ eq_refl eq_refl)
    as (U & E & s' & um & nm & Hrun & _ & Hin & _).
  - exists "a@x.com". split; by_computation.
  - exists "b@x.com". split; by_computation.
  - vm_compute in Hrun. injection Hrun as <- <- <-.
    by apply elem_of_nil in Hin.
Qed.

Lemma encrypt_attachment_handled_failure_unbound_witness :
  encrypt_attachment (demo_env true) "bad@x.com"
    (AttachmentTriple (Some "report.pdf") (Bytes "PDF")
       (Some "application/pdf"))
    true (demo_state []) =
  (Raise (UnboundLocalError "encrypted_content"),
   mkState []
     [GpgEncrypt (Bytes "PDF") "bad@x.com";
      HandlerCalled AttachmentEncryption
        (EncryptionFailedError "bad@x.com" "invalid recipient")]).
Proof.
  apply (encrypt_attachment_handled_failure_unbound (demo_env true)
           "bad@x.com" _ true (demo_state [])
           (Some "report.pdf") (Bytes "PDF") (Some "application/pdf"));
    [reflexivity | discriminate | reflexivity | reflexivity].
Defined.

Lemma fully_keyed_message_single_encrypted_object_witness :
  let env := demo_env true in
  let m := demo_message ["c@x.com"; "b@x.com"; "c@x.com"] false in
  let s := demo_state [m] in
  let s' := snd (encrypt_messages env [0] s) in
  exists U E nm,
    encrypt_loop env [0] s = (Ok (U, E), s') /\ [2; 2] = U ++ E /\
    (unencrypted_ref (length (heap s)) 0 ∉ [2; 2]) /\
    (keyed_ref (length (heap s)) 0 ∉ U) /\
    keyed_ref (length (heap s)) 0 ∈ E /\
    heap s' !! keyed_ref (length (heap s)) 0 = Some nm /\
    to nm = keyed_to env m /\
    NoDup (to nm) /\
    (forall a, a ∈ to nm <-> a ∈ to m).
Proof.
  intros env m s s'.
  apply (fully_keyed_message_single_encrypted_object env [0] s [2; 2] s'
           0 0 m);
    [by vm_compute | reflexivity | reflexivity | reflexivity | discriminate
    | apply Forall_forall; by_computation].
Defined.

Lemma mixed_message_split_in_two_copies_witness :
  let env := demo_env true in
  let m := demo_message ["a@x.com"; "b@x.com"] false in
  let s := demo_state [m] in
  let s' := snd (encrypt_messages env [0] s) in
  exists U E um nm,
    encrypt_loop env [0] s = (Ok (U, E), s') /\ [1; 2] = U ++ E /\
    unencrypted_ref (length (heap s)) 0 ∈ U /\
    (unencrypted_ref (length (heap s)) 0 ∉ E) /\
    keyed_ref (length (heap s)) 0 ∈ E /\
    (keyed_ref (length (heap s)) 0 ∉ U) /\
    heap s' !! unencrypted_ref (length (heap s)) 0 = Some um /\
    heap s' !! keyed_ref (length (heap s)) 0 = Some nm /\
    um = set_to (to um) (copy_of m) /\
    to um = filter (fun a => ~ has_key env a) (to m) /\
    (forall a, a ∈ to nm -> a ∈ to m /\ has_key env a) /\
    (forall a, a ∈ to m <-> a ∈ to um \/ a ∈ to nm) /\
    (forall a, ~ (a ∈ to um /\ a ∈ to nm)) /\
    (NoDup (to m) -> to um ++ to nm ≡ₚ to m).
Proof.
  intros env m s s'.
  apply (mixed_message_split_in_two_copies env [0] s [1; 2] s' 0 0 m);
    [by vm_compute | reflexivity | reflexivity | reflexivity
    | exists "a@x.com"; split; by_computation
    | exists "b@x.com"; split; by_computation].
Defined.

Lemma suppressed_message_routed_unencrypted_witness :
  let env := demo_env true in
  let m0 := demo_message ["b@x.com"] false in
  let m := demo_message ["a@x.com"; "b@x.com"; "c@x.com"] true in
  let s := demo_state [m0; m] in
  let s1 := snd (for_each (encrypt_message env) [0] ([], []) s) in
  let lists1 : list loc * list loc := ([], [3]) in
  let lu := unencrypted_ref (length (heap s)) 1 in
  let ln := keyed_ref (length (heap s)) 1 in
  exists lists2 s2,
    encrypt_message env lists1 1 s1 = (Ok lists2, s2) /\
    encrypt_loop env ([0] ++ 1 :: []) s =
      for_each (encrypt_message env) [] lists2 s2 /\
    trace s2 = trace s1 /\
    heap s2 = heap s1 ++ [unencrypted_copy env m; keyed_copy env m] /\
    length (heap s1) = lu /\
    fst lists2 =
      fst lists1 ++ match keyless_to env m with [] => [] | _ :: _ => [lu] end
                 ++ replicate (length (keyed_to env m)) ln /\
    ln ∈ fst lists2 /\
    snd lists2 = snd lists1 /\
    body (keyed_copy env m) = body m /\
    alternatives (keyed_copy env m) = alternatives m /\
    attachments (keyed_copy env m) = attachments m /\
    forall U E s',
      encrypt_loop env ([0] ++ 1 :: []) s = (Ok (U, E), s') ->
      ln ∈ U /\ (ln ∉ E) /\ heap s' !! ln = Some (keyed_copy env m).
Proof.
  intros env m0 m s s1 lists1.
  apply (suppressed_message_routed_unencrypted env [0] [] 1 s lists1 s1 m);
    [by vm_compute | reflexivity | reflexivity
    | exists "b@x.com"; split; by_computation].
Defined.

Lemma unencrypted_copies_precede_encrypted_witness :
  let env := demo_env true in
  let s := demo_state [demo_message ["b@x.com"; "a@x.com"] false;
                       demo_message ["c@x.com"; "a@x.com"] true;
                       demo_message ["a@x.com"; "c@x.com"] false] in
  let s' := snd (encrypt_messages env [0; 1; 2] s) in
  exists U E,
    encrypt_loop env [0; 1; 2] s = (Ok (U, E), s') /\
    [3; 5; 6; 7; 4; 8] = U ++ E /\
    StronglySorted le U /\ StronglySorted le E /\
    (forall x, x ∈ U ->
       exists i l m,
         [0; 1; 2] !! i = Some l /\ heap s !! l = Some m /\
         ((x = unencrypted_ref (length (heap s)) i /\
           heap s' !! x = Some (unencrypted_copy env m)) \/
          (x = keyed_ref (length (heap s)) i /\
           do_not_encrypt_this_message m = true /\
           heap s' !! x = Some (keyed_copy env m)))) /\
    (forall x, x ∈ E ->
       exists i l m,
         [0; 1; 2] !! i = Some l /\ heap s !! l = Some m /\
         x = keyed_ref (length (heap s)) i /\
         do_not_encrypt_this_message m = false).
Proof.
  intros env s s'.
  apply (unencrypted_copies_precede_encrypted env [0; 1; 2] s
           [3; 5; 6; 7; 4; 8] s');
    [by vm_compute | repeat constructor; by eexists].
Defined.

(** ** More on the output of [encrypt_messages] *)

Lemma filter_all {A} (P : A -> Prop) `{forall x, Decision (P x)} (l : list A) :
  Forall P l -> filter P l = l.
Proof.
  induction 1 as [|x l Hx _ IH]; [done|].
  rewrite filter_cons, decide_True by done. by rewrite IH.
Qed.

Section MoreOutput.

Variable env : Env.

(** A run over a batch, cut at one of its messages. *)
Lemma encrypt_loop_split batch i l s U E s' :
  encrypt_loop env batch s = (Ok (U, E), s') ->
  batch !! i = Some l ->
  exists lists1 s1 lists2 s2 added1 added2,
    for_each (encrypt_message env) (take i batch) ([], []) s
      = (Ok lists1, s1) /\
    encrypt_message env lists1 l s1 = (Ok lists2, s2) /\
    for_each (encrypt_message env) (drop (S i) batch) lists2 s2
      = (Ok (U, E), s') /\
    heap s1 = heap s ++ added1 /\
    length (heap s1) = unencrypted_ref (length (heap s)) i /\
    heap s' = heap s2 ++ added2.
Proof.
  intros Hrun Hi. unfold encrypt_loop in Hrun.
  rewrite <- (take_drop_middle _ _ _ Hi) in Hrun.
  rewrite for_each_app in Hrun.
  apply bind_Ok_inv in Hrun as (lists1 & s1 & Hpre & Hrun).
  cbn [for_each] in Hrun.
  apply bind_Ok_inv in Hrun as (lists2 & s2 & Hstep & Hpost).
  destruct lists1 as [u1 e1]. destruct lists2 as [u2 e2].
  pose proof (encrypt_batch_spec env _ _ _ _ _ _ _ Hpre)
    as (_ & _ & _ & added1 & _ & _ & _ & Hh1 & Hlen1 & _).
  pose proof (encrypt_batch_spec env _ _ _ _ _ _ _ Hpost)
    as (_ & _ & _ & added2 & _ & _ & _ & Hh2 & _).
  exists (u1, e1), s1, (u2, e2), s2, added1, added2.
  repeat (split; [done|]). split; [|done].
  rewrite Hh1, length_app, Hlen1, length_take.
  apply lookup_lt_Some in Hi. unfold unencrypted_ref. lia.
Qed.

(** X1. A message none of whose recipients is keyed, and that has a
    recipient: when the run returns, the output lists exactly one copy of
    it, in the unencrypted part, and does not list its other copy
    anywhere; the listed copy has the [to], [cc], [bcc], [reply_to],
    [subject], [body], [alternatives], headers and [connection] of the
    message, so its content is sent in clear to every recipient.  Nothing
    is said of the attachments and of the sender, which the constructor
    of the copy may normalise, nor of the flag, which the copy does not
    carry. *)
Theorem keyless_message_one_unencrypted_copy
    batch s out s' i l m :
  encrypt_messages env batch s = (Ok out, s') ->
  batch !! i = Some l -> heap s !! l = Some m ->
  to m <> [] ->
  (forall a, a ∈ to m -> ~ has_key env a) ->
  exists U E,
    encrypt_loop env batch s = (Ok (U, E), s') /\ out = U ++ E /\
    count_occ Nat.eq_dec U (unencrypted_ref (length (heap s)) i) = 1 /\
    (unencrypted_ref (length (heap s)) i ∉ E) /\
    (keyed_ref (length (heap s)) i ∉ out) /\
    exists um,
      heap s' !! unencrypted_ref (length (heap s)) i = Some um /\
      to um = to m /\ cc um = cc m /\ bcc um = bcc m /\
      reply_to um = reply_to m /\ subject um = subject m /\
      body um = body m /\ alternatives um = alternatives m /\
      extra_headers um = extra_headers m /\ connection um = connection m.
Proof.
  intros Hrun Hi Hl Hne Hnone.
  apply encrypt_messages_Ok_inv in Hrun as (U & E & Hloop & ->).
  destruct (encrypt_loop_message env _ _ _ _ _ _ _ _ Hloop Hi Hl)
    as (evs & _ & Hum & Hcu & Hce & Hnu & Hne' & _).
  assert (Hkeyed : keyed_to env m = []).
  { destruct (keyed_to env m) as [|a rest] eqn:E'; [done|].
    assert (Ha : a ∈ keyed_to env m) by (rewrite E'; by left).
    apply keyed_to_spec in Ha as [Hto Hk]. by apply Hnone in Hto. }
  assert (Hless : keyless_to env m = to m).
  { rewrite keyless_to_spec. apply filter_all. by apply Forall_forall. }
  rewrite Hkeyed in Hnu, Hne'. cbn [length] in Hnu, Hne'.
  assert (Hnu0 : count_occ Nat.eq_dec U (keyed_ref (length (heap s)) i) = 0)
    by by destruct (do_not_encrypt_this_message m).
  assert (Hne0 : count_occ Nat.eq_dec E (keyed_ref (length (heap s)) i) = 0)
    by by destruct (do_not_encrypt_this_message m).
  rewrite Hless in Hcu.
  exists U, E. split; [done|]. split; [done|].
  split; [by destruct (to m)|].
  split; [by apply count_occ_zero_elem|].
  split.
  { rewrite elem_of_app. intros [Hin|Hin];
      by eapply count_occ_zero_elem in Hin. }
  exists (unencrypted_copy env m). split; [done|].
  unfold unencrypted_copy, copy_of. cbn. by rewrite Hless.
Qed.

(** X2. A message whose [to] is empty, whatever its [cc] and [bcc]: when
    the run returns, neither of its copies is in the output; the message
    is dropped. *)
Theorem message_without_to_is_dropped
    batch s out s' i l m :
  encrypt_messages env batch s = (Ok out, s') ->
  batch !! i = Some l -> heap s !! l = Some m ->
  to m = [] ->
  (unencrypted_ref (length (heap s)) i ∉ out) /\
  (keyed_ref (length (heap s)) i ∉ out).
Proof.
  intros Hrun Hi Hl Hto.
  apply encrypt_messages_Ok_inv in Hrun as (U & E & Hloop & ->).
  destruct (encrypt_loop_message env _ _ _ _ _ _ _ _ Hloop Hi Hl)
    as (evs & _ & _ & Hcu & Hce & Hnu & Hne' & _).
  assert (Hkeyed : keyed_to env m = []).
  { destruct (keyed_to env m) as [|a rest] eqn:E'; [done|].
    assert (Ha : a ∈ keyed_to env m) by (rewrite E'; by left).
    apply keyed_to_spec in Ha as [Ha _]. rewrite Hto in Ha.
    by apply elem_of_nil in Ha. }
  assert (Hless : keyless_to env m = []).
  { unfold keyless_to. by rewrite Hto. }
  rewrite Hkeyed in Hnu, Hne'. rewrite Hless in Hcu.
  cbn [length] in Hnu, Hne'.
  assert (Hnu0 : count_occ Nat.eq_dec U (keyed_ref (length (heap s)) i) = 0)
    by by destruct (do_not_encrypt_this_message m).
  assert (Hne0 : count_occ Nat.eq_dec E (keyed_ref (length (heap s)) i) = 0)
    by by destruct (do_not_encrypt_this_message m).
  split; rewrite elem_of_app; intros [Hin|Hin];
    by eapply count_occ_zero_elem in Hin.
Qed.

Lemma fold_left_body_after_failed addrs b :
  (forall a, a ∈ addrs -> encryption_failed (gpg_encrypt env (Text b) a) (Text b) = true) ->
  fold_left (body_after env) addrs b = b.
Proof.
  induction addrs as [|a addrs IH]; intros Hall; [done|].
  cbn [fold_left]. unfold body_after at 2.
  rewrite Hall by by left. apply IH. intros a' Ha'. apply Hall. by right.
Qed.

(** X4. A message without the flag that has a keyed recipient, when the
    engine fails on its body for every keyed address and the handler
    returns each time: in a run that returns, the copy for the keyed
    recipients is in the encrypted part of the output and its body is the
    body of the message, in clear. *)
Theorem failed_body_is_sent_in_clear
    batch s out s' i l m :
  encrypt_messages env batch s = (Ok out, s') ->
  batch !! i = Some l -> heap s !! l = Some m ->
  do_not_encrypt_this_message m = false ->
  keyed_to env m <> [] ->
  (forall a, a ∈ keyed_to env m ->
     encryption_failed (gpg_encrypt env (Text (body m)) a) (Text (body m)) = true) ->
  exists U E nm,
    encrypt_loop env batch s = (Ok (U, E), s') /\ out = U ++ E /\
    keyed_ref (length (heap s)) i ∈ E /\
    heap s' !! keyed_ref (length (heap s)) i = Some nm /\
    to nm = keyed_to env m /\
    body nm = body m.
Proof.
  intros Hrun Hi Hl Hflag Hne Hfail.
  apply encrypt_messages_Ok_inv in Hrun as (U & E & Hloop & ->).
  destruct (encrypt_loop_message env _ _ _ _ _ _ _ _ Hloop Hi Hl)
    as (evs & _ & _ & _ & _ & _ & Hne' & nm & Hnm & Henv & _ & Hbody).
  rewrite Hflag in Hne'. destruct (Hbody Hflag) as [Hb _].
  exists U, E, nm. split; [done|]. split; [done|].
  split.
  { apply count_occ_pos_elem. rewrite Hne'.
    destruct (keyed_to env m); [done|cbn; lia]. }
  split; [done|]. split; [by apply to_of_envelope|].
  rewrite Hb. by apply fold_left_body_after_failed.
Qed.

End MoreOutput.

(** ** What a run never writes to *)

Lemma keeps_below_weaken {A} n (c : M A) (P Q : A -> Prop) :
  keeps_below n c P -> (forall a, P a -> Q a) -> keeps_below n c Q.
Proof.
  intros Hc HPQ s r s' Hrun Hn.
  destruct (Hc _ _ _ Hrun Hn) as (H1 & H2 & H3). eauto.
Qed.

Lemma keeps_below_ret {A} n (a : A) (P : A -> Prop) :
  P a -> keeps_below n (ret a) P.
Proof. intros HP s r s' [= <- <-] _. repeat split; [done|]. by intros a' [= <-]. Qed.

Lemma keeps_below_bind {A B} n (c : M A) (k : A -> M B) P Q :
  keeps_below n c P -> (forall a, P a -> keeps_below n (k a) Q) ->
  keeps_below n (bind c k) Q.
Proof.
  intros Hc Hk s r s' Hrun Hn. unfold bind in Hrun.
  destruct (c s) as [[a|e] s1] eqn:Ec.
  - destruct (Hc _ _ _ Ec Hn) as (H1 & H2 & H3).
    destruct (Hk a (H3 a eq_refl) _ _ _ Hrun) as (H1' & H2' & H3'); [lia|].
    split; [congruence|]. split; [lia|done].
  - injection Hrun as <- <-. destruct (Hc _ _ _ Ec Hn) as (H1 & H2 & _).
    repeat split; try done.
Qed.

Lemma keeps_below_try_except {A} n catches (c : M A) (h : Exn -> M A) P :
  keeps_below n c P -> (forall e, keeps_below n (h e) P) ->
  keeps_below n (try_except catches c h) P.
Proof.
  intros Hc Hh s r s' Hrun Hn. unfold try_except in Hrun.
  destruct (c s) as [[a|e] s1] eqn:Ec.
  - injection Hrun as <- <-. by apply (Hc _ _ _ Ec).
  - destruct (Hc _ _ _ Ec Hn) as (H1 & H2 & _).
    destruct (catches e).
    + destruct (Hh e _ _ _ Hrun) as (H1' & H2' & H3'); [lia|].
      split; [congruence|]. split; [lia|done].
    + injection Hrun as <- <-. repeat split; done.
Qed.

Lemma keeps_below_for_each {A B} n (f : B -> A -> M B) xs :
  (forall acc x, keeps_below n (f acc x) (fun _ => True)) ->
  forall acc, keeps_below n (for_each f xs acc) (fun _ => True).
Proof.
  intros Hf. induction xs as [|x xs IH]; intros acc; cbn [for_each].
  - by apply keeps_below_ret.
  - eapply keeps_below_bind; [apply Hf|]. intros acc' _. apply IH.
Qed.

Lemma keeps_below_preserved {A} n (c : M A) :
  store_preserved c -> keeps_below n c (fun _ => True).
Proof.
  intros Hc s r s' Hrun _. destruct (Hc _ _ _ Hrun) as [Hh _].
  rewrite Hh. repeat split; done.
Qed.

Lemma keeps_below_deref n l : keeps_below n (deref l) (fun _ => True).
Proof.
  intros s r s' Hrun _. unfold deref in Hrun.
  destruct (heap s !! l); injection Hrun as <- <-; repeat split; done.
Qed.

Lemma keeps_below_setattr n l f :
  n <= l -> keeps_below n (setattr l f) (fun _ => True).
Proof.
  intros Hl s r s' Hrun _. unfold setattr in Hrun.
  destruct (heap s !! l); injection Hrun as <- <-; cbn [heap].
  - rewrite take_insert_ge, length_insert by done. repeat split; done.
  - repeat split; done.
Qed.

Lemma keeps_below_copy_message n msg :
  keeps_below n (copy_message msg) (fun l => n <= l).
Proof.
  intros s r s' Hrun Hn. unfold copy_message, bind, deref, alloc in Hrun.
  destruct (heap s !! msg); injection Hrun as <- <-; cbn [heap].
  - rewrite take_app_le, length_app by done. cbn [length].
    split; [done|]. split; [lia|]. intros a [= <-]. done.
  - repeat split; try done.
Qed.

Section Untouched.

Variable env : Env.

Lemma keeps_below_encrypt_for_address n msg new_msg lists item :
  n <= new_msg ->
  keeps_below n (encrypt_for_address env msg new_msg lists item)
    (fun _ => True).
Proof.
  intros Hnew. destruct lists as [u e]. destruct item as [a use_asc].
  unfold encrypt_for_address.
  eapply keeps_below_bind; [apply keeps_below_deref|]. intros m _.
  destruct (do_not_encrypt_this_message m); [by apply keeps_below_ret|].
  eapply keeps_below_bind; [apply keeps_below_deref|]. intros nm _.
  eapply keeps_below_bind with (P := fun _ => True).
  { apply keeps_below_try_except.
    - eapply keeps_below_bind.
      + apply keeps_below_preserved, store_preserved_encrypt.
      + intros b _. by apply keeps_below_setattr.
    - intros e'. apply keeps_below_preserved, store_preserved_call_handler. }
  intros _ _.
  eapply keeps_below_bind; [apply keeps_below_deref|]. intros nm1 _.
  eapply keeps_below_bind.
  { apply keeps_below_preserved, store_preserved_for_each.
    apply store_preserved_encrypt_alternative. }
  intros alts _.
  eapply keeps_below_bind; [by apply keeps_below_setattr|]. intros _ _.
  eapply keeps_below_bind; [apply keeps_below_deref|]. intros nm2 _.
  eapply keeps_below_bind.
  { apply keeps_below_preserved, store_preserved_for_each.
    intros acc x. apply store_preserved_bind;
      [apply store_preserved_encrypt_attachment | auto with store]. }
  intros atts _.
  eapply keeps_below_bind; [by apply keeps_below_setattr|]. intros _ _.
  by apply keeps_below_ret.
Qed.

Lemma keeps_below_encrypt_message n lists msg :
  keeps_below n (encrypt_message env lists msg) (fun _ => True).
Proof.
  destruct lists as [u e]. unfold encrypt_message.
  eapply keeps_below_bind; [apply keeps_below_deref|]. intros m _.
  eapply keeps_below_bind; [apply keeps_below_copy_message|].
  intros unencrypted_msg Hu. cbn beta in Hu.
  eapply keeps_below_bind; [by apply keeps_below_setattr|]. intros _ _.
  eapply keeps_below_bind; [apply keeps_below_deref|]. intros um _.
  eapply keeps_below_bind; [apply keeps_below_copy_message|].
  intros new_msg Hnew. cbn beta in Hnew.
  eapply keeps_below_bind; [by apply keeps_below_setattr|]. intros _ _.
  apply keeps_below_for_each. intros acc x.
  by apply keeps_below_encrypt_for_address.
Qed.

(** X3. Whatever [encrypt_messages] does, return or raise, and whatever
    the batch, the engine and the handlers: every object that was in the
    store before the call is in it after the call, unchanged; the call
    only adds objects.  The messages it is given are never modified. *)
Theorem encrypt_messages_keeps_the_store batch s r s' :
  encrypt_messages env batch s = (r, s') ->
  heap s `prefix_of` heap s' /\
  forall l m, heap s !! l = Some m -> heap s' !! l = Some m.
Proof.
  intros Hrun.
  assert (Hk : keeps_below (length (heap s)) (encrypt_messages env batch)
                 (fun _ => True)).
  { unfold encrypt_messages, encrypt_loop.
    eapply keeps_below_bind.
    - apply keeps_below_for_each. intros acc x.
      apply keeps_below_encrypt_message.
    - intros [U E] _. by apply keeps_below_ret. }
  destruct (Hk _ _ _ Hrun) as (Htake & Hlen & _); [done|].
  rewrite firstn_all in Htake.
  assert (Hpre : heap s `prefix_of` heap s').
  { exists (drop (length (heap s)) (heap s')).
    by rewrite <- Htake at 1; rewrite take_drop. }
  split; [done|]. intros l m Hl.
  destruct Hpre as [k ->]. by apply lookup_app_l_Some.
Qed.

End Untouched.

(** ** What the passes make of alternatives and attachments *)

Section Content.

Variable env : Env.

Lemma encrypt_alternative_exact address acc item s r s' :
  encrypt_alternative env address acc item s = (Ok r, s') ->
  r = acc ++ alternative_after env address item.
Proof.
  destruct item as [alt mimetype].
  unfold encrypt_alternative, alternative_after. cbn [fst snd].
  case_bool_decide; [by intros [= <- _]|].
  unfold try_except, bind. rewrite encrypt_run.
  destruct (encryption_failed _ _); cbn [is_EncryptionFailedError].
  - rewrite call_handler_run.
    destruct (handle_failed_alternative_encryption env _); [done|].
    intros [= <- _]. by rewrite app_nil_r.
  - by intros [= <- _].
Qed.

Lemma for_each_alternatives_exact address alts :
  forall acc s r s',
  for_each (encrypt_alternative env address) alts acc s = (Ok r, s') ->
  r = acc ++ alternatives_after env address alts.
Proof.
  induction alts as [|item alts IH]; intros acc s r s'; cbn [for_each].
  - intros [= <- _]. by rewrite app_nil_r.
  - intros H. apply bind_Ok_inv in H as (acc1 & s1 & Hstep & H).
    apply encrypt_alternative_exact in Hstep as ->.
    apply IH in H as ->. unfold alternatives_after. cbn [flat_map].
    by rewrite <- app_assoc.
Qed.

Lemma encrypt_attachment_exact address attachment use_asc s r s' :
  encrypt_attachment env address attachment use_asc s = (Ok r, s') ->
  attachment_after env address use_asc attachment = Some r.
Proof.
  unfold encrypt_attachment, attachment_after.
  destruct attachment as [path|filename content mimetype];
    cbn [unpack_attachment].
  - destruct (read_file env path) as [content|]; [|done].
    unfold bind at 1. unfold ret at 1.
    rewrite bool_decide_eq_false_2 by done.
    unfold bind, try_except. rewrite encrypt_run.
    destruct (encryption_failed _ _); cbn [is_EncryptionFailedError].
    + rewrite call_handler_run.
      by destruct (handle_failed_attachment_encryption env _).
    + cbn [ret local]. intros [= <- _]. by destruct use_asc.
  - unfold bind at 1. unfold ret at 1.
    case_bool_decide; [by intros [= <- _]|].
    unfold bind, try_except. rewrite encrypt_run.
    destruct (encryption_failed _ _); cbn [is_EncryptionFailedError].
    + rewrite call_handler_run.
      by destruct (handle_failed_attachment_encryption env _).
    + cbn [ret local]. intros [= <- _]. by destruct filename, use_asc.
Qed.

Lemma for_each_attachments_exact address use_asc atts :
  forall acc s r s',
  for_each (fun acc attachment =>
              let* a := encrypt_attachment env address attachment use_asc in
              ret (acc ++ [a])) atts acc s = (Ok r, s') ->
  exists out,
    mapM (attachment_after env address use_asc) atts = Some out /\
    r = acc ++ out.
Proof.
  induction atts as [|att atts IH]; intros acc s r s'; cbn [for_each].
  - intros [= <- _]. exists []. by rewrite app_nil_r.
  - intros H. apply bind_Ok_inv in H as (acc1 & s1 & Hstep & H).
    apply bind_Ok_inv in Hstep as (a & s0 & Hatt & Hret).
    injection Hret as <- <-.
    apply encrypt_attachment_exact in Hatt.
    apply IH in H as (out & Hout & ->).
    exists (a :: out). split.
    + cbn. rewrite Hatt. cbn. by rewrite Hout.
    + by rewrite <- app_assoc.
Qed.

(** Marked content is a fixed point of the passes, and what a pass
    returns is marked. *)
Lemma alternatives_after_marked address alts :
  Forall (fun a : Alternative => snd a = gpg_encrypted) alts ->
  alternatives_after env address alts = alts.
Proof.
  induction 1 as [|item alts Hx _ IH]; [done|].
  unfold alternatives_after in *. cbn [flat_map]. rewrite IH.
  unfold alternative_after. by rewrite bool_decide_eq_true_2.
Qed.

Lemma alternatives_after_all_marked address alts :
  Forall (fun a : Alternative => snd a = gpg_encrypted)
         (alternatives_after env address alts).
Proof.
  induction alts as [|item alts IH]; [constructor|].
  unfold alternatives_after in *. cbn [flat_map].
  apply Forall_app. split; [|done].
  unfold alternative_after. case_bool_decide; [by repeat constructor|].
  destruct (encryption_failed _ _); by repeat constructor.
Qed.

Lemma attachment_after_marked address use_asc a :
  marked_attachment a -> attachment_after env address use_asc a = Some a.
Proof.
  destruct a as [path|filename content [mt|]]; try done.
  cbn. intros ->. by rewrite bool_decide_eq_true_2.
Qed.

Lemma attachment_after_is_marked address use_asc a r :
  attachment_after env address use_asc a = Some r -> marked_attachment r.
Proof.
  destruct a as [path|filename content mimetype]; cbn.
  - destruct (read_file env path); [|done].
    destruct (encryption_failed _ _); [done|]. by intros [= <-].
  - case_bool_decide as Hm.
    + intros [= <-]. by subst mimetype.
    + destruct (encryption_failed _ _); [done|]. by intros [= <-].
Qed.

Lemma mapM_attachment_after_marked address use_asc atts :
  Forall marked_attachment atts ->
  mapM (attachment_after env address use_asc) atts = Some atts.
Proof.
  induction 1 as [|a atts Ha _ IH]; [done|].
  cbn. rewrite (attachment_after_marked _ _ _ Ha). cbn. by rewrite IH.
Qed.

Lemma mapM_attachment_after_all_marked address use_asc atts out :
  mapM (attachment_after env address use_asc) atts = Some out ->
  Forall marked_attachment out.
Proof.
  intros H. apply mapM_Some in H.
  induction H as [|a r atts out Hr _ IH]; constructor; [|done].
  by eapply attachment_after_is_marked.
Qed.

(** The pass for one address, in full. *)
Lemma encrypt_for_address_content
    msg new_msg u e a use_asc s m nm u' e' s' :
  heap s !! msg = Some m ->
  heap s !! new_msg = Some nm ->
  do_not_encrypt_this_message m = false ->
  encrypt_for_address env msg new_msg (u, e) (a, use_asc) s
    = (Ok (u', e'), s') ->
  exists nm',
    heap s' = <[new_msg := nm']> (heap s) /\
    alternatives nm' = alternatives_after env a (alternatives nm) /\
    mapM (attachment_after env a use_asc) (attachments nm)
      = Some (attachments nm').
Proof.
  intros Hm Hnm Hflag. unfold encrypt_for_address.
  rewrite (bind_Ok _ _ _ _ _ (deref_run _ _ _ Hm)), Hflag.
  rewrite (bind_Ok _ _ _ _ _ (deref_run _ _ _ Hnm)).
  intros H.
  apply bind_Ok_inv in H as ([] & s1 & Hbody & H).
  apply (body_pass_spec _ _ _ _ _ _ Hnm) in Hbody as [Hh1 _].
  assert (Hlen : new_msg < length (heap s)) by by eapply lookup_lt_Some.
  set (nm1 := set_body (body_after env (body nm) a) nm) in *.
  assert (Hnm1 : heap s1 !! new_msg = Some nm1).
  { rewrite Hh1. by apply list_lookup_insert_eq. }
  rewrite (bind_Ok _ _ _ _ _ (deref_run _ _ _ Hnm1)) in H.
  apply bind_Ok_inv in H as (alts & s2 & Halts & H).
  pose proof (store_preserved_for_each _ _
                (store_preserved_encrypt_alternative env a) _ _ _ _ Halts)
    as [Hh2 _].
  apply for_each_alternatives_exact in Halts. cbn [app] in Halts.
  assert (Hnm2 : heap s2 !! new_msg = Some nm1) by by rewrite Hh2.
  rewrite (bind_Ok _ _ _ _ _ (setattr_run _ _ _ _ Hnm2)) in H.
  set (nm2 := set_alternatives alts nm1) in *.
  match type of H with bind _ _ ?st = _ => set (s3 := st) in * end.
  assert (Hnm3 : heap s3 !! new_msg = Some nm2).
  { subst s3. cbn [heap]. apply list_lookup_insert_eq.
    by rewrite Hh2, Hh1, length_insert. }
  rewrite (bind_Ok _ _ _ _ _ (deref_run _ _ _ Hnm3)) in H.
  apply bind_Ok_inv in H as (atts & s4 & Hatts & H).
  assert (Hh4 : heap s4 = heap s3).
  { eapply store_preserved_for_each in Hatts as [Hh4 _]; [done|].
    intros acc x. apply store_preserved_bind;
      [apply store_preserved_encrypt_attachment | auto with store]. }
  apply for_each_attachments_exact in Hatts as (out & Hout & Hr).
  cbn [app] in Hr. subst atts.
  assert (Hnm4 : heap s4 !! new_msg = Some nm2) by by rewrite Hh4.
  rewrite (bind_Ok _ _ _ _ _ (setattr_run _ _ _ _ Hnm4)) in H.
  injection H as _ _ <-.
  exists (set_attachments out nm2). cbn [heap]. split; [|split].
  - rewrite Hh4. subst s3. cbn [heap]. rewrite Hh2, Hh1.
    by rewrite !list_insert_insert_eq.
  - by subst alts.
  - done.
Qed.

(** Once everything is marked, the later passes change neither the
    alternatives nor the attachments. *)
Lemma keyed_loop_content_fixed msg new_msg items :
  forall u e s m nm u' e' s',
  msg <> new_msg ->
  heap s !! msg = Some m ->
  heap s !! new_msg = Some nm ->
  do_not_encrypt_this_message m = false ->
  Forall (fun a : Alternative => snd a = gpg_encrypted) (alternatives nm) ->
  Forall marked_attachment (attachments nm) ->
  for_each (encrypt_for_address env msg new_msg) items (u, e) s
    = (Ok (u', e'), s') ->
  exists nm',
    heap s' = <[new_msg := nm']> (heap s) /\
    alternatives nm' = alternatives nm /\
    attachments nm' = attachments nm.
Proof.
  induction items as [|[a use_asc] items IH];
    intros u e s m nm u' e' s' Hne Hm Hnm Hflag Halts Hatts;
    cbn [for_each].
  - intros [= _ _ <-]. exists nm. split; [|done].
    symmetry. by apply list_insert_id.
  - intros H. apply bind_Ok_inv in H as ([u1 e1] & s1 & Hstep & H).
    apply (encrypt_for_address_content _ _ _ _ _ _ _ _ _ _ _ _ Hm Hnm Hflag)
      in Hstep as (nm1 & Hh1 & Ha1 & Hm1).
    rewrite alternatives_after_marked in Ha1 by done.
    rewrite mapM_attachment_after_marked in Hm1 by done.
    injection Hm1 as Hm1.
    assert (Hlen : new_msg < length (heap s)) by by eapply lookup_lt_Some.
    apply (IH _ _ _ m nm1) in H as (nm' & Hh' & Ha' & Ht'); try done.
    + exists nm'. split; [|split]; [|congruence..].
      by rewrite Hh', Hh1, list_insert_insert_eq.
    + rewrite Hh1. by rewrite list_lookup_insert_ne.
    + rewrite Hh1. by apply list_lookup_insert_eq.
    + by rewrite Ha1.
    + by rewrite <- Hm1.
Qed.

(** The alternatives and the attachments of the shared copy are those of
    the pass for the first address. *)
Lemma keyed_loop_content msg new_msg a1 use_asc1 rest
    u e s m nm u' e' s' :
  msg <> new_msg ->
  heap s !! msg = Some m ->
  heap s !! new_msg = Some nm ->
  do_not_encrypt_this_message m = false ->
  for_each (encrypt_for_address env msg new_msg) ((a1, use_asc1) :: rest)
           (u, e) s = (Ok (u', e'), s') ->
  exists nm',
    heap s' = <[new_msg := nm']> (heap s) /\
    alternatives nm' = alternatives_after env a1 (alternatives nm) /\
    mapM (attachment_after env a1 use_asc1) (attachments nm)
      = Some (attachments nm').
Proof.
  intros Hne Hm Hnm Hflag. cbn [for_each]. intros H.
  apply bind_Ok_inv in H as ([u1 e1] & s1 & Hstep & H).
  apply (encrypt_for_address_content _ _ _ _ _ _ _ _ _ _ _ _ Hm Hnm Hflag)
    in Hstep as (nm1 & Hh1 & Ha1 & Hm1).
  assert (Hlen : new_msg < length (heap s)) by by eapply lookup_lt_Some.
  apply (keyed_loop_content_fixed _ _ _ _ _ _ m nm1) in H
    as (nm' & Hh' & Ha' & Ht'); try done.
  - exists nm'. split; [|split]; [|congruence..].
    by rewrite Hh', Hh1, list_insert_insert_eq.
  - rewrite Hh1. by rewrite list_lookup_insert_ne.
  - rewrite Hh1. by apply list_lookup_insert_eq.
  - rewrite Ha1. apply alternatives_after_all_marked.
  - by eapply mapM_attachment_after_all_marked.
Qed.

(** One message, and where its second copy is when the run ends. *)
Lemma encrypt_message_content lists1 l s1 lists2 s2 m a1 use_asc1 rest :
  encrypt_message env lists1 l s1 = (Ok lists2, s2) ->
  heap s1 !! l = Some m ->
  do_not_encrypt_this_message m = false ->
  key_addrs_of env (to m) = (a1, use_asc1) :: rest ->
  exists nm,
    heap s2 = heap s1 ++ [unencrypted_copy env m; nm] /\
    alternatives nm = alternatives_after env a1 (alternatives m) /\
    mapM (attachment_after env a1 use_asc1) (attachments m)
      = Some (attachments nm).
Proof.
  intros Hstep Hm1 Hflag Hkeys.
  destruct lists1 as [u1 e1]. destruct lists2 as [u2 e2].
  assert (Hlt : l < length (heap s1)) by by eapply lookup_lt_Some.
  rewrite (encrypt_message_unfold env _ _ _ _ _ Hm1), Hkeys in Hstep.
  apply (keyed_loop_content _ _ _ _ _ _ _ _ m (keyed_copy env m)) in Hstep
    as (nm & Hh2 & Ha & Ht);
    [|lia|cbn [heap]; by apply lookup_app_l_Some
     |apply lookup_second_last|done].
  cbn [heap] in Hh2. rewrite insert_second_last in Hh2.
  by exists nm.
Qed.

Lemma encrypt_loop_second_copy batch i l s U E s' m :
  encrypt_loop env batch s = (Ok (U, E), s') ->
  batch !! i = Some l -> heap s !! l = Some m ->
  exists lists1 s1 lists2 s2,
    encrypt_message env lists1 l s1 = (Ok lists2, s2) /\
    heap s1 !! l = Some m /\
    forall uc nm,
      heap s2 = heap s1 ++ [uc; nm] ->
      heap s' !! keyed_ref (length (heap s)) i = Some nm.
Proof.
  intros Hloop Hi Hl.
  destruct (encrypt_loop_split env _ _ _ _ _ _ _ Hloop Hi)
    as (lists1 & s1 & lists2 & s2 & added1 & added2
        & _ & Hstep & _ & Hh1 & Hn1 & Hh').
  exists lists1, s1, lists2, s2. split; [done|]. split.
  { rewrite Hh1. by apply lookup_app_l_Some. }
  intros uc nm Hh2. rewrite Hh', Hh2. apply lookup_app_l_Some.
  replace (keyed_ref (length (heap s)) i) with (S (length (heap s1))).
  - apply lookup_second_last.
  - rewrite Hn1. unfold keyed_ref, unencrypted_ref. lia.
Qed.

(** X5. A message without the flag whose first keyed address, in the
    order of the dictionary, is [a1] with suffix policy [use_asc1]: in a
    run that returns, the alternatives and the attachments of its
    encrypted copy are those that the pass for [a1] made of the
    alternatives and attachments of the message.  Marked items are kept,
    an alternative whose encryption failed is left out, the others are
    replaced by their ciphertext for [a1] and marked, attachments being
    renamed under the policy of [a1]; the passes for the other keyed
    addresses change none of them. *)
Theorem encrypted_copy_content_is_first_pass
    batch s out s' i l m a1 use_asc1 rest :
  encrypt_messages env batch s = (Ok out, s') ->
  batch !! i = Some l -> heap s !! l = Some m ->
  do_not_encrypt_this_message m = false ->
  key_addrs_of env (to m) = (a1, use_asc1) :: rest ->
  exists nm,
    heap s' !! keyed_ref (length (heap s)) i = Some nm /\
    alternatives nm = alternatives_after env a1 (alternatives m) /\
    mapM (attachment_after env a1 use_asc1) (attachments m)
      = Some (attachments nm).
Proof.
  intros Hrun Hi Hl Hflag Hkeys.
  apply encrypt_messages_Ok_inv in Hrun as (U & E & Hloop & ->).
  destruct (encrypt_loop_second_copy _ _ _ _ _ _ _ _ Hloop Hi Hl)
    as (lists1 & s1 & lists2 & s2 & Hstep & Hm1 & Hlookup).
  destruct (encrypt_message_content _ _ _ _ _ _ _ _ _
              Hstep Hm1 Hflag Hkeys) as (nm & Hh2 & Ha & Ht).
  exists nm. split; [|done]. by eapply Hlookup.
Qed.

(** X6. In a run that returns, the encrypted copy of a message without
    the flag that has a keyed recipient holds no alternative and no
    attachment that is not marked [application/gpg-encrypted]. *)
Theorem encrypted_copy_is_all_marked
    batch s out s' i l m :
  encrypt_messages env batch s = (Ok out, s') ->
  batch !! i = Some l -> heap s !! l = Some m ->
  do_not_encrypt_this_message m = false ->
  keyed_to env m <> [] ->
  exists nm,
    heap s' !! keyed_ref (length (heap s)) i = Some nm /\
    Forall (fun a : Alternative => snd a = gpg_encrypted) (alternatives nm) /\
    Forall marked_attachment (attachments nm).
Proof.
  intros Hrun Hi Hl Hflag Hne.
  destruct (key_addrs_of env (to m)) as [|[a1 use_asc1] rest] eqn:Hkeys.
  { unfold keyed_to in Hne. by rewrite Hkeys in Hne. }
  apply encrypt_messages_Ok_inv in Hrun as (U & E & Hloop & ->).
  destruct (encrypt_loop_second_copy _ _ _ _ _ _ _ _ Hloop Hi Hl)
    as (lists1 & s1 & lists2 & s2 & Hstep & Hm1 & Hlookup).
  destruct (encrypt_message_content _ _ _ _ _ _ _ _ _
              Hstep Hm1 Hflag Hkeys) as (nm & Hh2 & Ha & Ht).
  exists nm. split; [by eapply Hlookup|]. split.
  - rewrite Ha. apply alternatives_after_all_marked.
  - by eapply mapM_attachment_after_all_marked.
Qed.

End Content.

(** ** A handler that raises *)

Section Abort.

Variable env : Env.

(** X7. When the engine fails on the body of a message for its first
    keyed address and the message handler raises [e'], the whole call of
    [encrypt_messages] ends in [e']: nothing is returned, neither for this
    message nor for the messages before it, which had been processed, nor
    for those after it.  With GnuPG enabled the encrypting [send_messages]
    ends in [e'] in the same state: the transport is not called and no
    message of the batch is sent. *)
Theorem raising_handler_aborts_the_batch
    before after msg s lists1 s1 m a use_asc rest e' :
  for_each (encrypt_message env) before ([], []) s = (Ok lists1, s1) ->
  heap s !! msg = Some m ->
  do_not_encrypt_this_message m = false ->
  key_addrs_of env (to m) = (a, use_asc) :: rest ->
  encryption_failed (gpg_encrypt env (Text (body m)) a) (Text (body m)) = true ->
  handle_failed_message_encryption env
    (EncryptionFailedError a (status (gpg_encrypt env (Text (body m)) a)))
    = Some e' ->
  let s2 :=
    mkState (heap s1 ++ [unencrypted_copy env m; keyed_copy env m])
            (trace s1 ++
             [GpgEncrypt (Text (body m)) a;
              HandlerCalled MessageEncryption
                (EncryptionFailedError a
                   (status (gpg_encrypt env (Text (body m)) a)))]) in
  encrypt_messages env (before ++ msg :: after) s = (Raise e', s2) /\
  (USE_GNUPG env = true ->
   EncryptingEmailBackendMixin_send_messages env (before ++ msg :: after) s
     = (Raise e', s2)).
Proof.
  intros Hbefore Hm Hflag Hkeys Hfail Hhandler s2.
  destruct lists1 as [u1 e1].
  pose proof (encrypt_batch_spec env _ _ _ _ _ _ _ Hbefore)
    as (_ & _ & _ & added & _ & _ & _ & Hh1 & _).
  assert (Hm1 : heap s1 !! msg = Some m).
  { rewrite Hh1. by apply lookup_app_l_Some. }
  assert (Hrun : encrypt_messages env (before ++ msg :: after) s
                 = (Raise e', s2)).
  { unfold encrypt_messages, encrypt_loop.
    apply bind_Raise. rewrite for_each_app.
    rewrite (bind_Ok _ _ _ _ _ Hbefore). cbn [for_each].
    apply bind_Raise.
    rewrite (encrypt_message_unfold env _ _ _ _ _ Hm1), Hkeys.
    cbn [for_each]. apply bind_Raise.
    unfold encrypt_for_address.
    erewrite bind_Ok; cycle 1.
    { apply deref_run. cbn [heap]. by apply lookup_app_l_Some. }
    rewrite Hflag.
    erewrite bind_Ok; cycle 1.
    { apply deref_run. cbn [heap]. apply lookup_second_last. }
    apply bind_Raise.
    unfold try_except, bind. rewrite encrypt_run.
    change (body (keyed_copy env m)) with (body m).
    rewrite Hfail. cbn [is_EncryptionFailedError].
    rewrite call_handler_run, Hhandler. cbn [heap trace].
    unfold s2. by rewrite <- app_assoc. }
  split; [done|]. intros Hon.
  unfold EncryptingEmailBackendMixin_send_messages. rewrite Hon.
  by apply bind_Raise.
Qed.

End Abort.

(** ** Signing in place *)

Section SignMessages.

Variable env : Env.

Lemma sign_calls_agree (hp hp' : list Message) batch :
  (forall l, l ∈ batch -> hp' !! l = hp !! l) ->
  sign_calls hp' batch = sign_calls hp batch.
Proof.
  induction batch as [|l batch IH]; intros Hagree; [done|].
  unfold sign_calls in *. cbn [flat_map].
  rewrite Hagree by by left. f_equal. apply IH.
  intros l' Hl'. apply Hagree. by right.
Qed.

Lemma sign_message_run l s m :
  heap s !! l = Some m -> signs env m ->
  (let* m := deref l in
   let* b := sign env (body m) in setattr l (set_body b)) s
  = (Ok tt, mkState (<[l := signed env m]> (heap s))
                    (trace s ++ [GpgSign (body m)])).
Proof.
  intros Hl Hs. rewrite (bind_Ok _ _ _ _ _ (deref_run _ _ _ Hl)).
  unfold bind. rewrite sign_run. unfold signs in Hs.
  rewrite bool_decide_eq_true_2 by done.
  unfold setattr. cbn [heap trace]. by rewrite Hl.
Qed.

Lemma sign_message_fails l s m :
  heap s !! l = Some m -> ~ signs env m ->
  (let* m := deref l in
   let* b := sign env (body m) in setattr l (set_body b)) s
  = (Raise (NameError "addr"),
     mkState (heap s) (trace s ++ [GpgSign (body m)])).
Proof.
  intros Hl Hs. rewrite (bind_Ok _ _ _ _ _ (deref_run _ _ _ Hl)).
  unfold bind. rewrite sign_run. unfold signs in Hs.
  by rewrite bool_decide_eq_false_2.
Qed.

Lemma sign_loop_run batch :
  forall s,
  NoDup batch ->
  (forall l, l ∈ batch -> exists m, heap s !! l = Some m /\ signs env m) ->
  exists s',
    for_each (fun (_ : unit) msg =>
                let* m := deref msg in
                let* b := sign env (body m) in
                setattr msg (set_body b)) batch tt s = (Ok tt, s') /\
    length (heap s') = length (heap s) /\
    (forall l m, l ∈ batch -> heap s !! l = Some m ->
                 heap s' !! l = Some (signed env m)) /\
    (forall l, l ∉ batch -> heap s' !! l = heap s !! l) /\
    trace s' = trace s ++ sign_calls (heap s) batch.
Proof.
  induction batch as [|l batch IH]; intros s Hnd Hall; cbn [for_each].
  - exists s. split; [done|]. split; [done|].
    split; [intros l m Hin; by apply elem_of_nil in Hin|].
    split; [done|]. unfold sign_calls. cbn [flat_map]. by rewrite app_nil_r.
  - apply NoDup_cons in Hnd as [Hnotin Hnd].
    destruct (Hall l) as (m & Hl & Hs); [by left|].
    rewrite (bind_Ok _ _ _ _ _ (sign_message_run _ _ _ Hl Hs)).
    set (s1 := mkState _ _).
    assert (Hother : forall l', l' <> l -> heap s1 !! l' = heap s !! l').
    { intros l' Hne. subst s1. cbn [heap]. by rewrite list_lookup_insert_ne. }
    assert (Hrest : forall l', l' ∈ batch -> heap s1 !! l' = heap s !! l').
    { intros l' Hin. apply Hother. intros ->. done. }
    destruct (IH s1 Hnd) as (s' & Hrun & Hlen & Hin & Hout & Ht).
    { intros l' Hl'. rewrite (Hrest l' Hl'). apply Hall. by right. }
    exists s'. split; [done|]. split; [|split; [|split]].
    + rewrite Hlen. subst s1. cbn [heap]. by rewrite length_insert.
    + intros l' m' Hl' Hm'. apply elem_of_cons in Hl' as [->|Hl'].
      * rewrite (Hout l Hnotin). subst s1. cbn [heap].
        assert (m' = m) as -> by congruence.
        apply list_lookup_insert_eq. by eapply lookup_lt_Some.
      * apply Hin; [done|]. by rewrite (Hrest l' Hl').
    + intros l' Hl'. apply not_elem_of_cons in Hl' as [Hne Hl'].
      rewrite (Hout l' Hl'). by apply Hother.
    + rewrite Ht. subst s1. cbn [heap trace].
      rewrite (sign_calls_agree (heap s)) by
        (intros l' Hl'; apply list_lookup_insert_ne; by intros ->).
      unfold sign_calls. cbn [flat_map]. rewrite Hl.
      by rewrite <- app_assoc.
Qed.

(** X8. For a batch of distinct references to messages whose bodies the
    engine signs, [sign_messages] returns the list it was given, after
    having replaced, in the store, the body of every message of the batch
    by the signature of that body; the other attributes of these messages
    and every other object stay as they were, and the engine has been
    called once for each message, in the order of the batch.  The caller's
    messages themselves are modified: no copy is made. *)
Theorem sign_messages_signs_in_place batch s :
  NoDup batch ->
  (forall l, l ∈ batch -> exists m, heap s !! l = Some m /\ signs env m) ->
  exists s',
    sign_messages env batch s = (Ok batch, s') /\
    length (heap s') = length (heap s) /\
    (forall l m, l ∈ batch -> heap s !! l = Some m ->
                 heap s' !! l = Some (signed env m)) /\
    (forall l, l ∉ batch -> heap s' !! l = heap s !! l) /\
    trace s' = trace s ++ sign_calls (heap s) batch.
Proof.
  intros Hnd Hall.
  destruct (sign_loop_run batch s Hnd Hall) as (s' & Hrun & Hrest).
  exists s'. split; [|done].
  unfold sign_messages. by rewrite (bind_Ok _ _ _ _ _ Hrun).
Qed.

(** X9. When the engine signs the bodies of the first messages of a batch
    but not the body of the next one, [sign_messages] ends in [NameError]
    and leaves the store half done: the messages before the failing one
    keep their signed bodies, the failing one and the ones after it are as
    they were.  With GnuPG enabled the signing [send_messages] ends the
    same way, so nothing is sent although messages of the caller have been
    modified. *)
Theorem sign_messages_failure_leaves_signed_prefix
    before msg after s m :
  NoDup (before ++ [msg]) ->
  (forall l, l ∈ before -> exists m', heap s !! l = Some m' /\ signs env m') ->
  heap s !! msg = Some m ->
  ~ signs env m ->
  exists s',
    sign_messages env (before ++ msg :: after) s
      = (Raise (NameError "addr"), s') /\
    (USE_GNUPG env = true ->
     SigningEmailBackendMixin_send_messages env (before ++ msg :: after) s
       = (Raise (NameError "addr"), s')) /\
    (forall l m', l ∈ before -> heap s !! l = Some m' ->
                  heap s' !! l = Some (signed env m')) /\
    (forall l, l ∉ before -> heap s' !! l = heap s !! l) /\
    trace s' = trace s ++ sign_calls (heap s) (before ++ [msg]).
Proof.
  intros Hnd Hall Hm Hfail.
  apply NoDup_app in Hnd as (Hndb & Hdisj & _).
  assert (Hnotin : msg ∉ before).
  { intros Hin. apply (Hdisj msg Hin). by left. }
  destruct (sign_loop_run before s Hndb Hall)
    as (s1 & Hrun & Hlen & Hin & Hout & Ht).
  assert (Hm1 : heap s1 !! msg = Some m) by by rewrite (Hout msg Hnotin).
  pose proof (sign_message_fails _ _ _ Hm1 Hfail) as Hstep.
  set (s' := mkState _ _) in Hstep.
  assert (Hraise : sign_messages env (before ++ msg :: after) s
                   = (Raise (NameError "addr"), s')).
  { unfold sign_messages. apply bind_Raise. rewrite for_each_app.
    rewrite (bind_Ok _ _ _ _ _ Hrun). cbn [for_each].
    by apply bind_Raise. }
  exists s'. split; [done|]. split.
  { intros Hon. unfold SigningEmailBackendMixin_send_messages.
    rewrite Hon. by apply bind_Raise. }
  subst s'. cbn [heap trace]. split; [done|]. split; [done|].
  rewrite Ht. unfold sign_calls. rewrite flat_map_app. cbn [flat_map].
  rewrite Hm. cbn [app]. by rewrite <- app_assoc.
Qed.

End SignMessages.

(** ** The addresses of a key *)

Lemma append_cons x r s : String x r +:+ s = String x (r +:+ s).
Proof. reflexivity. Qed.

Lemma append_nil_r s : s +:+ EmptyString = s.
Proof.
  induction s as [|x r IH]; [done|]. by rewrite append_cons, IH.
Qed.

Lemma append_assoc s1 s2 s3 : (s1 +:+ s2) +:+ s3 = s1 +:+ (s2 +:+ s3).
Proof.
  induction s1 as [|x r IH]; [done|]. by rewrite !append_cons, IH.
Qed.

Lemma last_piece_from_none c s : forall acc,
  occurs c s = false -> last_piece_from c acc s = acc +:+ s.
Proof.
  induction s as [|x r IH]; intros acc; cbn [occurs last_piece_from].
  - intros _. by rewrite append_nil_r.
  - destruct (Ascii.eqb x c); [done|]. cbn [orb]. intros Hr.
    rewrite IH by done. by rewrite append_assoc.
Qed.

Lemma last_piece_from_app c s1 s2 : forall acc,
  last_piece_from c acc (s1 +:+ String c s2)
  = last_piece_from c EmptyString s2.
Proof.
  induction s1 as [|x r IH]; intros acc.
  - change (EmptyString +:+ String c s2) with (String c s2).
    cbn [last_piece_from]. by rewrite Ascii.eqb_refl.
  - rewrite append_cons. cbn [last_piece_from].
    destruct (Ascii.eqb x c); apply IH.
Qed.

Lemma occurs_app c s1 s2 :
  occurs c (s1 +:+ s2) = occurs c s1 || occurs c s2.
Proof.
  induction s1 as [|x r IH]; [done|].
  rewrite append_cons. cbn [occurs]. rewrite IH. by rewrite orb_assoc.
Qed.

Lemma last_piece_from_no_occurrence c s : forall acc,
  occurs c acc = false -> occurs c (last_piece_from c acc s) = false.
Proof.
  induction s as [|x r IH]; intros acc Hacc; cbn [last_piece_from]; [done|].
  destruct (Ascii.eqb x c) eqn:E; apply IH; [done|].
  rewrite occurs_app, Hacc. cbn [occurs orb]. by rewrite E.
Qed.

Lemma occurs_lstrip c d s :
  occurs c s = false -> occurs c (lstrip d s) = false.
Proof.
  induction s as [|x r IH]; [done|]. cbn [lstrip occurs].
  destruct (Ascii.eqb x d); [|done].
  intros H. apply orb_false_iff in H as [_ H]. by apply IH.
Qed.

Lemma occurs_rstrip c d s :
  occurs c s = false -> occurs c (rstrip d s) = false.
Proof.
  induction s as [|x r IH]; [done|]. cbn [rstrip occurs].
  intros H. apply orb_false_iff in H as [Hx H]. specialize (IH H).
  destruct (rstrip d r) as [|y r'].
  - destruct (Ascii.eqb x d); [done|]. cbn [occurs]. by rewrite Hx.
  - cbn [occurs] in *. by rewrite Hx.
Qed.

Lemma rstrip_one c s :
  occurs c s = false -> rstrip c (s +:+ String c EmptyString) = s.
Proof.
  induction s as [|x r IH].
  - intros _. change (EmptyString +:+ String c EmptyString)
      with (String c EmptyString).
    cbn [rstrip]. by rewrite Ascii.eqb_refl.
  - cbn [occurs]. intros H. apply orb_false_iff in H as [Hx H].
    rewrite append_cons. cbn [rstrip]. rewrite (IH H).
    destruct r; [by rewrite Hx|done].
Qed.

Lemma lstrip_not_first c x r :
  Ascii.eqb x c = false -> lstrip c (String x r) = String x r.
Proof. intros H. cbn [lstrip]. by rewrite H. Qed.

(** The address of a well-formed user id is what stands between its angle
    brackets. *)
Lemma address_of_uid_of name addr :
  occurs "<" addr = false -> occurs ">" addr = false ->
  address_of_uid (uid_of name addr) = addr.
Proof.
  intros Hlt Hgt. unfold address_of_uid, uid_of, last_piece, strip.
  replace (name +:+ " <" +:+ addr +:+ ">")
    with ((name +:+ " ") +:+ String "<" (addr +:+ ">"))
    by (by rewrite append_assoc).
  rewrite last_piece_from_app.
  rewrite last_piece_from_none by (by rewrite occurs_app, Hlt).
  change (EmptyString +:+ addr +:+ ">") with (addr +:+ ">").
  destruct addr as [|x r]; [done|].
  cbn [occurs] in Hgt. apply orb_false_iff in Hgt as [Hx Hr].
  rewrite append_cons, (lstrip_not_first _ _ _ Hx), <- append_cons.
  apply rstrip_one. cbn [occurs]. by rewrite Hx, Hr.
Qed.

(** X10. For a key of the map whose user ids all have the form
    [name <address>], the addresses holding no angle bracket,
    [addresses_for_key] returns these addresses, in the order of the user
    ids. *)
Theorem addresses_for_key_of_well_formed_uids
    key_map fingerprint (entries : list (string * string)) :
  key_map fingerprint
    = Some (map (fun e => uid_of (fst e) (snd e)) entries) ->
  Forall (fun e => occurs "<" (snd e) = false /\ occurs ">" (snd e) = false)
         entries ->
  addresses_for_key key_map fingerprint = Some (map snd entries).
Proof.
  intros Hmap Hclean. unfold addresses_for_key. rewrite Hmap. f_equal.
  clear Hmap. induction Hclean as [|[name addr] entries [Hlt Hgt] _ IH]; [done|].
  cbn [map fst snd] in *. rewrite filter_cons.
  rewrite decide_True.
  - cbn [map]. by rewrite IH, address_of_uid_of.
  - unfold uid_of. by destruct name.
Qed.

(** X11. Whatever the user ids of a key, [addresses_for_key] returns one
    address for each user id that is not the empty string, none for the
    empty ones, and no address it returns holds an opening angle bracket;
    for a fingerprint that the map does not have it fails. *)
Theorem addresses_for_key_shape key_map fingerprint :
  match key_map fingerprint with
  | Some uids =>
      exists addrs,
        addresses_for_key key_map fingerprint = Some addrs /\
        length addrs
          = length (filter (fun address => address <> EmptyString) uids) /\
        Forall (fun a => occurs "<" a = false) addrs
  | None => addresses_for_key key_map fingerprint = None
  end.
Proof.
  unfold addresses_for_key.
  destruct (key_map fingerprint) as [uids|]; [|done].
  eexists. split; [done|]. split; [by rewrite length_map|].
  apply Forall_forall. intros a Ha.
  apply list_elem_of_In, in_map_iff in Ha as (uid & <- & _).
  unfold address_of_uid, strip, last_piece.
  apply occurs_rstrip, occurs_lstrip.
  by apply last_piece_from_no_occurrence.
Qed.

(** ** Several rows for one address *)

Lemma dict_set_elem {V} (d : list (string * V)) k v k' v' :
  NoDup d.*1 ->
  (k', v') ∈ dict_set d k v <->
  (k' = k /\ v' = v) \/ (k' <> k /\ (k', v') ∈ d).
Proof.
  induction d as [|[k0 v0] d IH]; cbn [dict_set]; intros Hnd.
  - rewrite list_elem_of_singleton, elem_of_nil. split.
    + intros [= -> ->]. by left.
    + intros [[-> ->]|[_ []]]. done.
  - cbn [fmap list_fmap fst] in Hnd.
    apply NoDup_cons in Hnd as [Hnotin Hnd]. case_decide as Hk.
    + subst k0. rewrite !elem_of_cons. split.
      * intros [[= -> ->]|Hin]; [by left|]. right. split; [|by right].
        intros ->. apply Hnotin. apply list_elem_of_fmap. by exists (k, v').
      * intros [[-> ->]|[Hne [[= -> ->]|Hin]]]; [by left|done|by right].
    + rewrite !elem_of_cons, (IH Hnd). split.
      * intros [[= -> ->]|[[-> ->]|[Hne Hin]]].
        -- right. split; [done|by left].
        -- by left.
        -- right. split; [done|by right].
      * intros [[-> ->]|[Hne [[= -> ->]|Hin]]].
        -- right. by left.
        -- by left.
        -- right. right. done.
Qed.

Lemma last_value_None {V} k (pairs : list (string * V)) :
  last_value k pairs = None <-> k ∉ pairs.*1.
Proof.
  induction pairs as [|[k' v'] rest IH]; cbn [last_value fmap list_fmap fst].
  - split; [intros _ Hin; by apply elem_of_nil in Hin|done].
  - rewrite not_elem_of_cons, <- IH.
    destruct (last_value k rest); [split; [done|by intros [_ ?]]|].
    case_decide as Hk.
    + split; [done|]. intros [Hne _]. by subst k'.
    + split; [|done]. intros _. split; [|done]. by intros ->.
Qed.

Lemma last_value_split {V} k v (pairs : list (string * V)) :
  last_value k pairs = Some v <->
  exists pre post, pairs = pre ++ (k, v) :: post /\ k ∉ post.*1.
Proof.
  split.
  - induction pairs as [|[k' v'] rest IH]; cbn [last_value]; [done|].
    destruct (last_value k rest) as [v0|] eqn:E.
    + intros [= ->]. destruct (IH eq_refl) as (pre & post & -> & Hpost).
      by exists ((k', v') :: pre), post.
    + case_decide; [|done]. intros [= ->]. subst k'.
      exists [], rest. split; [done|]. by apply last_value_None.
  - intros (pre & post & -> & Hpost).
    induction pre as [|[k' v'] pre IH]; cbn [app last_value].
    + apply last_value_None in Hpost. rewrite Hpost. by rewrite decide_True.
    + by rewrite IH.
Qed.

Lemma dict_elem_last_value {V} (pairs : list (string * V)) k v :
  (k, v) ∈ dict pairs <-> last_value k pairs = Some v.
Proof.
  unfold dict.
  assert (Hgen : forall d0 : list (string * V),
    NoDup d0.*1 ->
    ((k, v) ∈ fold_left (fun d kv => dict_set d kv.1 kv.2) pairs d0 <->
     last_value k pairs = Some v \/
     (last_value k pairs = None /\ (k, v) ∈ d0))).
  { induction pairs as [|[k1 v1] rest IH]; intros d0 Hnd;
      cbn [fold_left last_value].
    - split; [by right|]. by intros [?|[_ ?]].
    - rewrite (IH _ (dict_set_NoDup _ _ _ Hnd)). cbn [fst snd].
      rewrite (dict_set_elem _ _ _ _ _ Hnd).
      destruct (last_value k rest) as [v0|]; [split; intros [?|[? _]]; by auto|].
      case_decide as Hk.
      + subst k1. split.
        * intros [?|[_ [[_ ->]|[? _]]]]; try done. by left.
        * intros [[= ->]|[? _]]; [|done]. right. split; [done|]. by left.
      + split.
        * intros [?|[_ [[-> _]|[_ ?]]]]; try done. by right.
        * intros [?|[_ ?]]; [done|]. right. split; [done|]. right.
          split; [by intros ->|done]. }
  rewrite (Hgen [] (NoDup_nil_2)). split; [|by left].
  intros [?|[_ Hin]]; [done|]. by apply elem_of_nil in Hin.
Qed.

Lemma last_value_filter_key {V} (recipients : list string) k
    (pairs : list (string * V)) :
  last_value k (filter (fun row => fst row ∈ recipients) pairs)
  = if decide (k ∈ recipients) then last_value k pairs else None.
Proof.
  induction pairs as [|[k' v'] rest IH]; [by case_decide|].
  rewrite filter_cons. cbn [fst last_value].
  destruct (decide (k' ∈ recipients)) as [Hk'|Hk']; cbn [last_value];
    rewrite IH.
  - destruct (decide (k ∈ recipients)) as [Hk|Hk]; [done|].
    case_decide; [by subst k'|done].
  - destruct (decide (k ∈ recipients)) as [Hk|Hk]; [|done].
    destruct (last_value k rest); [done|].
    case_decide; [by subst k'|done].
Qed.

(** X12. The dictionary of the keyed recipients has one item for each
    address of the recipients that the table has a row for, and the
    suffix policy of the item is that of the last row of the table for
    the address: when the table has several rows for one address the
    last one decides, and the address is still processed once. *)
Theorem key_addrs_last_row_decides env recipients :
  NoDup (dict_keys (key_addrs_of env recipients)) /\
  forall a use_asc,
    (a, use_asc) ∈ key_addrs_of env recipients <->
    a ∈ recipients /\
    exists pre post,
      Address_objects env = pre ++ (a, use_asc) :: post /\ a ∉ post.*1.
Proof.
  split; [apply dict_keys_spec|].
  intros a use_asc. unfold key_addrs_of.
  rewrite dict_elem_last_value.
  rewrite last_value_filter_key.
  rewrite <- last_value_split.
  case_decide as Hin.
  - split; [by intros ?|by intros [_ ?]].
  - split; [done|by intros [? _]].
Qed.

(** ** What the output refers to *)

Section Fresh.

Variable env : Env.

(** X13. A run of [encrypt_messages] that returns has added two objects
    to the store for each message of the batch, and every entry of its
    output refers to one of these new objects: the messages that the
    caller passed are never in the output themselves. *)
Theorem output_holds_only_new_copies batch s out s' :
  encrypt_messages env batch s = (Ok out, s') ->
  length (heap s') = length (heap s) + 2 * length batch /\
  Forall (fun x => length (heap s) <= x < length (heap s')) out /\
  forall l, is_Some (heap s !! l) -> l ∉ out.
Proof.
  intros Hrun.
  apply encrypt_messages_Ok_inv in Hrun as (U & E & Hloop & ->).
  unfold encrypt_loop in Hloop.
  apply encrypt_batch_spec in Hloop
    as (cu & ce & evs & added & -> & -> & _ & Hh & Hlen & Hrange & _).
  cbn [app] in *.
  assert (Hl' : length (heap s') = length (heap s) + 2 * length batch).
  { by rewrite Hh, length_app, Hlen. }
  split; [done|]. split; [by rewrite Hl'|].
  intros l [m Hl] Hin. apply lookup_lt_Some in Hl.
  rewrite Forall_forall in Hrange. apply Hrange in Hin. lia.
Qed.

End Fresh.

(** ** The engine calls of a run *)











Section KeyedOnly.

Variable env : Env.









End KeyedOnly.

(** ** The further statements on concrete sites *)

Lemma demo_env_reliable_engine : engine_reliable demo_env_reliable.
Proof. intros text addr. reflexivity. Qed.

Lemma keyless_message_one_unencrypted_copy_witness :
  let env := demo_env true in
  let m := demo_message ["a@x.com"; "z@x.com"] false in
  let s := demo_state [m] in
  let s' := snd (encrypt_messages env [0] s) in
  exists U E,
    encrypt_loop env [0] s = (Ok (U, E), s') /\ [1] = U ++ E /\
    count_occ Nat.eq_dec U (unencrypted_ref (length (heap s)) 0) = 1 /\
    (unencrypted_ref (length (heap s)) 0 ∉ E) /\
    (keyed_ref (length (heap s)) 0 ∉ [1]) /\
    exists um,
      heap s' !! unencrypted_ref (length (heap s)) 0 = Some um /\
      to um = to m /\ cc um = cc m /\ bcc um = bcc m /\
      reply_to um = reply_to m /\ subject um = subject m /\
      body um = body m /\ alternatives um = alternatives m /\
      extra_headers um = extra_headers m /\ connection um = connection m.
Proof.
  intros env m s s'.
  apply (keyless_message_one_unencrypted_copy env [0] s [1] s' 0 0 m);
    [by vm_compute | reflexivity | reflexivity | discriminate
    | apply Forall_forall; by_computation].
Defined.

Lemma message_without_to_is_dropped_witness :
  let env := demo_env true in
  let s := demo_state [demo_plain_message [] "hello"] in
  (unencrypted_ref (length (heap s)) 0 ∉ @nil nat) /\
  (keyed_ref (length (heap s)) 0 ∉ @nil nat).
Proof.
  intros env s.
  apply (message_without_to_is_dropped env [0] s []
           (snd (encrypt_messages env [0] s)) 0 0
           (demo_plain_message [] "hello"));
    [by vm_compute | reflexivity | reflexivity | reflexivity].
Defined.

Lemma encrypt_messages_keeps_the_store_witness :
  let s := demo_state [demo_plain_message ["bad@x.com"] "hello"] in
  let run := encrypt_messages demo_env_strict [0] s in
  heap s `prefix_of` heap (snd run) /\
  forall l m, heap s !! l = Some m -> heap (snd run) !! l = Some m.
Proof.
  intros s run.
  apply (encrypt_messages_keeps_the_store demo_env_strict [0] s (fst run)).
  by vm_compute.
Defined.

Lemma failed_body_is_sent_in_clear_witness :
  let env := demo_env true in
  let m := demo_plain_message ["bad@x.com"] "hello" in
  let s := demo_state [m] in
  let s' := snd (encrypt_messages env [0] s) in
  exists U E nm,
    encrypt_loop env [0] s = (Ok (U, E), s') /\ [2] = U ++ E /\
    keyed_ref (length (heap s)) 0 ∈ E /\
    heap s' !! keyed_ref (length (heap s)) 0 = Some nm /\
    to nm = keyed_to env m /\
    body nm = body m.
Proof.
  intros env m s s'.
  apply (failed_body_is_sent_in_clear env [0] s [2] s' 0 0 m);
    [by vm_compute | reflexivity | reflexivity | reflexivity | discriminate
    | apply Forall_forall; by_computation].
Defined.

Lemma encrypted_copy_content_is_first_pass_witness :
  let env := demo_env_reliable in
  let m := mkMessage ["c@x.com"; "b@x.com"] [] [] [] "me@x.com" "hi" "hello"
             [("<p>hello</p>", "text/html"); ("old", gpg_encrypted)]
             [AttachmentPath "/tmp/report.pdf";
              AttachmentTriple None (Text "raw") None] [] None false in
  let s := demo_state [m] in
  let s' := snd (encrypt_messages env [0] s) in
  exists nm,
    heap s' !! keyed_ref (length (heap s)) 0 = Some nm /\
    alternatives nm = alternatives_after env "b@x.com" (alternatives m) /\
    mapM (attachment_after env "b@x.com" false) (attachments m)
      = Some (attachments nm).
Proof.
  intros env m s s'.
  apply (encrypted_copy_content_is_first_pass env [0] s [2; 2] s' 0 0 m
           "b@x.com" false [("c@x.com", false)]);
    [by vm_compute | reflexivity | reflexivity | reflexivity | by vm_compute].
Defined.

Lemma encrypted_copy_is_all_marked_witness :
  let env := demo_env true in
  let m := demo_message ["a@x.com"; "b@x.com"] false in
  let s := demo_state [m] in
  let s' := snd (encrypt_messages env [0] s) in
  exists nm,
    heap s' !! keyed_ref (length (heap s)) 0 = Some nm /\
    Forall (fun a : Alternative => snd a = gpg_encrypted) (alternatives nm) /\
    Forall marked_attachment (attachments nm).
Proof.
  intros env m s s'.
  apply (encrypted_copy_is_all_marked env [0] s [1; 2] s' 0 0 m);
    [by vm_compute | reflexivity | reflexivity | reflexivity | by vm_compute].
Defined.

Lemma raising_handler_aborts_the_batch_witness :
  let env := demo_env_strict in
  let m0 := demo_plain_message ["b@x.com"] "first" in
  let m := demo_plain_message ["a@x.com"; "bad@x.com"] "second" in
  let s := demo_state [m0; m] in
  let s1 := snd (for_each (encrypt_message env) [0] ([], []) s) in
  let e' := EncryptionFailedError "bad@x.com" "invalid recipient" in
  let s2 :=
    mkState (heap s1 ++ [unencrypted_copy env m; keyed_copy env m])
            (trace s1 ++
             [GpgEncrypt (Text (body m)) "bad@x.com";
              HandlerCalled MessageEncryption
                (EncryptionFailedError "bad@x.com"
                   (status (gpg_encrypt env (Text (body m)) "bad@x.com")))]) in
  encrypt_messages env ([0] ++ 1 :: [0]) s = (Raise e', s2) /\
  (USE_GNUPG env = true ->
   EncryptingEmailBackendMixin_send_messages env ([0] ++ 1 :: [0]) s
     = (Raise e', s2)).
Proof.
  intros env m0 m s s1 e'.
  apply (raising_handler_aborts_the_batch env [0] [0] 1 s ([], [3]) s1 m
           "bad@x.com" false [] e');
    [by vm_compute | reflexivity | reflexivity | by vm_compute
    | reflexivity | reflexivity].
Defined.

Lemma sign_messages_signs_in_place_witness :
  let env := demo_env true in
  let s := demo_state [demo_plain_message ["a@x.com"] "one";
                       demo_plain_message ["b@x.com"] "two";
                       demo_plain_message ["c@x.com"] "three"] in
  exists s',
    sign_messages env [2; 0] s = (Ok [2; 0], s') /\
    length (heap s') = length (heap s) /\
    (forall l m, l ∈ [2; 0] -> heap s !! l = Some m ->
                 heap s' !! l = Some (signed env m)) /\
    (forall l, l ∉ [2; 0] -> heap s' !! l = heap s !! l) /\
    trace s' = trace s ++ sign_calls (heap s) [2; 0].
Proof.
  intros env s.
  apply (sign_messages_signs_in_place env [2; 0] s).
  - by_computation.
  - apply Forall_forall. repeat constructor; by eexists.
Defined.

Lemma sign_messages_failure_leaves_signed_prefix_witness :
  let env := demo_env true in
  let m := demo_plain_message ["b@x.com"] "unsignable" in
  let s := demo_state [demo_plain_message ["a@x.com"] "one"; m;
                       demo_plain_message ["c@x.com"] "three"] in
  exists s',
    sign_messages env ([0] ++ 1 :: [2]) s
      = (Raise (NameError "addr"), s') /\
    (USE_GNUPG env = true ->
     SigningEmailBackendMixin_send_messages env ([0] ++ 1 :: [2]) s
       = (Raise (NameError "addr"), s')) /\
    (forall l m', l ∈ [0] -> heap s !! l = Some m' ->
                  heap s' !! l = Some (signed env m')) /\
    (forall l, l ∉ [0] -> heap s' !! l = heap s !! l) /\
    trace s' = trace s ++ sign_calls (heap s) ([0] ++ [1]).
Proof.
  intros env m s.
  apply (sign_messages_failure_leaves_signed_prefix env [0] 1 [2] s m).
  - by_computation.
  - apply Forall_forall. repeat constructor; by eexists.
  - reflexivity.
  - by vm_compute.
Defined.

Lemma addresses_for_key_of_well_formed_uids_witness :
  addresses_for_key demo_key_map "ABCD1234"
  = Some (map snd [("Alice Example", "alice@x.com");
                   ("Alice (work)", "a.ex@corp.com")]).
Proof.
  apply (addresses_for_key_of_well_formed_uids demo_key_map "ABCD1234"
           [("Alice Example", "alice@x.com");
            ("Alice (work)", "a.ex@corp.com")]);
    [reflexivity | repeat constructor].
Defined.

Lemma output_holds_only_new_copies_witness :
  let env := demo_env true in
  let s := demo_state [demo_message ["a@x.com"; "b@x.com"] false] in
  let s' := snd (encrypt_messages env [0; 0] s) in
  length (heap s') = length (heap s) + 2 * length [0; 0] /\
  Forall (fun x => length (heap s) <= x < length (heap s')) [1; 3; 2; 4] /\
  forall l, is_Some (heap s !! l) -> l ∉ [1; 3; 2; 4].
Proof.
  intros env s s'.
  apply (output_holds_only_new_copies env [0; 0] s [1; 3; 2; 4] s').
  by vm_compute.
Defined.


Lemma encrypt_messages_returns_witness :
  let env := demo_env_reliable in
  let s := demo_state
             [mkMessage ["b@x.com"; "z@x.com"] [] [] [] "me@x.com" "hi"
                        "hello" [("<p>hello</p>", "text/html")] [] [] None
                        false] in
  exists out s', encrypt_messages env [0; 0] s = (Ok out, s').
Proof.
  intros env s.
  apply (encrypt_messages_returns env demo_env_reliable_engine [0; 0] s).
  repeat constructor; by eexists.
Defined.

(** ** The events of one message *)

Section PassEvents.

Variable env : Env.

Lemma body_pass_events_spec new_msg nm a s s1 :
  heap s !! new_msg = Some nm ->
  try_except is_EncryptionFailedError
    (let* b := encrypt env (Text (body nm)) a in
     setattr new_msg (set_body b))
    (fun e => call_handler env MessageEncryption e) s = (Ok tt, s1) ->
  trace s1 = trace s ++ body_pass_events env (body nm) a.
Proof.
  intros Hnm. unfold try_except, bind, body_pass_events. rewrite encrypt_run.
  destruct (encryption_failed _ _); cbn [is_EncryptionFailedError].
  - rewrite call_handler_run.
    destruct (handle_failed_message_encryption env _); [discriminate|].
    intros [= <-]. cbn [heap trace]. by rewrite <- app_assoc.
  - unfold setattr. cbn [heap trace]. rewrite Hnm. by intros [= <-].
Qed.

Lemma encrypt_alternative_events address acc item s r s' :
  encrypt_alternative env address acc item s = (Ok r, s') ->
  trace s' = trace s ++ alternative_events env address item.
Proof.
  destruct item as [alt mimetype].
  unfold encrypt_alternative, alternative_events. cbn [fst snd].
  case_bool_decide; [intros [= _ <-]; by rewrite app_nil_r|].
  unfold try_except, bind. rewrite encrypt_run.
  destruct (encryption_failed _ _); cbn [is_EncryptionFailedError].
  - rewrite call_handler_run.
    destruct (handle_failed_alternative_encryption env _); [done|].
    intros [= _ <-]. cbn [trace]. by rewrite <- app_assoc.
  - by intros [= _ <-].
Qed.

Lemma for_each_alternatives_events address alts :
  forall acc s r s',
  for_each (encrypt_alternative env address) alts acc s = (Ok r, s') ->
  trace s' = trace s ++ alternatives_events env address alts.
Proof.
  induction alts as [|item alts IH]; intros acc s r s'; cbn [for_each].
  - intros [= _ <-]. by rewrite app_nil_r.
  - intros H. apply bind_Ok_inv in H as (acc1 & s1 & Hstep & H).
    apply encrypt_alternative_events in Hstep. apply IH in H.
    unfold alternatives_events in *. cbn [flat_map].
    by rewrite H, Hstep, <- app_assoc.
Qed.

Lemma encrypt_attachment_events address attachment use_asc s r s' :
  encrypt_attachment env address attachment use_asc s = (Ok r, s') ->
  trace s' = trace s ++ attachment_events env address attachment.
Proof.
  unfold encrypt_attachment, attachment_events.
  destruct attachment as [path|filename content mimetype];
    cbn [unpack_attachment].
  - destruct (read_file env path) as [content|]; [|done].
    unfold bind at 1. unfold ret at 1.
    rewrite bool_decide_eq_false_2 by done.
    unfold bind, try_except. rewrite encrypt_run.
    destruct (encryption_failed _ _); cbn [is_EncryptionFailedError].
    + rewrite call_handler_run.
      by destruct (handle_failed_attachment_encryption env _).
    + cbn [ret local]. by intros [= _ <-].
  - unfold bind at 1. unfold ret at 1.
    case_bool_decide; [intros [= _ <-]; by rewrite app_nil_r|].
    unfold bind, try_except. rewrite encrypt_run.
    destruct (encryption_failed _ _); cbn [is_EncryptionFailedError].
    + rewrite call_handler_run.
      by destruct (handle_failed_attachment_encryption env _).
    + cbn [ret local]. by intros [= _ <-].
Qed.

Lemma for_each_attachments_events address use_asc atts :
  forall acc s r s',
  for_each (fun acc attachment =>
              let* a := encrypt_attachment env address attachment use_asc in
              ret (acc ++ [a])) atts acc s = (Ok r, s') ->
  trace s' = trace s ++ attachments_events env address atts.
Proof.
  induction atts as [|att atts IH]; intros acc s r s'; cbn [for_each].
  - intros [= _ <-]. by rewrite app_nil_r.
  - intros H. apply bind_Ok_inv in H as (acc1 & s1 & Hstep & H).
    apply bind_Ok_inv in Hstep as (a & s0 & Hatt & Hret).
    injection Hret as _ <-.
    apply encrypt_attachment_events in Hatt. apply IH in H.
    unfold attachments_events in *. cbn [flat_map].
    by rewrite H, Hatt, <- app_assoc.
Qed.

Lemma alternatives_events_marked address alts :
  Forall (fun a : Alternative => snd a = gpg_encrypted) alts ->
  alternatives_events env address alts = [].
Proof.
  induction 1 as [|item alts Hx _ IH]; [done|].
  unfold alternatives_events in *. cbn [flat_map]. rewrite IH.
  unfold alternative_events. by rewrite bool_decide_eq_true_2.
Qed.

Lemma attachments_events_marked address atts :
  Forall marked_attachment atts ->
  attachments_events env address atts = [].
Proof.
  induction 1 as [|a atts Ha _ IH]; [done|].
  unfold attachments_events in *. cbn [flat_map]. rewrite IH.
  destruct a as [path|filename content [mt|]]; try done.
  cbn in Ha. subst mt. cbn [attachment_events].
  by rewrite bool_decide_eq_true_2.
Qed.

(** The events of the pass for one address. *)
Lemma encrypt_for_address_events
    msg new_msg u e a use_asc s m nm u' e' s' :
  heap s !! msg = Some m ->
  heap s !! new_msg = Some nm ->
  do_not_encrypt_this_message m = false ->
  encrypt_for_address env msg new_msg (u, e) (a, use_asc) s
    = (Ok (u', e'), s') ->
  trace s' = trace s ++ body_pass_events env (body nm) a
                     ++ alternatives_events env a (alternatives nm)
                     ++ attachments_events env a (attachments nm).
Proof.
  intros Hm Hnm Hflag. unfold encrypt_for_address.
  rewrite (bind_Ok _ _ _ _ _ (deref_run _ _ _ Hm)), Hflag.
  rewrite (bind_Ok _ _ _ _ _ (deref_run _ _ _ Hnm)).
  intros H.
  apply bind_Ok_inv in H as ([] & s1 & Hbody & H).
  pose proof (body_pass_events_spec _ _ _ _ _ Hnm Hbody) as Ht1.
  apply (body_pass_spec _ _ _ _ _ _ Hnm) in Hbody as [Hh1 _].
  assert (Hlen : new_msg < length (heap s)) by by eapply lookup_lt_Some.
  set (nm1 := set_body (body_after env (body nm) a) nm) in *.
  assert (Hnm1 : heap s1 !! new_msg = Some nm1).
  { rewrite Hh1. by apply list_lookup_insert_eq. }
  rewrite (bind_Ok _ _ _ _ _ (deref_run _ _ _ Hnm1)) in H.
  apply bind_Ok_inv in H as (alts & s2 & Halts & H).
  pose proof (store_preserved_for_each _ _
                (store_preserved_encrypt_alternative env a) _ _ _ _ Halts)
    as [Hh2 _].
  apply for_each_alternatives_events in Halts as Ht2.
  assert (Hnm2 : heap s2 !! new_msg = Some nm1) by by rewrite Hh2.
  rewrite (bind_Ok _ _ _ _ _ (setattr_run _ _ _ _ Hnm2)) in H.
  set (nm2 := set_alternatives alts nm1) in *.
  match type of H with bind _ _ ?st = _ => set (s3 := st) in * end.
  assert (Hnm3 : heap s3 !! new_msg = Some nm2).
  { subst s3. cbn [heap]. apply list_lookup_insert_eq.
    by rewrite Hh2, Hh1, length_insert. }
  rewrite (bind_Ok _ _ _ _ _ (deref_run _ _ _ Hnm3)) in H.
  apply bind_Ok_inv in H as (atts & s4 & Hatts & H).
  assert (Hh4 : heap s4 = heap s3).
  { eapply store_preserved_for_each in Hatts as [Hh4 _]; [done|].
    intros acc x. apply store_preserved_bind;
      [apply store_preserved_encrypt_attachment | auto with store]. }
  apply for_each_attachments_events in Hatts as Ht4.
  assert (Hnm4 : heap s4 !! new_msg = Some nm2) by by rewrite Hh4.
  rewrite (bind_Ok _ _ _ _ _ (setattr_run _ _ _ _ Hnm4)) in H.
  injection H as _ _ <-. cbn [trace].
  rewrite Ht4. subst s3. cbn [trace]. rewrite Ht2, Ht1.
  by rewrite <- !app_assoc.
Qed.

(** What the pass leaves in the shared copy. *)
Lemma encrypt_for_address_exact
    msg new_msg u e a use_asc s m nm u' e' s' :
  heap s !! msg = Some m ->
  heap s !! new_msg = Some nm ->
  do_not_encrypt_this_message m = false ->
  encrypt_for_address env msg new_msg (u, e) (a, use_asc) s
    = (Ok (u', e'), s') ->
  exists nm',
    heap s' = <[new_msg := nm']> (heap s) /\
    body nm' = body_after env (body nm) a /\
    alternatives nm' = alternatives_after env a (alternatives nm) /\
    mapM (attachment_after env a use_asc) (attachments nm)
      = Some (attachments nm') /\
    trace s' = trace s ++ body_pass_events env (body nm) a
                       ++ alternatives_events env a (alternatives nm)
                       ++ attachments_events env a (attachments nm).
Proof.
  intros Hm Hnm Hflag Hrun.
  pose proof (encrypt_for_address_events _ _ _ _ _ _ _ _ _ _ _ _
                Hm Hnm Hflag Hrun) as Ht.
  pose proof (encrypt_for_address_spec env _ _ _ _ _ _ _ _ _ _ _ _
                Hm Hnm Hrun) as Hs.
  rewrite Hflag in Hs.
  destruct Hs as (_ & _ & nm1 & evs & Hh1 & _ & Hb1 & _).
  destruct (encrypt_for_address_content env _ _ _ _ _ _ _ _ _ _ _ _
              Hm Hnm Hflag Hrun) as (nm2 & Hh2 & Ha2 & Hm2).
  assert (Hlen : new_msg < length (heap s)) by by eapply lookup_lt_Some.
  assert (nm1 = nm2) as ->.
  { assert (Hl : heap s' !! new_msg = Some nm1)
      by (rewrite Hh1; by apply list_lookup_insert_eq).
    rewrite Hh2, list_lookup_insert_eq in Hl by done. congruence. }
  by exists nm2.
Qed.

(** Once everything is marked, a pass makes its call on the body and no
    other. *)
Lemma keyed_loop_events_marked msg new_msg items :
  forall u e s m nm u' e' s',
  msg <> new_msg ->
  heap s !! msg = Some m ->
  heap s !! new_msg = Some nm ->
  do_not_encrypt_this_message m = false ->
  Forall (fun a : Alternative => snd a = gpg_encrypted) (alternatives nm) ->
  Forall marked_attachment (attachments nm) ->
  for_each (encrypt_for_address env msg new_msg) items (u, e) s
    = (Ok (u', e'), s') ->
  trace s' = trace s ++ body_events env (body nm) items.*1.
Proof.
  induction items as [|[a use_asc] items IH];
    intros u e s m nm u' e' s' Hne Hm Hnm Hflag Halts Hatts;
    cbn [for_each].
  - intros [= _ _ <-]. by rewrite app_nil_r.
  - intros H. apply bind_Ok_inv in H as ([u1 e1] & s1 & Hstep & H).
    apply (encrypt_for_address_exact _ _ _ _ _ _ _ _ _ _ _ _ Hm Hnm Hflag)
      in Hstep as (nm1 & Hh1 & Hb1 & Ha1 & Hm1 & Ht1).
    rewrite alternatives_after_marked in Ha1 by done.
    rewrite mapM_attachment_after_marked in Hm1 by done.
    injection Hm1 as Hm1.
    rewrite alternatives_events_marked, attachments_events_marked,
      !app_nil_r in Ht1 by done.
    assert (Hlen : new_msg < length (heap s)) by by eapply lookup_lt_Some.
    apply (IH _ _ _ m nm1) in H; try done.
    + rewrite H, Ht1, Hb1. cbn [fmap list_fmap fst body_events].
      by rewrite <- app_assoc.
    + rewrite Hh1. by rewrite list_lookup_insert_ne.
    + rewrite Hh1. by apply list_lookup_insert_eq.
    + by rewrite Ha1.
    + by rewrite <- Hm1.
Qed.

(** The events of one message with a keyed recipient. *)
Lemma encrypt_message_events lists1 l s1 lists2 s2 m a1 use_asc1 rest :
  encrypt_message env lists1 l s1 = (Ok lists2, s2) ->
  heap s1 !! l = Some m ->
  do_not_encrypt_this_message m = false ->
  key_addrs_of env (to m) = (a1, use_asc1) :: rest ->
  trace s2 = trace s1 ++ body_pass_events env (body m) a1
                      ++ alternatives_events env a1 (alternatives m)
                      ++ attachments_events env a1 (attachments m)
                      ++ body_events env (body_after env (body m) a1)
                                     rest.*1.
Proof.
  intros Hstep Hm1 Hflag Hkeys.
  destruct lists1 as [u1 e1]. destruct lists2 as [u2 e2].
  assert (Hlt : l < length (heap s1)) by by eapply lookup_lt_Some.
  rewrite (encrypt_message_unfold env _ _ _ _ _ Hm1), Hkeys in Hstep.
  cbn [for_each] in Hstep.
  apply bind_Ok_inv in Hstep as ([u e] & sa & Hfirst & Hrest).
  set (s0 := mkState _ _) in Hfirst.
  assert (Hm0 : heap s0 !! l = Some m).
  { subst s0. cbn [heap]. by apply lookup_app_l_Some. }
  assert (Hnm0 : heap s0 !! S (length (heap s1)) = Some (keyed_copy env m)).
  { subst s0. cbn [heap]. apply lookup_second_last. }
  apply (encrypt_for_address_exact _ _ _ _ _ _ _ _ _ _ _ _ Hm0 Hnm0 Hflag)
    in Hfirst as (nm1 & Hh1 & Hb1 & Ha1 & Hat1 & Ht1).
  assert (Hlen : S (length (heap s1)) < length (heap s0)).
  { by eapply lookup_lt_Some. }
  apply (keyed_loop_events_marked _ _ _ _ _ _ m nm1) in Hrest; try done.
  - rewrite Hrest, Ht1, Hb1. subst s0. cbn [trace].
    change (body (keyed_copy env m)) with (body m).
    change (alternatives (keyed_copy env m)) with (alternatives m).
    change (attachments (keyed_copy env m)) with (attachments m).
    by rewrite <- !app_assoc.
  - lia.
  - rewrite Hh1. rewrite list_lookup_insert_ne by lia. done.
  - rewrite Hh1. by apply list_lookup_insert_eq.
  - rewrite Ha1. apply alternatives_after_all_marked.
  - by eapply mapM_attachment_after_all_marked.
Qed.

(** C2, amended. For a message without the flag that has two keyed
    recipients or more, in a run that returns: the keyed recipients share
    one message object, which the output lists once for each of them.
    While that message is processed the engine is called exactly once
    for each keyed address on the body of that object, each time on what
    the pass before left there, a call that succeeds replacing the body;
    so the body at the end is what the pass for the last address made of
    the body as the addresses before it had left it, not a body
    encrypted for each recipient apart.  The alternatives and the
    attachments are not overwritten in this way: the engine is called for
    them in the pass for the first address only, and they stay as that
    pass left them. *)
Theorem keyed_recipients_share_one_message
    batch s out s' i l m a1 use_asc1 rest :
  encrypt_messages env batch s = (Ok out, s') ->
  batch !! i = Some l -> heap s !! l = Some m ->
  do_not_encrypt_this_message m = false ->
  key_addrs_of env (to m) = (a1, use_asc1) :: rest ->
  rest <> [] ->
  exists U E nm lists1 s1 lists2 s2,
    encrypt_loop env batch s = (Ok (U, E), s') /\ out = U ++ E /\
    count_occ Nat.eq_dec out (keyed_ref (length (heap s)) i)
      = length (keyed_to env m) /\
    count_occ Nat.eq_dec E (keyed_ref (length (heap s)) i)
      = length (keyed_to env m) /\
    heap s' !! keyed_ref (length (heap s)) i = Some nm /\
    to nm = keyed_to env m /\
    for_each (encrypt_message env) (take i batch) ([], []) s
      = (Ok lists1, s1) /\
    encrypt_message env lists1 l s1 = (Ok lists2, s2) /\
    for_each (encrypt_message env) (drop (S i) batch) lists2 s2
      = (Ok (U, E), s') /\
    trace s2 = trace s1 ++ body_pass_events env (body m) a1
                        ++ alternatives_events env a1 (alternatives m)
                        ++ attachments_events env a1 (attachments m)
                        ++ body_events env (body_after env (body m) a1)
                                       rest.*1 /\
    body nm = fold_left (body_after env) (keyed_to env m) (body m) /\
    (forall init last,
       keyed_to env m = init ++ [last] ->
       body nm =
       body_after env (fold_left (body_after env) init (body m)) last) /\
    alternatives nm = alternatives_after env a1 (alternatives m) /\
    mapM (attachment_after env a1 use_asc1) (attachments m)
      = Some (attachments nm).
Proof.
  intros Hrun Hi Hl Hflag Hkeys Hrest.
  apply encrypt_messages_Ok_inv in Hrun as (U & E & Hloop & ->).
  destruct (encrypt_loop_message env _ _ _ _ _ _ _ _ Hloop Hi Hl)
    as (evs & _ & _ & _ & _ & Hnu & Hne & nm & Hnm & Henv & _ & Hbody).
  rewrite Hflag in Hnu, Hne. destruct (Hbody Hflag) as [Hb _].
  destruct (encrypt_loop_split env _ _ _ _ _ _ _ Hloop Hi)
    as (lists1 & s1 & lists2 & s2 & added1 & added2
        & Hpre & Hstep & Hpost & Hh1 & Hn1 & Hh').
  assert (Hm1 : heap s1 !! l = Some m).
  { rewrite Hh1. by apply lookup_app_l_Some. }
  destruct (encrypt_message_content env _ _ _ _ _ _ _ _ _
              Hstep Hm1 Hflag Hkeys) as (nm2 & Hh2 & Ha & Hat).
  assert (nm2 = nm) as ->.
  { assert (Hl2 : heap s' !! keyed_ref (length (heap s)) i = Some nm2).
    { rewrite Hh', Hh2. apply lookup_app_l_Some.
      replace (keyed_ref (length (heap s)) i) with (S (length (heap s1)))
        by (rewrite Hn1; unfold keyed_ref, unencrypted_ref; lia).
      apply lookup_second_last. }
    congruence. }
  exists U, E, nm, lists1, s1, lists2, s2.
  split; [done|]. split; [done|].
  split; [rewrite count_occ_app; lia|].
  split; [done|]. split; [done|]. split; [by apply to_of_envelope|].
  split; [done|]. split; [done|]. split; [done|].
  split; [by eapply encrypt_message_events|].
  split; [done|].
  split; [intros init last Hsplit; by rewrite Hb, Hsplit, fold_left_app|].
  done.
Qed.

End PassEvents.

(** C2, as stated, fails for the shared fields other than the body: for
    a message to two keyed addresses the alternatives of the copy are the
    ciphertexts made for the first address processed, not for the
    last. *)
Lemma shared_fields_counterexample :
  fst (encrypt_messages (demo_env true) [0]
         (demo_state [demo_message ["c@x.com"; "b@x.com"] false]))
    = Ok [2; 2] /\
  (alternatives <$>
     heap (snd (encrypt_messages (demo_env true) [0]
                  (demo_state [demo_message ["c@x.com"; "b@x.com"] false])))
     !! 2)
    = Some [("<b@x.com:<p>hello</p>>", gpg_encrypted)] /\
  key_addrs_of (demo_env true) ["c@x.com"; "b@x.com"]
    = [("b@x.com", true); ("c@x.com", false)] /\
  ~ fields_of_last_address (demo_env true) [0]
      (demo_state [demo_message ["c@x.com"; "b@x.com"] false]) 0.
Proof.
  split; [by vm_compute|]. split; [by vm_compute|]. split; [by vm_compute|].
  intros H.
  destruct (H 0 _ [("b@x.com", true)] "c@x.com" false eq_refl eq_refl eq_refl)
    as (U & E & s' & nm & Hrun & Hnm & _ & Halts & _); [by vm_compute|done|].
  vm_compute in Hrun. injection Hrun as <- <- <-.
  vm_compute in Hnm. injection Hnm as <-.
  vm_compute in Halts. discriminate.
Qed.

Lemma keyed_recipients_share_one_message_witness :
  let env := demo_env true in
  let m := demo_message ["c@x.com"; "b@x.com"] false in
  let s := demo_state [m] in
  let s' := snd (encrypt_messages env [0] s) in
  exists U E nm lists1 s1 lists2 s2,
    encrypt_loop env [0] s = (Ok (U, E), s') /\ [2; 2] = U ++ E /\
    count_occ Nat.eq_dec [2; 2] (keyed_ref (length (heap s)) 0)
      = length (keyed_to env m) /\
    count_occ Nat.eq_dec E (keyed_ref (length (heap s)) 0)
      = length (keyed_to env m) /\
    heap s' !! keyed_ref (length (heap s)) 0 = Some nm /\
    to nm = keyed_to env m /\
    for_each (encrypt_message env) (take 0 [0]) ([], []) s
      = (Ok lists1, s1) /\
    encrypt_message env lists1 0 s1 = (Ok lists2, s2) /\
    for_each (encrypt_message env) (drop 1 [0]) lists2 s2
      = (Ok (U, E), s') /\
    trace s2 = trace s1 ++ body_pass_events env (body m) "b@x.com"
                        ++ alternatives_events env "b@x.com" (alternatives m)
                        ++ attachments_events env "b@x.com" (attachments m)
                        ++ body_events env
                             (body_after env (body m) "b@x.com")
                             [("c@x.com", false)].*1 /\
    body nm = fold_left (body_after env) (keyed_to env m) (body m) /\
    (forall init last,
       keyed_to env m = init ++ [last] ->
       body nm =
       body_after env (fold_left (body_after env) init (body m)) last) /\
    alternatives nm = alternatives_after env "b@x.com" (alternatives m) /\
    mapM (attachment_after env "b@x.com" true) (attachments m)
      = Some (attachments nm).
Proof.
  intros env m s s'.
  apply (keyed_recipients_share_one_message env [0] s [2; 2] s' 0 0 m
           "b@x.com" true [("c@x.com", false)]);
    [by vm_compute | reflexivity | reflexivity | reflexivity
    | by vm_compute | discriminate].
Defined.
